(** * ATS: the State field registry and the weak multi-process coordinator

    A shallow embedding of [src/state/State.cc] and [src/pks/mpc/WeakMPC.cc].

    The C++ objects live behind reference-counted pointers ([Teuchos::RCP]),
    so the registry is modelled over an explicit heap: a [State] holds
    pointers to its [Field]s, a [Field] holds a pointer to its data buffer,
    and two registries may or may not share what they point to.  Member
    functions are computations in a state-and-exception monad over that heap;
    a thrown [Errors::Message] keeps the heap as it was at the throw. *)

From Stdlib Require Import ZArith Floats.
From stdpp Require Import base option list gmap strings pretty.

Set Default Proof Using "Type".
Open Scope string_scope.
Open Scope list_scope.
Set Warnings "-register-all".

(** ** Values *)

(** A C++ [double].  The registry only stores and moves these values. *)
Abbreviation double := PrimFloat.float.

(** Modelled from the spec: the enumeration [FieldLocation] is declared in a
    header that is not part of the sources at hand; the spec (section 3) lists
    its values as CELL, FACE, and other mesh entity kinds. *)
Inductive FieldLocation : Set :=
  | FIELD_LOCATION_CELL
  | FIELD_LOCATION_FACE
  | FIELD_LOCATION_OTHER (kind : nat).

Global Instance FieldLocation_eq_dec : EqDecision FieldLocation.
Proof. solve_decision. Defined.

(** [Epetra_MultiVector]: one vector per degree of freedom, each holding one
    value per mesh entity. *)
Abbreviation MultiVector := (list (list double)).

(** Modelled from the spec: the mesh collaborator (section 6) is an opaque
    handle giving entity counts per location kind and per block.
    [vector_component] is what reduces a 3-component vector to the single
    value stored on an entity by [set_vector_data]. *)
Record Mesh := mkMesh {
  count_entities : FieldLocation → nat;
  block_entities : FieldLocation → Z → list nat;
  vector_component : nat → list double → double
}.

(** ** The configuration collaborator ([Teuchos::ParameterList]) *)

Inductive ParameterEntry :=
  | PDouble (d : double)
  | PInt (i : Z)
  | PString (s : string)
  | PSublist (l : list (string * ParameterEntry)).

Abbreviation ParameterList := (list (string * ParameterEntry)).

Fixpoint PL_find (name : string) (pl : ParameterList) : option ParameterEntry :=
  match pl with
  | [] => None
  | (k, e) :: pl' => if decide (k = name) then Some e else PL_find name pl'
  end.

Definition isParameter (name : string) (pl : ParameterList) : bool :=
  match PL_find name pl with Some _ => true | None => false end.

(** ** Errors *)

(** What is thrown.  [Errors::Message] carries a text; the constructor records
    which [amanzi_throw] site built it, with the values streamed into the
    text.  The two [Teuchos_] constructors are the exceptions of the
    parameter list's [get<T>] and [sublist]. *)
Inductive Message :=
  | NonCompatibleStates
      (* "Attempted copy of non-compatible states." *)
  | LocationConflict (fieldname : string) (requested existing : FieldLocation)
      (* "Requested field <f> on locations <l> already exists on location <l'>" *)
  | DoubleOwnership (fieldname : string) (existing : FieldLocation)
      (* "Requested field <f> already exists and is owned by <l'>" *)
  | UnknownField (fieldname : string)
  | Teuchos_InvalidParameterName (name : string)
  | Teuchos_InvalidParameterType (name : string).

Inductive Result (A : Type) :=
  | Ok (a : A)
  | Throw (e : Message)
  | Undefined.   (* C++ undefined behaviour: a wild pointer or index *)
Arguments Ok {A} a.
Arguments Throw {A} e.
Arguments Undefined {A}.

Definition get_double (name : string) (pl : ParameterList) : Result double :=
  match PL_find name pl with
  | Some (PDouble d) => Ok d
  | Some _ => Throw (Teuchos_InvalidParameterType name)
  | None => Throw (Teuchos_InvalidParameterName name)
  end.

Definition get_int (name : string) (pl : ParameterList) : Result Z :=
  match PL_find name pl with
  | Some (PInt i) => Ok i
  | Some _ => Throw (Teuchos_InvalidParameterType name)
  | None => Throw (Teuchos_InvalidParameterName name)
  end.

(** The non-const [sublist(name)]: an absent sublist is created empty. *)
Definition PL_sublist (name : string) (pl : ParameterList)
  : Result (ParameterList * ParameterList) :=
  match PL_find name pl with
  | Some (PSublist l) => Ok (l, pl)
  | Some _ => Throw (Teuchos_InvalidParameterType name)
  | None => Ok ([], pl ++ [(name, PSublist [])])
  end.

(** ** Objects and the heap *)

Abbreviation loc := nat.

(** Modelled from the spec: class [Field] is declared and implemented outside
    the sources at hand.  Its attributes are those of spec section 3: name,
    location, owner, number of degrees of freedom, optional subfield names,
    the initialized latch, the dirty mark of section 4.1, the mesh handle given
    to the constructor, and the data buffer, held through a pointer
    ([set_field_pointer] replaces it). *)
Record Field := mkField {
  fieldname_ : string;
  owner_ : string;
  location_ : FieldLocation;
  num_dofs_ : Z;
  subfield_names_ : list string;
  initialized_ : bool;
  dirty_ : bool;
  field_mesh_ : Mesh;
  data_ : loc
}.

(** The members of [State].  [mesh_maps_] points to a mesh that is never
    written, so it is kept by value; [status_] has a type declared elsewhere
    and is kept as its integer code. *)
Record State := mkState {
  mesh_maps_ : Mesh;
  parameter_list_ : ParameterList;
  density_ : loc;
  viscosity_ : loc;
  gravity_ : loc;
  field_name_map_ : gmap string nat;
  fields_ : list loc;
  time_ : double;
  cycle_ : Z;
  status_ : Z
}.

Inductive Obj :=
  | ODouble (d : double)
  | OVector (v : list double)
  | OMultiVector (mv : MultiVector)
  | OField (f : Field)
  | OState (s : State).

(** Addresses are positions; [new] appends, so a fresh address is never one
    already in use. *)
Abbreviation Heap := (list Obj).

(** ** The monad *)

Definition M (A : Type) := Heap → Result A * Heap.

Definition ret {A} (a : A) : M A := λ h, (Ok a, h).
Definition throw {A} (e : Message) : M A := λ h, (Throw e, h).
Definition undefined {A} : M A := λ h, (Undefined, h).
Definition bind {A B} (m : M A) (k : A → M B) : M B :=
  λ h, match m h with
       | (Ok a, h') => k a h'
       | (Throw e, h') => (Throw e, h')
       | (Undefined, h') => (Undefined, h')
       end.
Definition lift {A} (r : Result A) : M A := λ h, (r, h).

Notation "'do' x <- m ; k" := (bind m (λ x, k))
  (at level 10, x pattern, m at level 100, k at level 200).
Notation "m ;; k" := (bind m (λ _, k))
  (at level 100, k at level 200, right associativity).

Definition new (o : Obj) : M loc := λ h, (Ok (length h), h ++ [o]).

Definition load_double (p : loc) : M double := λ h,
  match h !! p with Some (ODouble d) => (Ok d, h) | _ => (Undefined, h) end.
Definition load_vector (p : loc) : M (list double) := λ h,
  match h !! p with Some (OVector v) => (Ok v, h) | _ => (Undefined, h) end.
Definition load_multivector (p : loc) : M MultiVector := λ h,
  match h !! p with Some (OMultiVector v) => (Ok v, h) | _ => (Undefined, h) end.
Definition load_Field (p : loc) : M Field := λ h,
  match h !! p with Some (OField f) => (Ok f, h) | _ => (Undefined, h) end.
Definition load_State (p : loc) : M State := λ h,
  match h !! p with Some (OState s) => (Ok s, h) | _ => (Undefined, h) end.

(** Stores through a pointer.  A pointer is typed: it must be live and
    point to an object of its own class. *)
Definition store_double (p : loc) (d : double) : M unit := λ h,
  match h !! p with
  | Some (ODouble _) => (Ok (), <[p := ODouble d]> h) | _ => (Undefined, h) end.
Definition store_vector (p : loc) (v : list double) : M unit := λ h,
  match h !! p with
  | Some (OVector _) => (Ok (), <[p := OVector v]> h) | _ => (Undefined, h) end.
Definition store_multivector (p : loc) (mv : MultiVector) : M unit := λ h,
  match h !! p with
  | Some (OMultiVector _) => (Ok (), <[p := OMultiVector mv]> h) | _ => (Undefined, h) end.
Definition store_Field (p : loc) (f : Field) : M unit := λ h,
  match h !! p with
  | Some (OField _) => (Ok (), <[p := OField f]> h) | _ => (Undefined, h) end.
Definition store_State (p : loc) (st : State) : M unit := λ h,
  match h !! p with
  | Some (OState _) => (Ok (), <[p := OState st]> h) | _ => (Undefined, h) end.

Fixpoint forM_ {A} (l : list A) (body : A → M unit) : M unit :=
  match l with
  | [] => ret ()
  | x :: l' => body x ;; forM_ l' body
  end.

Fixpoint forM {A B} (l : list A) (body : A → M B) : M (list B) :=
  match l with
  | [] => ret []
  | x :: l' => do y <- body x; do ys <- forM l' body; ret (y :: ys)
  end.

(** ** Class Field *)

Definition with_owner (o : string) (f : Field) : Field :=
  mkField (fieldname_ f) o (location_ f) (num_dofs_ f) (subfield_names_ f)
          (initialized_ f) (dirty_ f) (field_mesh_ f) (data_ f).
Definition with_subfield_names (ns : list string) (f : Field) : Field :=
  mkField (fieldname_ f) (owner_ f) (location_ f) (num_dofs_ f) ns
          (initialized_ f) (dirty_ f) (field_mesh_ f) (data_ f).
Definition with_initialized (f : Field) : Field :=
  mkField (fieldname_ f) (owner_ f) (location_ f) (num_dofs_ f) (subfield_names_ f)
          true (dirty_ f) (field_mesh_ f) (data_ f).
Definition with_dirty (f : Field) : Field :=
  mkField (fieldname_ f) (owner_ f) (location_ f) (num_dofs_ f) (subfield_names_ f)
          (initialized_ f) true (field_mesh_ f) (data_ f).
Definition with_data (d : loc) (f : Field) : Field :=
  mkField (fieldname_ f) (owner_ f) (location_ f) (num_dofs_ f) (subfield_names_ f)
          (initialized_ f) (dirty_ f) (field_mesh_ f) d.

(** Modelled from the spec: [Field]'s constructor.  Section 3: the buffer is
    sized (mesh entities of the location) x (dofs); a new field is not
    initialized and has no subfield names. *)
Definition Field_new (fieldname : string) (location : FieldLocation) (mesh : Mesh)
    (owner : string) (num_dofs : Z) : M loc :=
  do d <- new (OMultiVector
                 (replicate (Z.to_nat num_dofs)
                            (replicate (count_entities mesh location) 0%float)));
  new (OField (mkField fieldname owner location num_dofs [] false false mesh d)).

(** Modelled from the spec: [Field]'s copy constructor.  Section 8 (value
    independence after copy) and the comment on [State]'s copy constructor
    ("different data but the same values"): the new field has a buffer of
    its own holding the same values. *)
Definition Field_copy (src : loc) : M loc :=
  do f <- load_Field src;
  do mv <- load_multivector (data_ f);
  do d <- new (OMultiVector mv);
  new (OField (with_data d f)).

(** Modelled from the spec: [Field]'s assignment.  Section 5: assignment
    overwrites only values, never structure; the values of the source buffer
    are written into the target's own buffer. *)
Definition Field_assign (dst src : loc) : M unit :=
  do fs <- load_Field src;
  do mv <- load_multivector (data_ fs);
  do fd <- load_Field dst;
  store_multivector (data_ fd) mv.

(** Modelled from the spec: [Field]'s plain accessors ([get_owner],
    [get_location], [get_num_dofs], [get_fieldname], [get_subfield_names],
    [initialized]) read the attribute of section 3 they are named after. *)
Definition Field_get_owner (p : loc) : M string :=
  do f <- load_Field p; ret (owner_ f).
Definition Field_get_location (p : loc) : M FieldLocation :=
  do f <- load_Field p; ret (location_ f).
Definition Field_get_num_dofs (p : loc) : M Z :=
  do f <- load_Field p; ret (num_dofs_ f).
Definition Field_get_fieldname (p : loc) : M string :=
  do f <- load_Field p; ret (fieldname_ f).
Definition Field_get_subfield_names (p : loc) : M (list string) :=
  do f <- load_Field p; ret (subfield_names_ f).
Definition Field_initialized (p : loc) : M bool :=
  do f <- load_Field p; ret (initialized_ f).

Definition Field_modify (p : loc) (g : Field → Field) : M unit :=
  do f <- load_Field p; store_Field p (g f).

(** Modelled from the spec: [set_owner], [set_initialized] (the one-way latch
    of section 4.1) and [set_subfield_names] write their attribute. *)
Definition Field_set_owner (p : loc) (owner : string) : M unit :=
  Field_modify p (with_owner owner).
Definition Field_set_initialized (p : loc) : M unit :=
  Field_modify p with_initialized.
Definition Field_set_subfield_names (p : loc) (ns : list string) : M unit :=
  Field_modify p (with_subfield_names ns).

(** Modelled from the spec: [Field::get_data()] const and
    [Field::get_data(requester)] return the buffer (section 4.1); the mutable
    form does not compare the requester with the owner (sections 4.2, 9). *)
Definition Field_get_data_const (p : loc) : M loc :=
  do f <- load_Field p; ret (data_ f).
Definition Field_get_data (p : loc) (pk_name : string) : M loc :=
  do f <- load_Field p; ret (data_ f).

(** Modelled from the spec: [Field::set_data_pointer] makes the field use
    the buffer it is handed. *)
Definition Field_set_data_pointer (p : loc) (pk_name : string) (data : loc) : M unit :=
  Field_modify p (with_data data).

(** Modelled from the spec: how [Field]'s value setters rewrite a buffer
    (sections 4.1 and 8): one constant per dof on every entity, or on the
    entities of a mesh block only. *)
Fixpoint put_scalars (u : list double) (mv : MultiVector) : option MultiVector :=
  match mv with
  | [] => Some []
  | v :: mv' =>
      match u with
      | [] => None      (* reading past the end of [u] *)
      | x :: u' => (replicate (length v) x ::.) <$> put_scalars u' mv'
      end
  end.

Definition put_on (ents : list nat) (x : double) (v : list double) : list double :=
  foldr (λ e w, <[e := x]> w) v ents.

Fixpoint put_scalars_on (ents : list nat) (u : list double) (mv : MultiVector)
  : option MultiVector :=
  match mv with
  | [] => Some []
  | v :: mv' =>
      match u with
      | [] => None
      | x :: u' => (put_on ents x v ::.) <$> put_scalars_on ents u' mv'
      end
  end.

Definition put_vector_on (mesh : Mesh) (ents : list nat) (u : list double)
    (mv : MultiVector) : MultiVector :=
  match mv with
  | [] => []
  | v :: mv' => foldr (λ e w, <[e := vector_component mesh e u]> w) v ents :: mv'
  end.

(** Modelled from the spec: the shape shared by [Field::set_data] in its
    overloads and [Field::set_vector_data] (section 4.1): the buffer is
    rewritten in place and the field is marked dirty; the requester is not
    compared with the owner. *)
Definition Field_write (p : loc) (upd : Field → MultiVector → option MultiVector)
  : M unit :=
  do f <- load_Field p;
  do mv <- load_multivector (data_ f);
  match upd f mv with
  | Some mv' => store_multivector (data_ f) mv' ;; Field_modify p with_dirty
  | None => undefined
  end.

Definition Field_set_data_multivector (p : loc) (pk_name : string) (data : MultiVector) :=
  Field_write p (λ _ _, Some data).
Definition Field_set_data_epetra_vector (p : loc) (pk_name : string) (data : list double) :=
  Field_write p (λ _ mv, Some (<[0%nat := data]> mv)).
Definition Field_set_data_array (p : loc) (pk_name : string) (u : list double) :=
  Field_write p (λ _ mv, put_scalars u mv).
Definition Field_set_data_scalar (p : loc) (pk_name : string) (u : double) :=
  Field_write p (λ _ mv, Some ((λ v, replicate (length v) u) <$> mv)).
Definition block_of (f : Field) (mesh_block_id : Z) : list nat :=
  block_entities (field_mesh_ f) (location_ f) mesh_block_id.
Definition Field_set_data_array_block (p : loc) (pk_name : string)
    (u : list double) (mesh_block_id : Z) :=
  Field_write p (λ f mv, put_scalars_on (block_of f mesh_block_id) u mv).
Definition Field_set_data_scalar_block (p : loc) (pk_name : string)
    (u : double) (mesh_block_id : Z) :=
  Field_write p (λ f mv, Some (put_on (block_of f mesh_block_id) u <$> mv)).
Definition Field_set_vector_data (p : loc) (pk_name : string)
    (u : list double) (mesh_block_id : Z) :=
  Field_write p (λ f mv,
    Some (put_vector_on (field_mesh_ f) (block_of f mesh_block_id) u mv)).

(** ** Class State *)

Definition with_mesh_maps (m : Mesh) (S : State) : State :=
  mkState m (parameter_list_ S) (density_ S) (viscosity_ S) (gravity_ S)
          (field_name_map_ S) (fields_ S) (time_ S) (cycle_ S) (status_ S).
Definition with_parameter_list (pl : ParameterList) (S : State) : State :=
  mkState (mesh_maps_ S) pl (density_ S) (viscosity_ S) (gravity_ S)
          (field_name_map_ S) (fields_ S) (time_ S) (cycle_ S) (status_ S).
Definition with_field_name_map (m : gmap string nat) (S : State) : State :=
  mkState (mesh_maps_ S) (parameter_list_ S) (density_ S) (viscosity_ S) (gravity_ S)
          m (fields_ S) (time_ S) (cycle_ S) (status_ S).
Definition with_fields (fs : list loc) (S : State) : State :=
  mkState (mesh_maps_ S) (parameter_list_ S) (density_ S) (viscosity_ S) (gravity_ S)
          (field_name_map_ S) fs (time_ S) (cycle_ S) (status_ S).
Definition with_clock (t : double) (c st : Z) (S : State) : State :=
  mkState (mesh_maps_ S) (parameter_list_ S) (density_ S) (viscosity_ S) (gravity_ S)
          (field_name_map_ S) (fields_ S) t c st.

Definition State_modify (this : loc) (g : State → State) : M unit :=
  do st <- load_State this; store_State this (g st).

(** What C++ leaves in a [new double] or in an unset scalar member is
    indeterminate; the model puts a fixed value there. *)
Definition indeterminate : double := 0%float.

(** [State::State(mesh_maps)] and [State::State(parameter_list, mesh_maps)]. *)
Definition State_new_with (parameter_list : ParameterList) (mesh_maps : Mesh) : M loc :=
  do density <- new (ODouble indeterminate);
  do viscosity <- new (ODouble indeterminate);
  do gravity <- new (OVector []);
  store_vector gravity (replicate 3 0%float) ;;
  new (OState (mkState mesh_maps parameter_list density viscosity gravity
                       ∅ [] indeterminate 0 0)).

Definition State_new (mesh_maps : Mesh) : M loc := State_new_with [] mesh_maps.

(** [State::State(const State& s)].  The members are assembled and the
    object is placed in the heap when the constructor is done; the
    parameter list is not copied. *)
Definition State_copy (s : loc) : M loc :=
  do st <- load_State s;
  do density <- new (ODouble indeterminate);
  do viscosity <- new (ODouble indeterminate);
  do gravity <- new (OVector []);
  store_vector gravity (replicate 3 0%float) ;;
  do d <- load_double (density_ st);
  store_double density d ;;
  do v <- load_double (viscosity_ st);
  store_double viscosity v ;;
  do g <- load_vector (gravity_ st);
  store_vector gravity g ;;
  do fields <- forM (fields_ st) Field_copy;
  new (OState (mkState (mesh_maps_ st) [] density viscosity gravity
                       (field_name_map_ st) fields
                       (time_ st) (cycle_ st) (status_ st))).

(** [State::operator=]. *)
Definition State_assign (this s : loc) : M unit :=
  do me <- load_State this;
  do st <- load_State s;
  (if decide (length (fields_ me) ≠ length (fields_ st))
   then throw NonCompatibleStates else ret ()) ;;
  if decide (this ≠ s) then
    State_modify this (with_mesh_maps (mesh_maps_ st)) ;;
    do d <- load_double (density_ st);
    store_double (density_ me) d ;;
    do v <- load_double (viscosity_ st);
    store_double (viscosity_ me) v ;;
    do g <- load_vector (gravity_ st);
    store_vector (gravity_ me) g ;;
    State_modify this (with_field_name_map (field_name_map_ st)) ;;
    forM_ (zip (fields_ me) (fields_ st)) (λ '(pt, ps), Field_assign pt ps) ;;
    State_modify this (with_clock (time_ st) (cycle_ st) (status_ st))
  else ret ().

(** Modelled from the spec: [get_field_record] is defined in the class
    header, which is not part of the sources at hand.  Sections 4.2 and 7:
    access to an unregistered name is a fatal error. *)
Definition get_field_record (this : loc) (fieldname : string) : M loc :=
  do st <- load_State this;
  match field_name_map_ st !! fieldname with
  | None => throw (UnknownField fieldname)
  | Some i =>
      match fields_ st !! i with
      | Some p => ret p
      | None => undefined
      end
  end.

(** [State::check_all_initialized]. *)
Fixpoint check_all_initialized_loop (fields : list loc) : M bool :=
  match fields with
  | [] => ret true
  | field :: rest =>
      do i <- Field_initialized field;
      if negb i then ret false else check_all_initialized_loop rest
  end.

Definition check_all_initialized (this : loc) : M bool :=
  do st <- load_State this;
  check_all_initialized_loop (fields_ st).

(** [State::require_field]. *)
Definition require_field (this : loc) (fieldname : string) (location : FieldLocation)
    (owner : string) (num_dofs : Z) : M unit :=
  do st <- load_State this;
  match field_name_map_ st !! fieldname with
  | None =>
      (* Field does not yet exist; create a new one. *)
      State_modify this
        (λ st', with_field_name_map (<[fieldname := length (fields_ st')]> (field_name_map_ st')) st') ;;
      do p <- Field_new fieldname location (mesh_maps_ st) owner num_dofs;
      State_modify this (λ st', with_fields (fields_ st' ++ [p]) st')
  | Some _ =>
      do r <- get_field_record this fieldname;
      do cur <- Field_get_owner r;
      if decide (cur = "state") then
        (* Field exists, but is not owned. *)
        do r <- get_field_record this fieldname;
        do l <- Field_get_location r;
        if decide (location = l) then
          do r <- get_field_record this fieldname;
          Field_set_owner r owner
        else
          throw (LocationConflict fieldname location l)
      else if decide (owner = "state") then
        (* field exists, and is owned, but this PK doesn't want to own it. *)
        do r <- get_field_record this fieldname;
        do l <- Field_get_location r;
        if decide (location ≠ l) then
          throw (LocationConflict fieldname location l)
        else ret ()
      else
        (* Field exists, and both PKs are asking to own it. *)
        do r <- get_field_record this fieldname;
        do l <- Field_get_location r;
        throw (DoubleOwnership fieldname l)
  end.

(** [State::get_field], const and mutable. *)
Definition get_field_const (this : loc) (fieldname : string) : M loc :=
  do r <- get_field_record this fieldname; Field_get_data_const r.

Definition get_field (this : loc) (fieldname pk_name : string) : M loc :=
  do r <- get_field_record this fieldname; Field_get_data r pk_name.

(** The setters delegate to the named field. *)
Definition set_field_pointer (this : loc) (fieldname pk_name : string) (data : loc) : M unit :=
  do r <- get_field_record this fieldname; Field_set_data_pointer r pk_name data.

Definition set_field_multivector (this : loc) (fieldname pk_name : string)
    (data : MultiVector) : M unit :=
  do r <- get_field_record this fieldname; Field_set_data_multivector r pk_name data.

Definition set_field_epetra_vector (this : loc) (fieldname pk_name : string)
    (data : list double) : M unit :=
  do r <- get_field_record this fieldname; Field_set_data_epetra_vector r pk_name data.

Definition set_field_array (this : loc) (fieldname pk_name : string)
    (u : list double) : M unit :=
  do r <- get_field_record this fieldname; Field_set_data_array r pk_name u.

Definition set_field_scalar (this : loc) (fieldname pk_name : string)
    (u : double) : M unit :=
  do r <- get_field_record this fieldname; Field_set_data_scalar r pk_name u.

Definition set_field_array_block (this : loc) (fieldname pk_name : string)
    (u : list double) (mesh_block_id : Z) : M unit :=
  do r <- get_field_record this fieldname;
  Field_set_data_array_block r pk_name u mesh_block_id.

Definition set_field_scalar_block (this : loc) (fieldname pk_name : string)
    (u : double) (mesh_block_id : Z) : M unit :=
  do r <- get_field_record this fieldname;
  Field_set_data_scalar_block r pk_name u mesh_block_id.

Definition set_vector_field (this : loc) (fieldname pk_name : string)
    (u : list double) (mesh_block_id : Z) : M unit :=
  do r <- get_field_record this fieldname;
  Field_set_vector_data r pk_name u mesh_block_id.

Definition set_subfield_names (this : loc) (fieldname : string)
    (subfield_names : list string) : M unit :=
  do r <- get_field_record this fieldname;
  Field_set_subfield_names r subfield_names.

Definition set_density (this : loc) (wd : double) : M unit :=
  do st <- load_State this; store_double (density_ st) wd.

Definition set_viscosity (this : loc) (mu : double) : M unit :=
  do st <- load_State this; store_double (viscosity_ st) mu.

(** [set_gravity(const double g[3])] writes three existing slots. *)
Definition set_gravity_array (this : loc) (g0 g1 g2 : double) : M unit :=
  do st <- load_State this;
  do v <- load_vector (gravity_ st);
  if decide (3 ≤ length v)%nat
  then store_vector (gravity_ st) (<[2%nat := g2]> (<[1%nat := g1]> (<[0%nat := g0]> v)))
  else undefined.

(** [set_gravity(const std::vector<double> g)] replaces the vector. *)
Definition set_gravity_vector (this : loc) (g : list double) : M unit :=
  do st <- load_State this; store_vector (gravity_ st) g.

(** *** Initialization from the parameter list *)

(** The inner loop over the subfield names: [Ok (Some u)] when every
    "Constant <name>" was found ([got_them_all]), [Ok None] at the first
    name that is missing. *)
Fixpoint read_constants (pl : ParameterList) (names : list string)
  : Result (option (list double)) :=
  match names with
  | [] => Ok (Some [])
  | n :: rest =>
      if isParameter ("Constant " +:+ n) pl then
        match get_double ("Constant " +:+ n) pl with
        | Ok d =>
            match read_constants pl rest with
            | Ok (Some u) => Ok (Some (d :: u))
            | r => r
            end
        | Throw e => Throw e
        | Undefined => Undefined
        end
      else Ok None
  end.

(** Body of the first loop over the fields (the global pass). *)
Definition initialize_global_field (pl : ParameterList) (field : loc) : M unit :=
  do l <- Field_get_location field;
  if decide (l = FIELD_LOCATION_CELL) then
    do subfield_names <- Field_get_subfield_names field;
    do nd <- Field_get_num_dofs field;
    if decide (Z.of_nat (length subfield_names) = nd) then
      do got <- lift (read_constants pl subfield_names);
      match got with
      | Some u =>
          do owner <- Field_get_owner field;
          Field_set_data_array field owner u ;;
          Field_set_initialized field
      | None => ret ()
      end
    else ret ()
  else ret ().

(** Body of the loop over the fields inside one mesh block. *)
Definition initialize_block_field (sublist : ParameterList) (mesh_block_id : Z)
    (field : loc) : M unit :=
  do l <- Field_get_location field;
  if decide (l = FIELD_LOCATION_CELL) then
    do subfield_names <- Field_get_subfield_names field;
    do nd <- Field_get_num_dofs field;
    if decide (Z.of_nat (length subfield_names) = nd) then
      do got <- lift (read_constants sublist subfield_names);
      match got with
      | Some u =>
          do owner <- Field_get_owner field;
          Field_set_data_array_block field owner u mesh_block_id ;;
          Field_set_initialized field
      | None => ret ()
      end
    else ret ()
  else if decide (l = FIELD_LOCATION_FACE) then
    do nd <- Field_get_num_dofs field;
    if decide (1 = nd)%Z then
      (* a vector field, try to get the 3 components *)
      do fieldname <- Field_get_fieldname field;
      if isParameter ("Constant " +:+ fieldname +:+ " x") sublist then
        do u0 <- lift (get_double ("Constant " +:+ fieldname +:+ " x") sublist);
        do u1 <- lift (get_double ("Constant " +:+ fieldname +:+ " y") sublist);
        do u2 <- lift (get_double ("Constant " +:+ fieldname +:+ " z") sublist);
        do owner <- Field_get_owner field;
        Field_set_vector_data field owner [u0; u1; u2] mesh_block_id ;;
        Field_set_initialized field
      else ret ()
    else ret ()
  else ret ().

(** One iteration of the loop over the mesh blocks. *)
Definition initialize_block (this : loc) (nb : nat) : M unit :=
  do st <- load_State this;
  do (sublist, pl') <- lift (PL_sublist ("Mesh block " +:+ pretty nb) (parameter_list_ st));
  State_modify this (with_parameter_list pl') ;;
  do mesh_block_id <- lift (get_int "Mesh block ID" sublist);
  forM_ (fields_ st) (initialize_block_field sublist mesh_block_id).

(** [State::initialize_from_parameter_list].  What is printed to
    [std::cout] is left out. *)
Definition initialize_from_parameter_list (this : loc) : M unit :=
  do st <- load_State this;
  let pl := parameter_list_ st in
  do u0 <- lift (get_double "Gravity x" pl);
  do u1 <- lift (get_double "Gravity y" pl);
  do u2 <- lift (get_double "Gravity z" pl);
  set_gravity_array this u0 u1 u2 ;;
  (if isParameter "Constant water density" pl then
     do u <- lift (get_double "Constant water density" pl);
     set_density this u
   else ret ()) ;;
  (if isParameter "Constant viscosity" pl then
     do u <- lift (get_double "Constant viscosity" pl);
     set_viscosity this u
   else ret ()) ;;
  (* Initialize -- State has "sudo" privleges and can write them all *)
  forM_ (fields_ st) (initialize_global_field pl) ;;
  do num_blocks <- lift (get_int "Number of mesh blocks" pl);
  forM_ (seq 1 (Z.to_nat num_blocks)) (initialize_block this).

(** [State::initialize]. *)
Definition initialize (this : loc) : M unit := initialize_from_parameter_list this.

(** ** A small registry to run the model on *)

Definition mesh0 : Mesh :=
  mkMesh (λ l, match l with FIELD_LOCATION_CELL => 4 | FIELD_LOCATION_FACE => 6 | _ => 0 end)
         (λ l b, match l with
                 | FIELD_LOCATION_CELL => if (b =? 2)%Z then [2; 3] else [0; 1]
                 | _ => []
                 end)
         (λ _ u, default 0%float (u !! 0%nat)).

Definition plist0 : ParameterList :=
  [ ("Gravity x", PDouble 0%float); ("Gravity y", PDouble 0%float);
    ("Gravity z", PDouble (-10)%float);
    ("Constant Pressure", PDouble 100000%float);
    ("Number of mesh blocks", PInt 1);
    ("Mesh block 1",
     PSublist [ ("Mesh block ID", PInt 2); ("Constant Pressure", PDouble 200000%float) ]) ].

Definition setup0 : M loc :=
  do S0 <- State_new_with plist0 mesh0;
  require_field S0 "pressure" FIELD_LOCATION_CELL "state" 1 ;;
  require_field S0 "temperature" FIELD_LOCATION_CELL "state" 1 ;;
  set_subfield_names S0 "pressure" ["Pressure"] ;;
  set_subfield_names S0 "temperature" ["Temperature"] ;;
  initialize S0 ;;
  ret S0.

(** ** Reading the heap *)

Definition state_at (h : Heap) (p : loc) : option State :=
  match h !! p with Some (OState st) => Some st | _ => None end.
Definition field_at (h : Heap) (p : loc) : option Field :=
  match h !! p with Some (OField f) => Some f | _ => None end.
Definition buffer_at (h : Heap) (p : loc) : option MultiVector :=
  match h !! p with Some (OMultiVector mv) => Some mv | _ => None end.

(** The field record a registry holds under a name, found the way
    [get_field_record] finds it. *)
Definition field_record (h : Heap) (this : loc) (name : string) : option Field :=
  st ← state_at h this;
  i ← field_name_map_ st !! name;
  p ← fields_ st !! i;
  field_at h p.

(** The values a registry holds under a name. *)
Definition field_values (h : Heap) (this : loc) (name : string) : option MultiVector :=
  f ← field_record h this name; buffer_at h (data_ f).

(** The registry invariant of spec section 3: every name of the map leads to
    a valid index whose field carries that name, and every position of the
    field vector is reached from exactly one name. *)
Definition consistent (h : Heap) (this : loc) : Prop :=
  ∃ st, h !! this = Some (OState st) ∧
    (∀ name i, field_name_map_ st !! name = Some i →
       ∃ p f, fields_ st !! i = Some p ∧ h !! p = Some (OField f) ∧ fieldname_ f = name) ∧
    (∀ i p, fields_ st !! i = Some p →
       ∃ name, field_name_map_ st !! name = Some i ∧
               ∀ name', field_name_map_ st !! name' = Some i → name' = name).

(** ** The arbitration table of spec section 4.2 *)

Record Request := mkRequest {
  r_name : string;
  r_location : FieldLocation;
  r_owner : string;
  r_num_dofs : Z
}.

Definition require (this : loc) (c : Request) : M unit :=
  require_field this (r_name c) (r_location c) (r_owner c) (r_num_dofs c).

(** A sequence of [require_field] calls; a fatal error ends it. *)
Definition require_all (this : loc) (cs : list Request) : M unit :=
  forM_ cs (require this).

(** What a registry records for a name: owner and location. *)
Definition ownership (h : Heap) (this : loc) (name : string)
  : option (string * FieldLocation) :=
  (λ f, (owner_ f, location_ f)) <$> field_record h this name.

Inductive Verdict :=
  | Create            (* create the field with the requested owner *)
  | Transfer          (* ownership goes to the requester *)
  | Retain            (* no-op, the owner keeps the field *)
  | LocationFailure   (* fail: location conflict *)
  | OwnershipFailure. (* fail: double-ownership conflict *)

(** The table, row by row as the spec writes it: current owner (with the
    location the field exists on), requested owner, requested location,
    result. *)
Inductive arbitration
  : option (string * FieldLocation) → string → FieldLocation → Verdict → Prop :=
  | row_create X l :
      arbitration None X l Create
  | row_transfer X l :
      X ≠ "state" → arbitration (Some ("state", l)) X l Transfer
  | row_state_mismatch X l l' :
      l ≠ l' → arbitration (Some ("state", l')) X l LocationFailure
  | row_retain Y l :
      Y ≠ "state" → arbitration (Some (Y, l)) "state" l Retain
  | row_retain_mismatch Y l l' :
      Y ≠ "state" → l ≠ l' → arbitration (Some (Y, l')) "state" l LocationFailure
  | row_double Y X l l' :
      Y ≠ "state" → X ≠ "state" → X ≠ Y →
      arbitration (Some (Y, l')) X l OwnershipFailure.

(** What it means for the outcome of a call, started in heap [h], to be the
    one a verdict names. *)
Definition follows (v : Verdict) (h : Heap) (this : loc) (c : Request)
    (out : Result unit * Heap) : Prop :=
  match v with
  | Create | Transfer =>
      out.1 = Ok () ∧ ownership out.2 this (r_name c) = Some (r_owner c, r_location c)
  | Retain =>
      out = (Ok (), h)
  | LocationFailure =>
      ∃ Y l', ownership h this (r_name c) = Some (Y, l') ∧
              out = (Throw (LocationConflict (r_name c) (r_location c) l'), h)
  | OwnershipFailure =>
      ∃ Y l', ownership h this (r_name c) = Some (Y, l') ∧
              out = (Throw (DoubleOwnership (r_name c) l'), h)
  end.

(** ** The registry's operations, as data *)

(** The setters of the registry, with their arguments. *)
Inductive Setter :=
  | Set_field_pointer (fieldname pk_name : string) (data : loc)
  | Set_field_multivector (fieldname pk_name : string) (data : MultiVector)
  | Set_field_epetra_vector (fieldname pk_name : string) (data : list double)
  | Set_field_array (fieldname pk_name : string) (u : list double)
  | Set_field_scalar (fieldname pk_name : string) (u : double)
  | Set_field_array_block (fieldname pk_name : string) (u : list double) (mesh_block_id : Z)
  | Set_field_scalar_block (fieldname pk_name : string) (u : double) (mesh_block_id : Z)
  | Set_vector_field (fieldname pk_name : string) (u : list double) (mesh_block_id : Z)
  | Set_subfield_names (fieldname : string) (subfield_names : list string)
  | Set_density (wd : double)
  | Set_viscosity (mu : double)
  | Set_gravity_array (g0 g1 g2 : double)
  | Set_gravity_vector (g : list double).

Definition run_setter (this : loc) (s : Setter) : M unit :=
  match s with
  | Set_field_pointer n pk d => set_field_pointer this n pk d
  | Set_field_multivector n pk d => set_field_multivector this n pk d
  | Set_field_epetra_vector n pk d => set_field_epetra_vector this n pk d
  | Set_field_array n pk u => set_field_array this n pk u
  | Set_field_scalar n pk u => set_field_scalar this n pk u
  | Set_field_array_block n pk u b => set_field_array_block this n pk u b
  | Set_field_scalar_block n pk u b => set_field_scalar_block this n pk u b
  | Set_vector_field n pk u b => set_vector_field this n pk u b
  | Set_subfield_names n ns => set_subfield_names this n ns
  | Set_density wd => set_density this wd
  | Set_viscosity mu => set_viscosity this mu
  | Set_gravity_array g0 g1 g2 => set_gravity_array this g0 g1 g2
  | Set_gravity_vector g => set_gravity_vector this g
  end.

(** The operations that act on an existing registry. *)
Inductive Operation :=
  | Op_require_field (fieldname : string) (location : FieldLocation)
                     (owner : string) (num_dofs : Z)
  | Op_assign (s : loc)
  | Op_initialize
  | Op_setter (s : Setter).

Definition run_operation (this : loc) (op : Operation) : M unit :=
  match op with
  | Op_require_field n l o d => require_field this n l o d
  | Op_assign s => State_assign this s
  | Op_initialize => initialize this
  | Op_setter s => run_setter this s
  end.

(** ** What an operation may not change *)

(** Between two heaps: every live object stays an object of its class, a
    field keeps its name and its buffer pointer, and a registry keeps its
    name map, its vector of fields and the pointers to its scalars. *)
Definition obj_kept (o o' : Obj) : Prop :=
  match o, o' with
  | ODouble _, ODouble _ => True
  | OVector _, OVector _ => True
  | OMultiVector _, OMultiVector _ => True
  | OField f, OField g => fieldname_ g = fieldname_ f ∧ data_ g = data_ f
  | OState st, OState st' =>
      field_name_map_ st' = field_name_map_ st ∧ fields_ st' = fields_ st ∧
      density_ st' = density_ st ∧ viscosity_ st' = viscosity_ st ∧
      gravity_ st' = gravity_ st
  | _, _ => False
  end.

(** The setters that write values or attributes; [set_field_pointer], which
    makes a field use another buffer, is the one that is not among them. *)
Definition value_setter (s : Setter) : Prop :=
  match s with
  | Set_field_pointer _ _ _ => False
  | _ => True
  end.

(** A sequence of setter calls on one registry; a fatal error ends it. *)
Definition run_setters (this : loc) (ss : list Setter) : M unit :=
  forM_ ss (run_setter this).

Definition kept (h h' : Heap) : Prop :=
  ∀ p o, h !! p = Some o → ∃ o', h' !! p = Some o' ∧ obj_kept o o'.

Definition keeps {A} (m : M A) : Prop := ∀ h, kept h (m h).2.

(** A decidable form of the registry invariant. *)
Definition consistentb (h : Heap) (this : loc) : bool :=
  match state_at h this with
  | None => false
  | Some st =>
      forallb (λ ni : string * nat,
                 match fields_ st !! ni.2 with
                 | Some p =>
                     match field_at h p with
                     | Some f => bool_decide (fieldname_ f = ni.1)
                     | None => false
                     end
                 | None => false
                 end)
              (map_to_list (field_name_map_ st))
      && forallb (λ ip : nat * loc,
                    match field_at h ip.2 with
                    | Some f => bool_decide (field_name_map_ st !! fieldname_ f = Some ip.1)
                    | None => false
                    end)
                 (imap pair (fields_ st))
  end.

(** ** WeakMPC *)

(** A process kernel, as far as the coordinator sees it: [advance(dt)]
    changes the world (the registry, the kernel's own data) and reports
    failure.  [W] is whatever the kernels act on. *)
Record PK (W : Type) := mkPK {
  pk_advance : double → W → bool * W
}.
Arguments mkPK {W} _.
Arguments pk_advance {W} _ _ _.

(** A call of a sub-PK's [advance], recorded: next to the world runs the
    list of the kernels invoked so far, in the order of the calls. *)
Definition invoke {W} (pk : PK W) (dt : double) (s : W * list (PK W))
  : bool * (W * list (PK W)) :=
  let (fail, w') := pk_advance pk dt s.1 in (fail, (w', s.2 ++ [pk])).

(** The loop of [WeakMPC::advance], entered with the current value of the
    local [fail]. *)
Fixpoint WeakMPC_advance_loop {W} (sub_pks : list (PK W)) (dt : double) (fail : bool)
    (s : W * list (PK W)) : bool * (W * list (PK W)) :=
  match sub_pks with
  | [] => (fail, s)
  | pk :: rest =>
      let (fail', s') := invoke pk dt s in
      if fail' then (fail', s') else WeakMPC_advance_loop rest dt fail' s'
  end.

(** [WeakMPC::advance]. *)
Definition WeakMPC_advance {W} (sub_pks : list (PK W)) (dt : double)
    (s : W * list (PK W)) : bool * (W * list (PK W)) :=
  WeakMPC_advance_loop sub_pks dt false s.

(** The world after the kernels of [pks] have advanced one after the other,
    and whether all of them reported success on the way. *)
Fixpoint world_after {W} (pks : list (PK W)) (dt : double) (w : W) : W :=
  match pks with
  | [] => w
  | pk :: rest => world_after rest dt (pk_advance pk dt w).2
  end.

Fixpoint all_succeed {W} (pks : list (PK W)) (dt : double) (w : W) : bool :=
  match pks with
  | [] => true
  | pk :: rest =>
      negb (pk_advance pk dt w).1 && all_succeed rest dt (pk_advance pk dt w).2
  end.

(** ** Populated registries *)

(** Every pointer of the registry is live and points to an object of its
    class: the three scalars, each field, each field's buffer. *)
Definition populated (h : Heap) (this : loc) : Prop :=
  ∃ st, h !! this = Some (OState st) ∧
    (∃ d, h !! density_ st = Some (ODouble d)) ∧
    (∃ v, h !! viscosity_ st = Some (ODouble v)) ∧
    (∃ g, h !! gravity_ st = Some (OVector g)) ∧
    Forall (λ p, ∃ f mv, h !! p = Some (OField f) ∧
                         h !! data_ f = Some (OMultiVector mv)) (fields_ st).

Definition is_double (h : Heap) (p : loc) : bool :=
  match h !! p with Some (ODouble _) => true | _ => false end.
Definition is_vector (h : Heap) (p : loc) : bool :=
  match h !! p with Some (OVector _) => true | _ => false end.
Definition has_buffer (h : Heap) (p : loc) : bool :=
  match h !! p with
  | Some (OField f) =>
      match h !! data_ f with Some (OMultiVector _) => true | _ => false end
  | _ => false
  end.

Definition populatedb (h : Heap) (this : loc) : bool :=
  match state_at h this with
  | None => false
  | Some st =>
      is_double h (density_ st) && is_double h (viscosity_ st)
      && is_vector h (gravity_ st) && forallb (has_buffer h) (fields_ st)
  end.

(** Between two heaps: every live object keeps its class, and a [Field]
    object is not touched at all. *)
Definition obj_layout (o o' : Obj) : Prop :=
  match o, o' with
  | ODouble _, ODouble _ => True
  | OVector _, OVector _ => True
  | OMultiVector _, OMultiVector _ => True
  | OField f, OField g => g = f
  | OState _, OState _ => True
  | _, _ => False
  end.

Definition layout (h0 h : Heap) : Prop :=
  ∀ p o, h0 !! p = Some o → ∃ o', h !! p = Some o' ∧ obj_layout o o'.

(** Started in a heap that satisfies [I], the computation returns normally
    in a heap that satisfies [I]. *)
Definition succeeds (I : Heap → Prop) {A} (m : M A) : Prop :=
  ∀ h, I h → ∃ a h', m h = (Ok a, h') ∧ I h'.

(** ** Schemas, and two registries that differ in one name *)

(** The schema of a registry: its fields in order, each with name, location
    and number of dofs. *)
Definition schema (h : Heap) (this : loc)
  : option (list (string * FieldLocation * Z)) :=
  st ← state_at h this;
  Some (omap (λ p, (λ f, (fieldname_ f, location_ f, num_dofs_ f)) <$> field_at h p)
             (fields_ st)).

(** Two registries on the same mesh, with one cell field of one dof each,
    under different names. *)
Definition two_registries : M (loc * loc) :=
  do A <- State_new mesh0;
  require_field A "pressure" FIELD_LOCATION_CELL "flow" 1 ;;
  do B <- State_new mesh0;
  require_field B "temperature" FIELD_LOCATION_CELL "energy" 1 ;;
  ret (A, B).

Definition heapAB : Heap := (two_registries []).2.
Definition regA : loc := 3.
Definition regB : loc := 9.

(** What links a field [p] of the source to its copy [q] in the heap after
    the copy: [q] and its buffer are new objects, the field is the same but
    for its buffer pointer, and the new buffer holds the same values. *)
Definition copy_of (h h' : Heap) (p q : loc) : Prop :=
  ∃ f mv d, h !! p = Some (OField f) ∧ h !! data_ f = Some (OMultiVector mv) ∧
            (length h ≤ q)%nat ∧ (length h ≤ d)%nat ∧
            h' !! q = Some (OField (with_data d f)) ∧
            h' !! d = Some (OMultiVector mv).


(** [B], in heap [h1], is the copy made of registry [s] of heap [h]: the
    old heap is a prefix of the new one, and the registry object, its three
    scalars, its fields and their buffers are all new objects. *)
Definition copied (h : Heap) (s B : loc) (h1 : Heap) : Prop :=
  ∃ st Bst ext,
    h !! s = Some (OState st) ∧ h1 = h ++ ext ∧
    (length h ≤ B)%nat ∧ h1 !! B = Some (OState Bst) ∧
    field_name_map_ Bst = field_name_map_ st ∧
    Forall2 (copy_of h h1) (fields_ st) (fields_ Bst) ∧
    (length h ≤ density_ Bst)%nat ∧ (length h ≤ viscosity_ Bst)%nat ∧
    (length h ≤ gravity_ Bst)%nat.

(** The addresses a registry's setters may write: its scalars, its fields
    and their buffers. *)
Definition footprint (h : Heap) (this : loc) (a : loc) : Prop :=
  ∃ st, h !! this = Some (OState st) ∧
    (a = density_ st ∨ a = viscosity_ st ∨ a = gravity_ st ∨
     ∃ p f, p ∈ fields_ st ∧ h !! p = Some (OField f) ∧ (a = p ∨ a = data_ f)).


(** Two buffers of the same shape: as many vectors, of the same lengths. *)
Definition same_shape (mv mv' : MultiVector) : Prop :=
  Forall2 (λ c c' : list double, length c = length c') mv mv'.

(** The fields of two lists agree position by position in location, number
    of dofs and shape of the buffer; their names are not compared. *)
Definition same_shaped (h : Heap) (fs fs' : list loc) : Prop :=
  Forall2 (λ p q, ∃ f g mv mv',
             h !! p = Some (OField f) ∧ h !! q = Some (OField g) ∧
             location_ g = location_ f ∧ num_dofs_ g = num_dofs_ f ∧
             h !! data_ f = Some (OMultiVector mv) ∧
             h !! data_ g = Some (OMultiVector mv') ∧
             same_shape mv mv') fs fs'.

(** ** What one step of an initialization pass may do *)

(** The step for field [q] either leaves the heap as it is, or rewrites the
    field object at [q] (keeping its buffer pointer) and the buffer it points
    to. *)
Definition field_effect (q : loc) (h h' : Heap) : Prop :=
  h' = h ∨
  ∃ g g' mv mv',
    h !! q = Some (OField g) ∧ h !! data_ g = Some (OMultiVector mv) ∧
    data_ g' = data_ g ∧
    h' = <[q := OField g']> (<[data_ g := OMultiVector mv']> h).

(** No other field of the list shares the buffer of [f]. *)
Definition private_buffer (h : Heap) (fields : list loc) (p : loc) (f : Field) : Prop :=
  ∀ q g, q ∈ fields → q ≠ p → h !! q = Some (OField g) → data_ g ≠ data_ f.

(** Some subfield name of [f] has no "Constant <name>" entry in [pl]. *)
Definition value_missing (pl : ParameterList) (f : Field) : Prop :=
  ∃ n, n ∈ subfield_names_ f ∧ isParameter ("Constant " +:+ n) pl = false.

(** A cell field whose subfield names are as many as its dofs. *)
Definition named_cell_field (f : Field) : Prop :=
  location_ f = FIELD_LOCATION_CELL ∧
  Z.of_nat (length (subfield_names_ f)) = num_dofs_ f.

(** The two passes of [initialize_from_parameter_list] over the fields. *)
Definition global_pass (pl : ParameterList) (fields : list loc) : M unit :=
  forM_ fields (initialize_global_field pl).
Definition block_pass (sublist : ParameterList) (mesh_block_id : Z)
    (fields : list loc) : M unit :=
  forM_ fields (initialize_block_field sublist mesh_block_id).

(** ** Concrete registries *)

(** The registry of [setup0] before and after [initialize]: two cell fields
    of one dof, "pressure" (with a configured constant) and "temperature"
    (without one). *)
Definition setup1 : M loc :=
  do S0 <- State_new_with plist0 mesh0;
  require_field S0 "pressure" FIELD_LOCATION_CELL "state" 1 ;;
  require_field S0 "temperature" FIELD_LOCATION_CELL "state" 1 ;;
  set_subfield_names S0 "pressure" ["Pressure"] ;;
  set_subfield_names S0 "temperature" ["Temperature"] ;;
  ret S0.

Definition heap0 : Heap := (setup0 []).2.
Definition heap1 : Heap := (setup1 []).2.
Definition reg0 : loc := 3.

Definition no_state : State :=
  mkState mesh0 [] 0 0 0 ∅ [] indeterminate 0 0.
Definition no_field : Field :=
  mkField "" "" FIELD_LOCATION_CELL 0 [] false false mesh0 0.

Definition the_state (h : Heap) (p : loc) : State := default no_state (state_at h p).
Definition the_field (h : Heap) (p : loc) : Field := default no_field (field_at h p).
Definition the_buffer (h : Heap) (p : loc) : MultiVector := default [] (buffer_at h p).

(** [regA], [regB] and a third registry without fields. *)
Definition heapABC : Heap := ((two_registries ;; State_new mesh0) []).2.
Definition regC : loc := 15.

(** The sublist of mesh block 1 in [plist0]. *)
Definition block1 : ParameterList :=
  [ ("Mesh block ID", PInt 2); ("Constant Pressure", PDouble 200000%float) ].

(** Three kernels on a counter: the second one fails. *)
Definition kernel1 : PK nat := mkPK (λ _ w, (false, S w)).
Definition kernel2 : PK nat := mkPK (λ _ w, (true, w + 10)%nat).
Definition kernel3 : PK nat := mkPK (λ _ w, (false, w + 100)%nat).

(** A registry in which "pressure" was required by "state", and the request
    of the flow kernel for the same field. *)
Definition by_state : Request := mkRequest "pressure" FIELD_LOCATION_CELL "state" 1.
Definition by_flow : Request := mkRequest "pressure" FIELD_LOCATION_CELL "flow" 1.
Definition heapS : Heap :=
  ((do this <- State_new_with [] mesh0; require_all this [by_state] ;; ret this) []).2.

(** ** Auxiliary notions for the proofs *)



(** A computation on a field that writes the field object and its buffer
    only. *)
Definition field_local (body : loc → M unit) : Prop :=
  ∀ (r : loc) (h : Heap) (a : loc),
    (∀ f, h !! r = Some (OField f) → a ≠ r ∧ a ≠ data_ f) →
    (body r h).2 !! a = h !! a.

(** The heap after a call that creates a field: the new buffer and the new
    [Field] are appended, and the registry records them. *)
Definition created_heap (h : Heap) (this : loc) (st : State) (name : string)
    (location : FieldLocation) (owner : string) (num_dofs : Z) : Heap :=
  <[this := OState (with_fields (fields_ st ++ [S (length h)])
                      (with_field_name_map
                         (<[name := length (fields_ st)]> (field_name_map_ st)) st))]>
    (h ++ [OMultiVector (replicate (Z.to_nat num_dofs)
                           (replicate (count_entities (mesh_maps_ st) location) 0%float));
           OField (mkField name owner location num_dofs [] false false
                           (mesh_maps_ st) (length h))]).

(** The registry object is live and so are the [Field] objects it points
    to. *)
Definition fields_live (h : Heap) (this : loc) : Prop :=
  ∃ st, h !! this = Some (OState st) ∧
        ∀ p, p ∈ fields_ st → ∃ f, h !! p = Some (OField f).

(** ** Names in order *)

(** The names of a registry's fields, in the order of the field vector. *)
Definition field_names (h : Heap) (this : loc) : list string :=
  match state_at h this with
  | Some st => omap (λ p, fieldname_ <$> field_at h p) (fields_ st)
  | None => []
  end.

(** The names of a sequence of requests in the order in which each is seen
    for the first time, after the names [seen] already there. *)
Definition first_seen (seen : list string) (names : list string) : list string :=
  foldl (λ acc n, if decide (n ∈ acc) then acc else acc ++ [n]) seen names.

(** The fields of the registry carry the names [ns], position by
    position. *)
Definition names_are (h : Heap) (this : loc) (ns : list string) : Prop :=
  ∃ st, h !! this = Some (OState st) ∧
        Forall2 (λ p n, ∃ f, h !! p = Some (OField f) ∧ fieldname_ f = n)
                (fields_ st) ns.

(** ** Relations kept by computations, in general *)

(** Every live object of [h] is still live in [h'] and related to what it
    was by [R]. *)
Definition kept_by (R : Obj → Obj → Prop) (h h' : Heap) : Prop :=
  ∀ p o, h !! p = Some o → ∃ o', h' !! p = Some o' ∧ R o o'.

Definition keeps_by (R : Obj → Obj → Prop) {A} (m : M A) : Prop :=
  ∀ h, kept_by R h (m h).2.

(** What initialization and the setters leave alone: the class of every
    object; of a field its name, owner, location and number of dofs, and a
    latch that is set; of a registry its name map, field vector, pointers,
    mesh and clock. *)
Definition obj_schema (o o' : Obj) : Prop :=
  match o, o' with
  | ODouble _, ODouble _ => True
  | OVector _, OVector _ => True
  | OMultiVector _, OMultiVector _ => True
  | OField f, OField g =>
      fieldname_ g = fieldname_ f ∧ owner_ g = owner_ f ∧
      location_ g = location_ f ∧ num_dofs_ g = num_dofs_ f ∧
      (initialized_ f = true → initialized_ g = true)
  | OState st, OState st' =>
      field_name_map_ st' = field_name_map_ st ∧ fields_ st' = fields_ st ∧
      density_ st' = density_ st ∧ viscosity_ st' = viscosity_ st ∧
      gravity_ st' = gravity_ st ∧
      time_ st' = time_ st ∧ cycle_ st' = cycle_ st ∧ status_ st' = status_ st
  | _, _ => False
  end.

(** What everything but [set_gravity] leaves alone: the content of every
    [std::vector<double>], and the pointer a registry has to its gravity. *)
Definition obj_vectors (o o' : Obj) : Prop :=
  match o, o' with
  | ODouble _, ODouble _ => True
  | OVector v, OVector v' => v' = v
  | OMultiVector _, OMultiVector _ => True
  | OField _, OField _ => True
  | OState st, OState st' => gravity_ st' = gravity_ st
  | _, _ => False
  end.

(** What [initialize] does once gravity is set. *)
Definition initialize_after_gravity (this : loc) (st : State) : M unit :=
  let pl := parameter_list_ st in
  (if isParameter "Constant water density" pl then
     do u <- lift (get_double "Constant water density" pl);
     set_density this u
   else ret ()) ;;
  (if isParameter "Constant viscosity" pl then
     do u <- lift (get_double "Constant viscosity" pl);
     set_viscosity this u
   else ret ()) ;;
  forM_ (fields_ st) (initialize_global_field pl) ;;
  do num_blocks <- lift (get_int "Number of mesh blocks" pl);
  forM_ (seq 1 (Z.to_nat num_blocks)) (initialize_block this).

(** ** Fields the passes do not consider *)

(** The global pass looks at cell fields with as many subfield names as
    dofs, and at no other field. *)
Definition skipped_by_global_pass (f : Field) : Prop :=
  location_ f ≠ FIELD_LOCATION_CELL ∨
  Z.of_nat (length (subfield_names_ f)) ≠ num_dofs_ f.

(** A block pass looks at those and at face fields of one dof for which
    the block has "Constant <fieldname> x". *)
Definition skipped_by_block_pass (sublist : ParameterList) (f : Field) : Prop :=
  (location_ f = FIELD_LOCATION_CELL ∧
   Z.of_nat (length (subfield_names_ f)) ≠ num_dofs_ f) ∨
  (location_ f = FIELD_LOCATION_FACE ∧
   (num_dofs_ f ≠ 1%Z ∨
    isParameter ("Constant " +:+ fieldname_ f +:+ " x") sublist = false)) ∨
  (location_ f ≠ FIELD_LOCATION_CELL ∧ location_ f ≠ FIELD_LOCATION_FACE).

(** ** The scalars and the clock of a registry *)

Definition double_at (h : Heap) (p : loc) : option double :=
  match h !! p with Some (ODouble d) => Some d | _ => None end.
Definition vector_at (h : Heap) (p : loc) : option (list double) :=
  match h !! p with Some (OVector v) => Some v | _ => None end.

(** Density, viscosity and gravity, read through the registry's pointers. *)
Definition scalars_of (h : Heap) (this : loc) : option (double * double * list double) :=
  st ← state_at h this;
  d ← double_at h (density_ st);
  v ← double_at h (viscosity_ st);
  g ← vector_at h (gravity_ st);
  Some (d, v, g).

(** Time, cycle and status. *)
Definition clock_of (h : Heap) (this : loc) : option (double * Z * Z) :=
  (λ st, (time_ st, cycle_ st, status_ st)) <$> state_at h this.


(** ** Restoring a registry from its copy *)

(** What the setters leave alone in every registry object: all of it. *)
Definition obj_registry (o o' : Obj) : Prop :=
  match o with OState _ => o' = o | _ => True end.

(** Where the assignment of a copy back to registry [A] stands: [h] is the
    heap the copy was made in, [h1] the heap after the copy, [hk] the heap
    now.  The registry object of [A] is [cur], nothing of the copy has been
    written, the objects of [h] are kept, and the addresses in [D] hold
    again what they held in [h]. *)
Definition restoring (h h1 : Heap) (A : loc) (D : loc → Prop) (cur : State)
    (hk : Heap) : Prop :=
  hk !! A = Some (OState cur) ∧
  (∀ a, (length h ≤ a)%nat → hk !! a = h1 !! a) ∧
  (∀ a o, a ≠ A → h !! a = Some o → ∃ o', hk !! a = Some o' ∧ obj_kept o o') ∧
  (∀ a, D a → a ≠ A → hk !! a = h !! a).


(** ** More concrete registries and parameter lists *)

(** A parameter list with gravity and nothing else, and a registry made
    with it. *)
Definition gravity_only : ParameterList :=
  [ ("Gravity x", PDouble 0%float); ("Gravity y", PDouble 0%float);
    ("Gravity z", PDouble (-10)%float) ].
Definition heapG : Heap := (State_new_with gravity_only mesh0 []).2.

(** A registry with one face field of one dof, and a block sublist that
    gives the first of its three components only. *)
Definition setupF : M loc :=
  do S0 <- State_new mesh0;
  require_field S0 "flux" FIELD_LOCATION_FACE "state" 1 ;;
  ret S0.
Definition heapF : Heap := (setupF []).2.
Definition blockF : ParameterList :=
  [ ("Mesh block ID", PInt 2); ("Constant flux x", PDouble 1%float) ].

(** "Constant Pressure" given as an integer. *)
Definition plist_int : ParameterList := [ ("Constant Pressure", PInt 1) ].

(** Two setter calls that change values of the registry of [heap1]. *)
Definition edits0 : list Setter :=
  [ Set_density 5%float; Set_field_scalar "pressure" "state" 7%float ].

(** * Properties *)

(** ** Running the monad: basic equations *)

Lemma bind_Ok {A B} (m : M A) (k : A → M B) h a h' :
  m h = (Ok a, h') → bind m k h = k a h'.
Proof. unfold bind. by intros ->. Qed.

Lemma bind_Throw {A B} (m : M A) (k : A → M B) h e h' :
  m h = (Throw e, h') → bind m k h = (Throw e, h').
Proof. unfold bind. by intros ->. Qed.

Lemma bind_Undefined {A B} (m : M A) (k : A → M B) h h' :
  m h = (Undefined, h') → bind m k h = (Undefined, h').
Proof. unfold bind. by intros ->. Qed.

Lemma load_State_eq h p st :
  h !! p = Some (OState st) → load_State p h = (Ok st, h).
Proof. unfold load_State. by intros ->. Qed.

Lemma load_Field_eq h p f :
  h !! p = Some (OField f) → load_Field p h = (Ok f, h).
Proof. unfold load_Field. by intros ->. Qed.

Lemma load_multivector_eq h p mv :
  h !! p = Some (OMultiVector mv) → load_multivector p h = (Ok mv, h).
Proof. unfold load_multivector. by intros ->. Qed.

Lemma load_double_eq h p d :
  h !! p = Some (ODouble d) → load_double p h = (Ok d, h).
Proof. unfold load_double. by intros ->. Qed.

Lemma load_vector_eq h p v :
  h !! p = Some (OVector v) → load_vector p h = (Ok v, h).
Proof. unfold load_vector. by intros ->. Qed.

Lemma store_double_eq h p d d' :
  h !! p = Some (ODouble d) → store_double p d' h = (Ok (), <[p := ODouble d']> h).
Proof. unfold store_double. by intros ->. Qed.

Lemma store_vector_eq h p v v' :
  h !! p = Some (OVector v) → store_vector p v' h = (Ok (), <[p := OVector v']> h).
Proof. unfold store_vector. by intros ->. Qed.

Lemma store_multivector_eq h p mv mv' :
  h !! p = Some (OMultiVector mv) →
  store_multivector p mv' h = (Ok (), <[p := OMultiVector mv']> h).
Proof. unfold store_multivector. by intros ->. Qed.

Lemma store_Field_eq h p f f' :
  h !! p = Some (OField f) → store_Field p f' h = (Ok (), <[p := OField f']> h).
Proof. unfold store_Field. by intros ->. Qed.

Lemma store_State_eq h p st st' :
  h !! p = Some (OState st) → store_State p st' h = (Ok (), <[p := OState st']> h).
Proof. unfold store_State. by intros ->. Qed.

Lemma get_field_record_eq h this st name i p :
  h !! this = Some (OState st) →
  field_name_map_ st !! name = Some i →
  fields_ st !! i = Some p →
  get_field_record this name h = (Ok p, h).
Proof.
  intros Hthis Hname Hp. unfold get_field_record.
  rewrite (bind_Ok _ _ _ _ _ (load_State_eq _ _ _ Hthis)).
  by rewrite Hname, Hp.
Qed.

Lemma get_field_record_unknown h this st name :
  h !! this = Some (OState st) →
  field_name_map_ st !! name = None →
  get_field_record this name h = (Throw (UnknownField name), h).
Proof.
  intros Hthis Hname. unfold get_field_record.
  rewrite (bind_Ok _ _ _ _ _ (load_State_eq _ _ _ Hthis)).
  by rewrite Hname.
Qed.

Lemma Field_get_owner_eq h p f :
  h !! p = Some (OField f) → Field_get_owner p h = (Ok (owner_ f), h).
Proof. intros H. unfold Field_get_owner. by rewrite (bind_Ok _ _ _ _ _ (load_Field_eq _ _ _ H)). Qed.

Lemma Field_get_location_eq h p f :
  h !! p = Some (OField f) → Field_get_location p h = (Ok (location_ f), h).
Proof. intros H. unfold Field_get_location. by rewrite (bind_Ok _ _ _ _ _ (load_Field_eq _ _ _ H)). Qed.

Lemma Field_modify_eq h p f g :
  h !! p = Some (OField f) → Field_modify p g h = (Ok (), <[p := OField (g f)]> h).
Proof.
  intros H. unfold Field_modify.
  rewrite (bind_Ok _ _ _ _ _ (load_Field_eq _ _ _ H)). by eapply store_Field_eq.
Qed.

Lemma State_modify_eq h p st g :
  h !! p = Some (OState st) → State_modify p g h = (Ok (), <[p := OState (g st)]> h).
Proof.
  intros H. unfold State_modify.
  rewrite (bind_Ok _ _ _ _ _ (load_State_eq _ _ _ H)). by eapply store_State_eq.
Qed.

(** The fields a consistent registry points to are live [Field] objects. *)
Lemma consistent_field h this st i p :
  consistent h this → h !! this = Some (OState st) → fields_ st !! i = Some p →
  ∃ f, h !! p = Some (OField f) ∧ field_name_map_ st !! fieldname_ f = Some i.
Proof.
  intros (st' & Hst & Hmap & Hvec) Hthis Hp.
  rewrite Hthis in Hst. injection Hst as <-.
  destruct (Hvec i p Hp) as (name & Hname & _).
  destruct (Hmap name i Hname) as (p' & f & Hp' & Hf & Hfn).
  rewrite Hp in Hp'. injection Hp' as <-. exists f. by rewrite Hfn.
Qed.

(** ** check_all_initialized *)

Lemma check_all_initialized_loop_spec h fields :
  Forall (λ p, is_Some (field_at h p)) fields →
  ∃ b, check_all_initialized_loop fields h = (Ok b, h) ∧
       if b
       then ∀ p f, p ∈ fields → field_at h p = Some f → initialized_ f = true
       else ∃ p f, p ∈ fields ∧ field_at h p = Some f ∧ initialized_ f = false.
Proof.
  induction 1 as [|p fields [f Hf] _ IH]; simpl.
  - exists true. split; [done|]. intros p f Hp. by apply elem_of_nil in Hp.
  - assert (h !! p = Some (OField f)) as Hp.
    { unfold field_at in Hf. destruct (h !! p) as [[]|]; congruence. }
    unfold Field_initialized.
    rewrite (bind_Ok _ _ _ _ _ (bind_Ok _ _ _ _ _ (load_Field_eq _ _ _ Hp))).
    unfold ret at 1.
    destruct (initialized_ f) eqn:Hi; simpl.
    + destruct IH as (b & -> & Hb). exists b. split; [done|].
      destruct b.
      * intros q g [->|Hq]%elem_of_cons Hg; [congruence | eauto].
      * destruct Hb as (q & g & Hq & Hg & Hgi). exists q, g. split; [by right | done].
    + exists false. split; [done|]. exists p, f. split; [by left | done].
Qed.

(** C6.  On a registry whose field pointers are live, [check_all_initialized]
    returns (without touching the heap) [true] exactly when the initialized
    latch of every field is set, and [false] exactly when some field is not
    initialized. *)
Theorem check_all_initialized_iff h this st :
  h !! this = Some (OState st) →
  Forall (λ p, is_Some (field_at h p)) (fields_ st) →
  ∃ b, check_all_initialized this h = (Ok b, h) ∧
       (b = true ↔
          ∀ p f, p ∈ fields_ st → field_at h p = Some f → initialized_ f = true) ∧
       (b = false ↔
          ∃ p f, p ∈ fields_ st ∧ field_at h p = Some f ∧ initialized_ f = false).
Proof.
  intros Hthis Hlive. unfold check_all_initialized.
  rewrite (bind_Ok _ _ _ _ _ (load_State_eq _ _ _ Hthis)).
  destruct (check_all_initialized_loop_spec h (fields_ st) Hlive) as (b & Hrun & Hb).
  exists b. split; [done|].
  destruct b.
  - split; [done|]. split; [done|].
    intros (p & f & Hp & Hf & Hi). rewrite (Hb p f Hp Hf) in Hi. done.
  - split; [|done]. split; [done|].
    intros Hall. destruct Hb as (p & f & Hp & Hf & Hi).
    rewrite (Hall p f Hp Hf) in Hi. done.
Qed.

(** ** require_field, one call *)

(** On a name the registry already has, the call is decided by the recorded
    owner, the requested owner and the two locations. *)
Lemma require_field_existing h this st name i p f location owner num_dofs :
  h !! this = Some (OState st) →
  field_name_map_ st !! name = Some i →
  fields_ st !! i = Some p →
  h !! p = Some (OField f) →
  require_field this name location owner num_dofs h =
    if decide (owner_ f = "state") then
      if decide (location = location_ f)
      then (Ok (), <[p := OField (with_owner owner f)]> h)
      else (Throw (LocationConflict name location (location_ f)), h)
    else if decide (owner = "state") then
      if decide (location ≠ location_ f)
      then (Throw (LocationConflict name location (location_ f)), h)
      else (Ok (), h)
    else (Throw (DoubleOwnership name (location_ f)), h).
Proof.
  intros Hthis Hname Hp Hf. unfold require_field.
  rewrite (bind_Ok _ _ _ _ _ (load_State_eq _ _ _ Hthis)), Hname.
  pose proof (get_field_record_eq _ _ _ _ _ _ Hthis Hname Hp) as Hrec.
  rewrite (bind_Ok _ _ _ _ _ Hrec).
  rewrite (bind_Ok _ _ _ _ _ (Field_get_owner_eq _ _ _ Hf)).
  destruct (decide (owner_ f = "state")) as [Hst|Hst].
  - rewrite (bind_Ok _ _ _ _ _ Hrec).
    rewrite (bind_Ok _ _ _ _ _ (Field_get_location_eq _ _ _ Hf)).
    destruct (decide (location = location_ f)); [|done].
    rewrite (bind_Ok _ _ _ _ _ Hrec).
    by apply Field_modify_eq.
  - destruct (decide (owner = "state")).
    + rewrite (bind_Ok _ _ _ _ _ Hrec).
      rewrite (bind_Ok _ _ _ _ _ (Field_get_location_eq _ _ _ Hf)).
      by destruct (decide (location ≠ location_ f)).
    + rewrite (bind_Ok _ _ _ _ _ Hrec).
      by rewrite (bind_Ok _ _ _ _ _ (Field_get_location_eq _ _ _ Hf)).
Qed.

Lemma require_field_fresh h this st name location owner num_dofs :
  h !! this = Some (OState st) →
  field_name_map_ st !! name = None →
  require_field this name location owner num_dofs h =
    (Ok (), created_heap h this st name location owner num_dofs).
Proof.
  intros Hthis Hname. unfold require_field.
  rewrite (bind_Ok _ _ _ _ _ (load_State_eq _ _ _ Hthis)), Hname.
  rewrite (bind_Ok _ _ _ _ _ (State_modify_eq _ _ _ _ Hthis)).
  assert (this < length h)%nat as Hlt by (by eapply lookup_lt_Some).
  unfold Field_new, new, bind at 2. unfold bind at 1.
  rewrite !length_app, !length_insert. simpl.
  rewrite <- app_assoc. simpl.
  erewrite State_modify_eq; last first.
  { rewrite lookup_app_l by (by rewrite length_insert).
    by apply list_lookup_insert_eq. }
  unfold created_heap. f_equal.
  rewrite Nat.add_1_r.
  rewrite !insert_app_l by (by rewrite ?length_insert).
  by rewrite list_insert_insert_eq.
Qed.

(** ** The invariant under require_field *)

Lemma consistent_this_not_field (h : Heap) (this : loc) st (p : loc) f :
  h !! this = Some (OState st) → h !! p = Some (OField f) → p ≠ this.
Proof. intros H1 H2 ->. congruence. Qed.

(** Rewriting a [Field] in place keeps the invariant as long as the name
    stays. *)
Lemma consistent_store_Field h this p f g :
  consistent h this →
  h !! p = Some (OField f) →
  fieldname_ g = fieldname_ f →
  consistent (<[p := OField g]> h) this.
Proof.
  intros (st & Hthis & Hmap & Hvec) Hp Hname.
  exists st. split; [|split; [|done]].
  - rewrite list_lookup_insert_ne; [done|]. by eapply consistent_this_not_field.
  - intros name i Hi. destruct (Hmap name i Hi) as (q & fq & Hq & Hfq & Hn).
    destruct (decide (q = p)) as [->|Hne].
    + exists p, g. split; [done|]. split.
      * apply list_lookup_insert_eq. by eapply lookup_lt_Some.
      * rewrite Hp in Hfq. injection Hfq as <-. congruence.
    + exists q, fq. by rewrite list_lookup_insert_ne.
Qed.

Lemma consistent_created h this st name location owner num_dofs :
  consistent h this →
  h !! this = Some (OState st) →
  field_name_map_ st !! name = None →
  consistent (created_heap h this st name location owner num_dofs) this.
Proof.
  intros (st' & Hst & Hmap & Hvec) Hthis Hname.
  rewrite Hthis in Hst. injection Hst as <-.
  assert (this < length h)%nat as Hlt by (by eapply lookup_lt_Some).
  unfold created_heap.
  exists (with_fields (fields_ st ++ [S (length h)])
            (with_field_name_map
               (<[name := length (fields_ st)]> (field_name_map_ st)) st)).
  split; [|split]; unfold with_fields, with_field_name_map; cbn [field_name_map_ fields_].
  - apply list_lookup_insert_eq. rewrite length_app. lia.
  - intros name' i. rewrite lookup_insert. case_decide as Hn.
    + intros [= <-]. subst name'. do 2 eexists. split; [|split].
      * rewrite lookup_app_r by done. by rewrite Nat.sub_diag.
      * rewrite list_lookup_insert_ne by lia.
        rewrite lookup_app_r by lia.
        replace (S (length h) - length h)%nat with 1%nat by lia. done.
      * done.
    + intros Hi. destruct (Hmap name' i Hi) as (q & fq & Hq & Hfq & Hfn).
      exists q, fq. split; [by apply lookup_app_l_Some|]. split; [|done].
      rewrite list_lookup_insert_ne by (by eapply not_eq_sym, consistent_this_not_field).
      by apply lookup_app_l_Some.
  - intros i p Hi. apply lookup_app_Some in Hi as [Hi|[Hge Hi]].
    + destruct (Hvec i p Hi) as (n & Hn & Huniq).
      exists n. split.
      * rewrite lookup_insert_ne; [done|]. congruence.
      * intros n'. rewrite lookup_insert. case_decide; [|by auto].
        intros [= <-]. apply lookup_lt_Some in Hi. lia.
    + apply list_lookup_singleton_Some in Hi as [Hi <-].
      assert (i = length (fields_ st)) as -> by lia.
      exists name. split; [by apply lookup_insert_eq|].
      intros n'. rewrite lookup_insert. case_decide; [done|].
      intros Hn'. destruct (Hmap n' _ Hn') as (q & _ & Hq & _).
      apply lookup_lt_Some in Hq. lia.
Qed.

(** Whatever the outcome, a [require_field] call leaves a consistent
    registry consistent. *)
Lemma consistent_require_field h this name location owner num_dofs :
  consistent h this →
  consistent (require_field this name location owner num_dofs h).2 this.
Proof.
  intros Hc. pose proof Hc as (st & Hthis & Hmap & Hvec).
  destruct (field_name_map_ st !! name) as [i|] eqn:Hname.
  - destruct (Hmap name i Hname) as (p & f & Hp & Hf & Hfn).
    rewrite (require_field_existing _ _ _ _ _ _ _ _ _ _ Hthis Hname Hp Hf).
    repeat case_decide; simpl; try done.
    by eapply consistent_store_Field.
  - rewrite (require_field_fresh _ _ _ _ _ _ _ Hthis Hname). simpl.
    by apply consistent_created.
Qed.

(** ** Ownership, as the registry records it *)

Lemma field_record_eq (h : Heap) (this : loc) st name i (p : loc) f :
  h !! this = Some (OState st) →
  field_name_map_ st !! name = Some i →
  fields_ st !! i = Some p →
  h !! p = Some (OField f) →
  field_record h this name = Some f.
Proof.
  intros Hthis Hname Hp Hf. unfold field_record, state_at, field_at.
  rewrite Hthis. simpl. rewrite Hname. simpl. rewrite Hp. simpl. by rewrite Hf.
Qed.

Lemma field_record_absent (h : Heap) (this : loc) st name :
  h !! this = Some (OState st) →
  field_name_map_ st !! name = None →
  field_record h this name = None.
Proof.
  intros Hthis Hname. unfold field_record, state_at.
  rewrite Hthis. simpl. by rewrite Hname.
Qed.

Lemma field_record_inv (h : Heap) (this : loc) name f :
  field_record h this name = Some f →
  ∃ st i p, h !! this = Some (OState st) ∧ field_name_map_ st !! name = Some i ∧
            fields_ st !! i = Some p ∧ h !! p = Some (OField f).
Proof.
  unfold field_record, state_at, field_at. intros H.
  destruct (h !! this) as [[| | | |st]|] eqn:Hthis; try done. simpl in H.
  destruct (field_name_map_ st !! name) as [i|] eqn:Hname; [|done]. simpl in H.
  destruct (fields_ st !! i) as [p|] eqn:Hp; [|done]. simpl in H.
  destruct (h !! p) as [[| | |g|]|] eqn:Hg; try done.
  injection H as ->. eauto 10.
Qed.

(** In a consistent registry a name without a record is a name the map does
    not have. *)
Lemma field_record_None_inv (h : Heap) (this : loc) st name :
  consistent h this →
  h !! this = Some (OState st) →
  field_record h this name = None →
  field_name_map_ st !! name = None.
Proof.
  intros (st' & Hst & Hmap & _) Hthis Hrec.
  rewrite Hthis in Hst. injection Hst as <-.
  destruct (field_name_map_ st !! name) as [i|] eqn:Hname; [|done].
  destruct (Hmap name i Hname) as (p & f & Hp & Hf & _).
  by rewrite (field_record_eq _ _ _ _ _ _ _ Hthis Hname Hp Hf) in Hrec.
Qed.

(** Rewriting the field stored under one name does not show under another
    name. *)
Lemma field_record_store_other (h : Heap) (this : loc) name n (p : loc) f g :
  consistent h this →
  field_record h this name = Some f →
  (∃ st i, h !! this = Some (OState st) ∧ field_name_map_ st !! name = Some i ∧
           fields_ st !! i = Some p) →
  n ≠ name →
  field_record (<[p := OField g]> h) this n = field_record h this n.
Proof.
  intros Hc Hrec (st & i & Hthis & Hname & Hp) Hn.
  destruct Hc as (st' & Hst & Hmap & Hvec).
  rewrite Hthis in Hst. injection Hst as <-.
  destruct (Hmap name i Hname) as (p' & f' & Hp' & Hf' & Hfn).
  rewrite Hp in Hp'. injection Hp' as <-.
  assert (p ≠ this) as Hpt by (by eapply consistent_this_not_field).
  unfold field_record, state_at.
  rewrite list_lookup_insert_ne by done. rewrite Hthis. simpl.
  destruct (field_name_map_ st !! n) as [j|] eqn:Hj; [|done]. simpl.
  destruct (Hmap n j Hj) as (q & fq & Hq & Hfq & Hqn).
  rewrite Hq. simpl. unfold field_at.
  rewrite list_lookup_insert_ne; [done|].
  intros ->. rewrite Hf' in Hfq. injection Hfq as <-. congruence.
Qed.

Lemma field_record_created_other (h : Heap) (this : loc) st name location owner
    num_dofs n :
  consistent h this →
  h !! this = Some (OState st) →
  field_name_map_ st !! name = None →
  n ≠ name →
  field_record (created_heap h this st name location owner num_dofs) this n
  = field_record h this n.
Proof.
  intros Hc Hthis Hname Hn.
  destruct Hc as (st' & Hst & Hmap & Hvec).
  rewrite Hthis in Hst. injection Hst as <-.
  assert (this < length h)%nat as Hlt by (by eapply lookup_lt_Some).
  unfold field_record, state_at, created_heap.
  rewrite list_lookup_insert_eq by (rewrite length_app; lia).
  rewrite Hthis. unfold with_fields, with_field_name_map. simpl.
  rewrite lookup_insert_ne by done.
  destruct (field_name_map_ st !! n) as [j|] eqn:Hj; [|done]. simpl.
  destruct (Hmap n j Hj) as (q & fq & Hq & Hfq & Hqn).
  rewrite (lookup_app_l_Some _ _ _ _ Hq), Hq. simpl. unfold field_at.
  rewrite list_lookup_insert_ne by (by eapply not_eq_sym, consistent_this_not_field).
  by rewrite (lookup_app_l_Some _ _ _ _ Hfq), Hfq.
Qed.

Lemma field_record_created (h : Heap) (this : loc) st name location owner num_dofs :
  h !! this = Some (OState st) →
  field_record (created_heap h this st name location owner num_dofs) this name
  = Some (mkField name owner location num_dofs [] false false (mesh_maps_ st) (length h)).
Proof.
  intros Hthis.
  assert (this < length h)%nat as Hlt by (by eapply lookup_lt_Some).
  unfold field_record, state_at, created_heap.
  rewrite list_lookup_insert_eq by (rewrite length_app; lia).
  unfold with_fields, with_field_name_map. simpl.
  rewrite lookup_insert_eq. simpl.
  rewrite lookup_app_r by done. rewrite Nat.sub_diag. simpl. unfold field_at.
  rewrite list_lookup_insert_ne by lia.
  rewrite lookup_app_r by lia.
  by replace (S (length h) - length h)%nat with 1%nat by lia.
Qed.

(** ** One call against the table *)

(** The outcome of one [require_field] call on a consistent registry is the
    one the table gives, and the records under other names stay as they
    are. *)
Lemma require_follows_table h this c v :
  consistent h this →
  arbitration (ownership h this (r_name c)) (r_owner c) (r_location c) v →
  follows v h this c (require this c h) ∧
  ∀ n, n ≠ r_name c → ownership (require this c h).2 this n = ownership h this n.
Proof.
  intros Hc Hrow. pose proof Hc as (st & Hthis & Hmap & Hvec).
  destruct c as [name location owner num_dofs]. unfold require. simpl in *.
  unfold ownership in Hrow.
  destruct (field_record h this name) as [f|] eqn:Hrec; simpl in Hrow.
  - destruct (field_record_inv _ _ _ _ Hrec) as (st' & i & p & Hst & Hname & Hp & Hf).
    rewrite Hthis in Hst. injection Hst as <-.
    rewrite (require_field_existing _ _ _ _ _ _ _ _ _ _ Hthis Hname Hp Hf).
    assert (∀ g n, n ≠ name →
              ownership (<[p := OField g]> h) this n = ownership h this n) as Hframe.
    { intros g n Hn. unfold ownership.
      erewrite field_record_store_other; eauto 10. }
    inversion Hrow; subst.
    + (* "state", X, location matches *)
      rewrite decide_True by done. rewrite decide_True by done. cbn [fst snd follows r_name r_owner r_location r_num_dofs].
      split; [|by auto]. split; [done|].
      unfold ownership.
      assert (<[p := OField (with_owner owner f)]> h !! this = Some (OState st)) as H1.
      { rewrite list_lookup_insert_ne; [done|]. by eapply consistent_this_not_field. }
      assert (<[p := OField (with_owner owner f)]> h !! p
              = Some (OField (with_owner owner f))) as H2.
      { apply list_lookup_insert_eq. by eapply lookup_lt_Some. }
      rewrite (field_record_eq _ _ _ _ _ _ _ H1 Hname Hp H2).
      simpl. by f_equal.
    + (* "state", X, location differs *)
      rewrite decide_True by done. rewrite decide_False by done. cbn [fst snd follows r_name r_owner r_location r_num_dofs].
      split; [|done]. exists (owner_ f), (location_ f). unfold ownership.
      rewrite Hrec. simpl. split; [by f_equal|done].
    + (* Y, "state", location matches *)
      rewrite decide_False by done. rewrite decide_True by done.
      rewrite decide_False by (intros Hne; by apply Hne).
      cbn [fst snd follows r_name r_owner r_location r_num_dofs]. done.
    + (* Y, "state", location differs *)
      rewrite decide_False by done. rewrite decide_True by done.
      rewrite decide_True by done. cbn [fst snd follows r_name r_owner r_location r_num_dofs].
      split; [|done]. exists (owner_ f), (location_ f). unfold ownership.
      rewrite Hrec. simpl. split; [by f_equal|done].
    + (* Y, X, both claim it *)
      rewrite decide_False by done. rewrite decide_False by done. cbn [fst snd follows r_name r_owner r_location r_num_dofs].
      split; [|done]. exists (owner_ f), (location_ f). unfold ownership.
      rewrite Hrec. by simpl.
  - inversion Hrow; subst.
    pose proof (field_record_None_inv _ _ _ _ Hc Hthis Hrec) as Hname.
    rewrite (require_field_fresh _ _ _ _ _ _ _ Hthis Hname).
    cbn [fst snd follows r_name r_owner r_location r_num_dofs]. split.
    + split; [done|]. unfold ownership. by rewrite field_record_created.
    + intros n Hn. unfold ownership. by rewrite field_record_created_other.
Qed.

(** ** Sequences of require_field calls *)

Lemma State_new_with_eq pl mesh (h0 : Heap) :
  State_new_with pl mesh h0 =
    (Ok (length h0 + 3)%nat,
     h0 ++ [ODouble indeterminate; ODouble indeterminate;
            OVector (replicate 3 0%float);
            OState (mkState mesh pl (length h0) (length h0 + 1) (length h0 + 2)
                            ∅ [] indeterminate 0 0)]).
Proof.
  unfold State_new_with, new, bind, store_vector.
  rewrite !length_app. simpl. rewrite <- !app_assoc. simpl.
  rewrite lookup_app_r by lia.
  replace (length h0 + 1 + 1 - length h0)%nat with 2%nat by lia. simpl.
  rewrite insert_app_r_alt by lia.
  replace (length h0 + 1 + 1 - length h0)%nat with 2%nat by lia. simpl.
  rewrite length_app. simpl. rewrite <- app_assoc. simpl.
  by replace (length h0 + 1 + 1)%nat with (length h0 + 2)%nat by lia.
Qed.

(** A newly constructed registry is consistent: it has no names and no
    fields. *)
Lemma consistent_State_new_with pl mesh (h0 : Heap) :
  consistent (State_new_with pl mesh h0).2 (length h0 + 3).
Proof.
  rewrite State_new_with_eq. simpl. eexists. split; [|split].
  - rewrite lookup_app_r by lia.
    by replace (length h0 + 3 - length h0)%nat with 3%nat by lia.
  - simpl. intros name i Hi. by rewrite lookup_empty in Hi.
  - simpl. intros i p Hi. by rewrite lookup_nil in Hi.
Qed.

Lemma consistent_require_all cs h this :
  consistent h this → consistent (require_all this cs h).2 this.
Proof.
  revert h. induction cs as [|c cs IH]; intros h Hc; [done|].
  unfold require_all. simpl. unfold bind at 1.
  pose proof (consistent_require_field h this (r_name c) (r_location c)
                (r_owner c) (r_num_dofs c) Hc) as Hstep.
  fold (require this c) in Hstep.
  destruct (require this c h) as [[[]|e|] h1]; simpl in *; [|done|done].
  by apply IH.
Qed.

(** C1.  Take any sequence [cs] of [require_field] calls made on a newly
    constructed registry and run without a fatal error, and any further call
    [c].  Whenever a row of the arbitration table of spec section 4.2 applies
    to the owner and location recorded for [c]'s name, the call does what the
    row says: it creates the field with the requested owner, transfers
    ownership, leaves the owner (and the whole heap) as it is, or throws the
    location-conflict or the double-ownership error with the heap unchanged.
    The owner and location recorded under every other name stay the same. *)
Theorem require_field_arbitration pl mesh (h0 : Heap) cs this h c v :
  (do this <- State_new_with pl mesh; require_all this cs ;; ret this) h0
    = (Ok this, h) →
  arbitration (ownership h this (r_name c)) (r_owner c) (r_location c) v →
  follows v h this c (require this c h) ∧
  ∀ n, n ≠ r_name c → ownership (require this c h).2 this n = ownership h this n.
Proof.
  intros Hrun Hrow. apply require_follows_table; [|done].
  unfold bind at 1 in Hrun.
  pose proof (consistent_State_new_with pl mesh h0) as Hnew.
  rewrite State_new_with_eq in Hrun, Hnew. simpl in Hnew.
  unfold bind in Hrun.
  match type of Hrun with context [require_all ?t cs ?h1] =>
    pose proof (consistent_require_all cs h1 t Hnew) as Hall;
    destruct (require_all t cs h1) as [[[]|e|] h2] end; try done.
  unfold ret in Hrun. by injection Hrun as <- <-.
Qed.

(** C10.  A field owned by some [Y] other than "state" cannot be required
    again by [Y] itself: whatever the requested location, the call throws the
    double-ownership error (and changes nothing). *)
Theorem require_field_again_by_owner h this name Y l location num_dofs :
  consistent h this →
  ownership h this name = Some (Y, l) →
  Y ≠ "state" →
  require_field this name location Y num_dofs h
    = (Throw (DoubleOwnership name l), h).
Proof.
  intros Hc Hown HY. unfold ownership in Hown.
  destruct (field_record h this name) as [f|] eqn:Hrec; [|done].
  injection Hown as <- <-.
  destruct (field_record_inv _ _ _ _ Hrec) as (st & i & p & Hthis & Hname & Hp & Hf).
  rewrite (require_field_existing _ _ _ _ _ _ _ _ _ _ Hthis Hname Hp Hf).
  rewrite decide_False by done. by rewrite decide_False by done.
Qed.

(** ** The decidable invariant is the invariant *)

Lemma consistentb_sound (h : Heap) (this : loc) :
  consistentb h this = true → consistent h this.
Proof.
  unfold consistentb, state_at.
  destruct (h !! this) as [[| | | |st]|] eqn:Hthis; try done.
  intros [Hmap Hvec]%andb_prop.
  rewrite forallb_forall in Hmap. rewrite forallb_forall in Hvec.
  assert (∀ i p, fields_ st !! i = Some p →
            ∃ f, h !! p = Some (OField f) ∧ field_name_map_ st !! fieldname_ f = Some i)
    as Hvec'.
  { intros i p Hp.
    assert (In (i, p) (imap pair (fields_ st))) as Hin
      by (apply list_elem_of_In, elem_of_lookup_imap; eauto).
    specialize (Hvec (i, p) Hin). simpl in Hvec. unfold field_at in Hvec.
    destruct (h !! p) as [[| | |f|]|] eqn:Hf; try done.
    exists f. split; [done|]. by apply bool_decide_eq_true in Hvec. }
  exists st. split; [done|]. split.
  - intros name i Hi. specialize (Hmap (name, i)). simpl in Hmap.
    assert (In (name, i) (map_to_list (field_name_map_ st))) as Hin
      by (by apply list_elem_of_In, elem_of_map_to_list).
    specialize (Hmap Hin). unfold field_at in Hmap.
    destruct (fields_ st !! i) as [p|]; [|done].
    destruct (h !! p) as [[| | |f|]|] eqn:Hf; try done.
    exists p, f. split; [done|]. split; [done|].
    by apply bool_decide_eq_true in Hmap.
  - intros i p Hp. destruct (Hvec' i p Hp) as (f & Hf & Hname).
    exists (fieldname_ f). split; [done|].
    intros name' Hname'. specialize (Hmap (name', i)). simpl in Hmap.
    assert (In (name', i) (map_to_list (field_name_map_ st))) as Hin
      by (by apply list_elem_of_In, elem_of_map_to_list).
    specialize (Hmap Hin). rewrite Hp in Hmap. unfold field_at in Hmap.
    rewrite Hf in Hmap. symmetry. by apply bool_decide_eq_true in Hmap.
Qed.

(** ** Operations that keep names, maps and field vectors *)

Lemma obj_kept_refl o : obj_kept o o.
Proof. by destruct o. Qed.

Lemma obj_kept_trans o1 o2 o3 : obj_kept o1 o2 → obj_kept o2 o3 → obj_kept o1 o3.
Proof.
  destruct o1, o2; try done; destruct o3; try done; simpl.
  - intros [-> ->] [-> ->]. done.
  - intros (-> & -> & -> & -> & ->) (-> & -> & -> & -> & ->). done.
Qed.

Lemma kept_refl h : kept h h.
Proof. intros p o Hp. exists o. split; [done|apply obj_kept_refl]. Qed.

Lemma kept_trans h1 h2 h3 : kept h1 h2 → kept h2 h3 → kept h1 h3.
Proof.
  intros H12 H23 p o Hp.
  destruct (H12 p o Hp) as (o' & Hp' & Ho').
  destruct (H23 p o' Hp') as (o'' & Hp'' & Ho'').
  exists o''. split; [done|]. by eapply obj_kept_trans.
Qed.

Lemma kept_app (h ext : Heap) : kept h (h ++ ext).
Proof.
  intros p o Hp. exists o. split; [by apply lookup_app_l_Some|apply obj_kept_refl].
Qed.

Lemma kept_insert (h : Heap) (p : loc) o o' :
  h !! p = Some o → obj_kept o o' → kept h (<[p := o']> h).
Proof.
  intros Hp Ho q oq Hq. destruct (decide (q = p)) as [->|Hne].
  - exists o'. split; [apply list_lookup_insert_eq; by eapply lookup_lt_Some|].
    rewrite Hp in Hq. by injection Hq as <-.
  - exists oq. rewrite list_lookup_insert_ne by done. split; [done|apply obj_kept_refl].
Qed.


Lemma keeps_ret {A} (a : A) : keeps (ret a).
Proof. intros h. apply kept_refl. Qed.

Lemma keeps_throw {A} e : keeps (@throw A e).
Proof. intros h. apply kept_refl. Qed.

Lemma keeps_undefined {A} : keeps (@undefined A).
Proof. intros h. apply kept_refl. Qed.

Lemma keeps_lift {A} (r : Result A) : keeps (lift r).
Proof. intros h. apply kept_refl. Qed.

Lemma keeps_bind {A B} (m : M A) (k : A → M B) :
  keeps m → (∀ a, keeps (k a)) → keeps (bind m k).
Proof.
  intros Hm Hk h. unfold bind. specialize (Hm h).
  destruct (m h) as [[a|e|] h1]; simpl in *; [|done|done].
  eapply kept_trans; [done|]. apply Hk.
Qed.

Lemma keeps_new o : keeps (new o).
Proof. intros h. apply kept_app. Qed.

Lemma keeps_load_double p : keeps (load_double p).
Proof. intros h. unfold load_double. repeat case_match; apply kept_refl. Qed.
Lemma keeps_load_vector p : keeps (load_vector p).
Proof. intros h. unfold load_vector. repeat case_match; apply kept_refl. Qed.
Lemma keeps_load_multivector p : keeps (load_multivector p).
Proof. intros h. unfold load_multivector. repeat case_match; apply kept_refl. Qed.
Lemma keeps_load_Field p : keeps (load_Field p).
Proof. intros h. unfold load_Field. repeat case_match; apply kept_refl. Qed.
Lemma keeps_load_State p : keeps (load_State p).
Proof. intros h. unfold load_State. repeat case_match; apply kept_refl. Qed.

Lemma keeps_store_double p d : keeps (store_double p d).
Proof.
  intros h. unfold store_double.
  repeat case_match; simpl; try apply kept_refl. by eapply kept_insert.
Qed.
Lemma keeps_store_vector p v : keeps (store_vector p v).
Proof.
  intros h. unfold store_vector.
  repeat case_match; simpl; try apply kept_refl. by eapply kept_insert.
Qed.
Lemma keeps_store_multivector p mv : keeps (store_multivector p mv).
Proof.
  intros h. unfold store_multivector.
  repeat case_match; simpl; try apply kept_refl. by eapply kept_insert.
Qed.

Lemma keeps_Field_modify p g :
  (∀ f, fieldname_ (g f) = fieldname_ f ∧ data_ (g f) = data_ f) →
  keeps (Field_modify p g).
Proof.
  intros Hg h. unfold Field_modify, bind, load_Field, store_Field.
  repeat case_match; simplify_eq; simpl; try apply kept_refl.
  eapply kept_insert; [done|]. apply Hg.
Qed.

Lemma keeps_State_modify p g :
  (∀ st, obj_kept (OState st) (OState (g st))) →
  keeps (State_modify p g).
Proof.
  intros Hg h. unfold State_modify, bind, load_State, store_State.
  repeat case_match; simplify_eq; simpl; try apply kept_refl.
  eapply kept_insert; [done|]. apply Hg.
Qed.

Lemma keeps_forM_ {A} (l : list A) (body : A → M unit) :
  (∀ x, keeps (body x)) → keeps (forM_ l body).
Proof.
  intros Hb. induction l as [|x l IH]; simpl; [apply keeps_ret|].
  apply keeps_bind; [apply Hb|done].
Qed.

Lemma keeps_forM {A B} (l : list A) (body : A → M B) :
  (∀ x, keeps (body x)) → keeps (forM l body).
Proof.
  intros Hb. induction l as [|x l IH]; simpl; [apply keeps_ret|].
  apply keeps_bind; [apply Hb|]. intros y.
  apply keeps_bind; [done|]. intros ys. apply keeps_ret.
Qed.

Create HintDb keeps.
#[local] Hint Resolve keeps_ret keeps_throw keeps_undefined keeps_lift keeps_new
  keeps_load_double keeps_load_vector keeps_load_multivector keeps_load_Field
  keeps_load_State keeps_store_double keeps_store_vector keeps_store_multivector
  : keeps.

(** Decompose a computation along its binds and branches. *)
Ltac keeps_step :=
  match goal with
  | |- keeps (bind _ _) => apply keeps_bind; [|intros ?]
  | |- keeps (forM_ _ _) => apply keeps_forM_; intros ?
  | |- keeps (forM _ _) => apply keeps_forM; intros ?
  | |- keeps (Field_modify _ _) => apply keeps_Field_modify; by intros []
  | |- keeps (State_modify _ _) => apply keeps_State_modify; by intros []
  | |- keeps (if ?b then _ else _) => destruct b
  | |- keeps (match ?x with _ => _ end) => destruct x
  | |- keeps _ => solve [auto with keeps]
  end.

Lemma get_field_record_inv (h : Heap) (this : loc) name :
  (get_field_record this name h).2 = h ∧
  ∀ p, (get_field_record this name h).1 = Ok p →
       ∃ st, h !! this = Some (OState st) ∧ p ∈ fields_ st.
Proof.
  unfold get_field_record, bind, load_State, ret, throw, undefined.
  repeat case_match; simplify_eq; simpl; split; try done.
  intros p [= <-]. eexists. split; [done|]. by eapply list_elem_of_lookup_2.
Qed.


Lemma keeps_Field_write p upd : keeps (Field_write p upd).
Proof. unfold Field_write. repeat keeps_step. Qed.

Lemma keeps_get_field_record this name : keeps (get_field_record this name).
Proof. unfold get_field_record. repeat keeps_step. Qed.

#[local] Hint Resolve keeps_Field_write keeps_get_field_record : keeps.

Lemma keeps_run_setter this s : value_setter s → keeps (run_setter this s).
Proof.
  destruct s; simpl; try done; intros _;
    unfold set_field_pointer, set_field_multivector, set_field_epetra_vector,
      set_field_array, set_field_scalar, set_field_array_block,
      set_field_scalar_block, set_vector_field, set_subfield_names,
      set_density, set_viscosity, set_gravity_array, set_gravity_vector,
      Field_set_data_pointer, Field_set_data_multivector,
      Field_set_data_epetra_vector, Field_set_data_array, Field_set_data_scalar,
      Field_set_data_array_block, Field_set_data_scalar_block,
      Field_set_vector_data, Field_set_subfield_names;
    repeat keeps_step.
Qed.

Lemma keeps_initialize_global_field pl field : keeps (initialize_global_field pl field).
Proof.
  unfold initialize_global_field, Field_get_location, Field_get_subfield_names,
    Field_get_num_dofs, Field_get_owner, Field_set_data_array, Field_set_initialized.
  repeat keeps_step.
Qed.

Lemma keeps_initialize_block_field sub id field :
  keeps (initialize_block_field sub id field).
Proof.
  unfold initialize_block_field, Field_get_location, Field_get_subfield_names,
    Field_get_num_dofs, Field_get_owner, Field_get_fieldname,
    Field_set_data_array_block, Field_set_vector_data, Field_set_initialized.
  repeat keeps_step.
Qed.

#[local] Hint Resolve keeps_initialize_global_field keeps_initialize_block_field : keeps.


(** ** Assignment between registries with different field counts *)

Lemma State_assign_count_mismatch (h : Heap) (this s : loc) me src :
  h !! this = Some (OState me) →
  h !! s = Some (OState src) →
  length (fields_ me) ≠ length (fields_ src) →
  State_assign this s h = (Throw NonCompatibleStates, h).
Proof.
  intros Hthis Hs Hlen. unfold State_assign.
  rewrite (bind_Ok _ _ _ _ _ (load_State_eq _ _ _ Hthis)).
  rewrite (bind_Ok _ _ _ _ _ (load_State_eq _ _ _ Hs)).
  apply bind_Throw. by rewrite decide_True by done.
Qed.

(** C3.  Assigning to registry [this] from a registry [s] that has a
    different number of fields throws the incompatible-states error, and the
    heap at the throw is the heap before the call: no field, scalar, gravity
    component, time, cycle or name-map entry of [this] (or of anything else)
    has been written. *)
Theorem State_assign_incompatible (h : Heap) (this s : loc) me src :
  h !! this = Some (OState me) →
  h !! s = Some (OState src) →
  length (fields_ me) ≠ length (fields_ src) →
  State_assign this s h = (Throw NonCompatibleStates, h).
Proof.
  intros Hthis Hs Hlen. unfold State_assign.
  rewrite (bind_Ok _ _ _ _ _ (load_State_eq _ _ _ Hthis)).
  rewrite (bind_Ok _ _ _ _ _ (load_State_eq _ _ _ Hs)).
  (* the size test is the first statement; nothing has been written yet *)
  rewrite decide_True by done.
  by apply bind_Throw.
Qed.

(** ** The mutable accessor *)

(** C9.  [get_field(fieldname, pk_name)] on a registered field returns the
    field's buffer pointer and leaves the heap alone, whatever [pk_name] is:
    the requester is not compared with the recorded owner. *)
Theorem get_field_any_requester (h : Heap) (this : loc) st fieldname i pk_name :
  consistent h this →
  h !! this = Some (OState st) →
  field_name_map_ st !! fieldname = Some i →
  ∃ f, field_record h this fieldname = Some f ∧
       get_field this fieldname pk_name h = (Ok (data_ f), h).
Proof.
  intros (st' & Hst & Hmap & _) Hthis Hname.
  rewrite Hthis in Hst. injection Hst as <-.
  destruct (Hmap fieldname i Hname) as (p & f & Hp & Hf & _).
  exists f. split; [by eapply field_record_eq|].
  unfold get_field.
  rewrite (bind_Ok _ _ _ _ _ (get_field_record_eq _ _ _ _ _ _ Hthis Hname Hp)).
  unfold Field_get_data. by rewrite (bind_Ok _ _ _ _ _ (load_Field_eq _ _ _ Hf)).
Qed.

(** ** WeakMPC::advance *)

Lemma WeakMPC_advance_loop_all {W} (pks : list (PK W)) dt fail w log :
  all_succeed pks dt w = true →
  WeakMPC_advance_loop pks dt fail (w, log) =
    (match pks with [] => fail | _ => false end, (world_after pks dt w, log ++ pks)).
Proof.
  revert fail w log. induction pks as [|pk rest IH]; intros fail w log Hall; simpl.
  - by rewrite app_nil_r.
  - simpl in Hall. apply andb_prop in Hall as [Hpk Hrest].
    unfold invoke. simpl. destruct (pk_advance pk dt w) as [f w'] eqn:Hadv.
    simpl in *. destruct f; [done|].
    rewrite (IH false w' (log ++ [pk]) Hrest).
    rewrite <- app_assoc. simpl. by destruct rest.
Qed.

Lemma WeakMPC_advance_loop_first_failure {W} (pre : list (PK W)) p post dt fail w log :
  all_succeed pre dt w = true →
  (pk_advance p dt (world_after pre dt w)).1 = true →
  WeakMPC_advance_loop (pre ++ p :: post) dt fail (w, log) =
    (true, ((pk_advance p dt (world_after pre dt w)).2, log ++ pre ++ [p])).
Proof.
  revert fail w log. induction pre as [|pk pre IH]; intros fail w log Hall Hp; simpl.
  - unfold invoke. simpl in *. destruct (pk_advance p dt w) as [f w'].
    simpl in *. by subst f.
  - simpl in Hall. apply andb_prop in Hall as [Hpk Hrest].
    revert Hpk Hrest Hp. unfold invoke. simpl. destruct (pk_advance pk dt w) as [f w'] eqn:Hadv.
    simpl. intros Hpk Hrest Hp. destruct f; [done|].
    rewrite (IH false w' (log ++ [pk]) Hrest Hp).
    by rewrite <- app_assoc.
Qed.

(** Either every sub-PK succeeds in turn, or there is a first one that
    fails. *)
Lemma all_succeed_or_first_failure {W} (pks : list (PK W)) dt w :
  all_succeed pks dt w = true ∨
  ∃ pre p post, pks = pre ++ p :: post ∧ all_succeed pre dt w = true ∧
                (pk_advance p dt (world_after pre dt w)).1 = true.
Proof.
  revert w. induction pks as [|pk rest IH]; intros w; simpl; [by left|].
  destruct (pk_advance pk dt w) as [f w'] eqn:Hadv. simpl.
  destruct f; simpl.
  - right. exists [], pk, rest. simpl. by rewrite Hadv.
  - destruct (IH w') as [Hall|(pre & p & post & -> & Hpre & Hp)]; [by left|].
    right. exists (pk :: pre), p, post. simpl. by rewrite Hadv.
Qed.

(** C2.  [WeakMPC::advance(dt)] calls the sub-PKs in declared order.  If all
    of them report success it has called every one and returns success.  If
    [p] is the first to report failure, the calls made are those before [p]
    and [p] itself, nothing after [p] is called, and failure is returned; so
    for [P1; P2; P3] with [P2] failing the calls are [P1; P2].  One of the two
    cases always applies. *)
Theorem WeakMPC_advance_spec {W} (sub_pks : list (PK W)) dt w :
  (all_succeed sub_pks dt w = true →
     WeakMPC_advance sub_pks dt (w, []) = (false, (world_after sub_pks dt w, sub_pks))) ∧
  (∀ pre p post,
     sub_pks = pre ++ p :: post →
     all_succeed pre dt w = true →
     (pk_advance p dt (world_after pre dt w)).1 = true →
     WeakMPC_advance sub_pks dt (w, [])
       = (true, ((pk_advance p dt (world_after pre dt w)).2, pre ++ [p]))) ∧
  (∀ P1 P2 P3,
     sub_pks = [P1; P2; P3] →
     (pk_advance P1 dt w).1 = false →
     (pk_advance P2 dt (pk_advance P1 dt w).2).1 = true →
     (WeakMPC_advance sub_pks dt (w, [])).1 = true ∧
     (WeakMPC_advance sub_pks dt (w, [])).2.2 = [P1; P2]) ∧
  (all_succeed sub_pks dt w = true ∨
   ∃ pre p post, sub_pks = pre ++ p :: post ∧ all_succeed pre dt w = true ∧
                 (pk_advance p dt (world_after pre dt w)).1 = true).
Proof.
  unfold WeakMPC_advance. split_and!.
  - intros Hall. rewrite WeakMPC_advance_loop_all by done. by destruct sub_pks.
  - intros pre p post -> Hpre Hp.
    by rewrite WeakMPC_advance_loop_first_failure.
  - intros P1 P2 P3 -> H1 H2.
    rewrite (WeakMPC_advance_loop_first_failure [P1] P2 [P3]); [done| |done].
    simpl. by rewrite H1.
  - apply all_succeed_or_first_failure.
Qed.

(** ** Assignment and the invariant *)







(** ** Populated registries *)

Lemma populatedb_sound (h : Heap) (this : loc) :
  populatedb h this = true → populated h this.
Proof.
  unfold populatedb, state_at.
  destruct (h !! this) as [[| | | |st]|] eqn:Hthis; try done.
  intros [[[Hd Hv]%andb_prop Hg]%andb_prop Hf]%andb_prop.
  exists st. split; [done|].
  unfold is_double, is_vector in *. repeat split.
  - destruct (h !! density_ st) as [[]|]; try done. eauto.
  - destruct (h !! viscosity_ st) as [[]|]; try done. eauto.
  - destruct (h !! gravity_ st) as [[]|]; try done. eauto.
  - rewrite forallb_forall in Hf. apply Forall_forall. intros p Hp.
    apply list_elem_of_In, Hf in Hp. unfold has_buffer in Hp.
    destruct (h !! p) as [[| | |f|]|]; try done.
    destruct (h !! data_ f) as [[| |mv| |]|] eqn:Hmv; try done. eauto.
Qed.

(** ** Assignment between registries with equal field counts *)

Lemma layout_refl h : layout h h.
Proof. intros p o Hp. exists o. split; [done|by destruct o]. Qed.

Lemma layout_insert (h0 h : Heap) (p : loc) o o' :
  layout h0 h → h0 !! p = Some o → obj_layout o o' → layout h0 (<[p := o']> h).
Proof.
  intros Hl Hp Ho q oq Hq. destruct (Hl q oq Hq) as (oq' & Hq' & Hoq).
  destruct (decide (q = p)) as [->|Hne].
  - exists o'. split; [apply list_lookup_insert_eq; by eapply lookup_lt_Some|].
    rewrite Hp in Hq. by injection Hq as <-.
  - exists oq'. by rewrite list_lookup_insert_ne.
Qed.

Lemma succeeds_bind (I : Heap → Prop) {A B} (m : M A) (k : A → M B) :
  succeeds I m → (∀ a, succeeds I (k a)) → succeeds I (bind m k).
Proof.
  intros Hm Hk h HI. destruct (Hm h HI) as (a & h1 & Hrun & HI1).
  rewrite (bind_Ok _ _ _ _ _ Hrun). by apply Hk.
Qed.

Lemma succeeds_forM_ (I : Heap → Prop) {A} (l : list A) (body : A → M unit) :
  Forall (λ x, succeeds I (body x)) l → succeeds I (forM_ l body).
Proof.
  induction 1 as [|x l Hx _ IH]; simpl.
  - intros h HI. by exists (), h.
  - apply succeeds_bind; [done|]. by intros _.
Qed.

Section layout_steps.
Variable h0 : Heap.

Lemma succeeds_load_double p d :
  h0 !! p = Some (ODouble d) → succeeds (layout h0) (load_double p).
Proof.
  intros Hp h Hl. destruct (Hl p _ Hp) as ([d'| | | |] & Hp' & Ho); try done.
  exists d', h. by rewrite (load_double_eq _ _ _ Hp').
Qed.

Lemma succeeds_load_vector p v :
  h0 !! p = Some (OVector v) → succeeds (layout h0) (load_vector p).
Proof.
  intros Hp h Hl. destruct (Hl p _ Hp) as ([|v'| | |] & Hp' & Ho); try done.
  exists v', h. by rewrite (load_vector_eq _ _ _ Hp').
Qed.

Lemma succeeds_store_double p d d' :
  h0 !! p = Some (ODouble d) → succeeds (layout h0) (store_double p d').
Proof.
  intros Hp h Hl. destruct (Hl p _ Hp) as ([d1| | | |] & Hp' & Ho); try done.
  exists (), (<[p := ODouble d']> h). rewrite (store_double_eq _ _ _ _ Hp').
  split; [done|]. by eapply layout_insert.
Qed.

Lemma succeeds_store_vector p v v' :
  h0 !! p = Some (OVector v) → succeeds (layout h0) (store_vector p v').
Proof.
  intros Hp h Hl. destruct (Hl p _ Hp) as ([|v1| | |] & Hp' & Ho); try done.
  exists (), (<[p := OVector v']> h). rewrite (store_vector_eq _ _ _ _ Hp').
  split; [done|]. by eapply layout_insert.
Qed.

Lemma succeeds_State_modify p st g :
  h0 !! p = Some (OState st) → succeeds (layout h0) (State_modify p g).
Proof.
  intros Hp h Hl. destruct (Hl p _ Hp) as ([| | | |st1] & Hp' & Ho); try done.
  exists (), (<[p := OState (g st1)]> h). rewrite (State_modify_eq _ _ _ _ Hp').
  split; [done|]. by eapply layout_insert.
Qed.

Lemma succeeds_Field_assign dst src fd fs mvd mvs :
  h0 !! dst = Some (OField fd) → h0 !! data_ fd = Some (OMultiVector mvd) →
  h0 !! src = Some (OField fs) → h0 !! data_ fs = Some (OMultiVector mvs) →
  succeeds (layout h0) (Field_assign dst src).
Proof.
  intros Hd Hdd Hs Hsd h Hl.
  destruct (Hl dst _ Hd) as ([| | |fd'|] & Hd' & Ho1); try done. simpl in Ho1. subst fd'.
  destruct (Hl src _ Hs) as ([| | |fs'|] & Hs' & Ho2); try done. simpl in Ho2. subst fs'.
  destruct (Hl _ _ Hdd) as ([| |mvd'| |] & Hdd' & Ho3); try done.
  destruct (Hl _ _ Hsd) as ([| |mvs'| |] & Hsd' & Ho4); try done.
  unfold Field_assign.
  rewrite (bind_Ok _ _ _ _ _ (load_Field_eq _ _ _ Hs')).
  rewrite (bind_Ok _ _ _ _ _ (load_multivector_eq _ _ _ Hsd')).
  rewrite (bind_Ok _ _ _ _ _ (load_Field_eq _ _ _ Hd')).
  rewrite (store_multivector_eq _ _ _ _ Hdd').
  eexists _, _. split; [done|]. by eapply layout_insert.
Qed.
End layout_steps.

(** Between populated registries with the same number of fields the
    assignment runs to its end. *)
Lemma State_assign_equal_counts (h : Heap) (this s : loc) me src :
  populated h this → populated h s →
  h !! this = Some (OState me) →
  h !! s = Some (OState src) →
  length (fields_ me) = length (fields_ src) →
  (State_assign this s h).1 = Ok ().
Proof.
  intros (me' & Hme & [dm Hdm] & [vm Hvm] & [gm Hgm] & Hfm)
         (src' & Hsrc & [ds Hds] & [vs Hvs] & [gs Hgs] & Hfs) Hthis Hs Hlen.
  rewrite Hthis in Hme. injection Hme as <-.
  rewrite Hs in Hsrc. injection Hsrc as <-.
  unfold State_assign.
  rewrite (bind_Ok _ _ _ _ _ (load_State_eq _ _ _ Hthis)).
  rewrite (bind_Ok _ _ _ _ _ (load_State_eq _ _ _ Hs)).
  rewrite decide_False by (intros Hne; by apply Hne).
  rewrite (bind_Ok _ _ h () h) by done.
  destruct (decide (this ≠ s)); [|done].
  assert (succeeds (layout h)
    (State_modify this (with_mesh_maps (mesh_maps_ src)) ;;
     do d <- load_double (density_ src);
     store_double (density_ me) d ;;
     do v <- load_double (viscosity_ src);
     store_double (viscosity_ me) v ;;
     do g <- load_vector (gravity_ src);
     store_vector (gravity_ me) g ;;
     State_modify this (with_field_name_map (field_name_map_ src)) ;;
     forM_ (zip (fields_ me) (fields_ src)) (λ '(pt, ps), Field_assign pt ps) ;;
     State_modify this (with_clock (time_ src) (cycle_ src) (status_ src)))) as Hrun.
  { repeat match goal with
    | |- succeeds _ (State_modify _ _) => by eapply succeeds_State_modify
    | |- succeeds _ (load_double _) => by eapply succeeds_load_double
    | |- succeeds _ (load_vector _) => by eapply succeeds_load_vector
    | |- succeeds _ (store_double _ _) => by eapply succeeds_store_double
    | |- succeeds _ (store_vector _ _) => by eapply succeeds_store_vector
    | |- succeeds _ (bind _ _) => apply succeeds_bind; [|intros ?]
    end.
    apply succeeds_forM_, Forall_forall. intros [pt ps] Hin.
    apply elem_of_zip_l in Hin as Hpt. apply elem_of_zip_r in Hin as Hps.
    rewrite Forall_forall in Hfm, Hfs.
    destruct (Hfm pt Hpt) as (fd & mvd & ? & ?).
    destruct (Hfs ps Hps) as (fs & mvs & ? & ?).
    by eapply succeeds_Field_assign. }
  destruct (Hrun h (layout_refl h)) as ([] & h' & -> & _). done.
Qed.

Example two_registries_run : (two_registries []).1 = Ok (regA, regB).
Proof. vm_compute. reflexivity. Qed.

Example schemas_AB :
  schema heapAB regA = Some [("pressure", FIELD_LOCATION_CELL, 1%Z)] ∧
  schema heapAB regB = Some [("temperature", FIELD_LOCATION_CELL, 1%Z)].
Proof. vm_compute. done. Qed.

(** The claim that assignment between registries of different schema fails
    does not hold: [regA] and [regB] are consistent, populated registries
    with one field each, under different names, and assigning [regA] to
    [regB] returns normally. *)
Lemma State_assign_accepts_schema_mismatch :
  consistent heapAB regA ∧ consistent heapAB regB ∧
  populated heapAB regA ∧ populated heapAB regB ∧
  schema heapAB regB ≠ schema heapAB regA ∧
  (State_assign regB regA heapAB).1 = Ok ().
Proof.
  split_and!.
  - apply consistentb_sound. vm_compute. reflexivity.
  - apply consistentb_sound. vm_compute. reflexivity.
  - apply populatedb_sound. vm_compute. reflexivity.
  - apply populatedb_sound. vm_compute. reflexivity.
  - vm_compute. discriminate.
  - vm_compute. reflexivity.
Qed.

(** C4 (amended).  Assignment compares the number of fields; it does not
    compare their names.  Between populated registries it throws the
    incompatible-states error when the counts differ; when the fields are as
    many and agree position by position in location, number of dofs and
    shape of the buffer, it runs to its end, whatever the names of the
    fields and hence whatever their order. *)
Theorem State_assign_checks_count (h : Heap) (this s : loc) me src :
  populated h this → populated h s →
  h !! this = Some (OState me) →
  h !! s = Some (OState src) →
  (length (fields_ me) ≠ length (fields_ src) →
     State_assign this s h = (Throw NonCompatibleStates, h)) ∧
  (same_shaped h (fields_ me) (fields_ src) →
     (State_assign this s h).1 = Ok ()).
Proof.
  intros Hpt Hps Hthis Hs. split.
  - by apply State_assign_count_mismatch.
  - intros Hshape%Forall2_length. by eapply State_assign_equal_counts.
Qed.

(** ** Copy construction *)

Lemma Field_copy_eq (h : Heap) (p : loc) f mv :
  h !! p = Some (OField f) →
  h !! data_ f = Some (OMultiVector mv) →
  Field_copy p h =
    (Ok (S (length h)), h ++ [OMultiVector mv; OField (with_data (length h) f)]).
Proof.
  intros Hp Hd. unfold Field_copy.
  rewrite (bind_Ok _ _ _ _ _ (load_Field_eq _ _ _ Hp)).
  rewrite (bind_Ok _ _ _ _ _ (load_multivector_eq _ _ _ Hd)).
  unfold bind, new. rewrite length_app, <- app_assoc. simpl.
  by rewrite Nat.add_1_r.
Qed.

Lemma forM_Field_copy_spec (h : Heap) fs :
  Forall (λ p, ∃ f mv, h !! p = Some (OField f) ∧
                       h !! data_ f = Some (OMultiVector mv)) fs →
  ∀ e, ∃ ps ext,
    forM fs Field_copy (h ++ e) = (Ok ps, h ++ e ++ ext) ∧
    Forall2 (copy_of h (h ++ e ++ ext)) fs ps.
Proof.
  induction 1 as [|p fs (f & mv & Hp & Hd) _ IH]; intros e; simpl.
  - exists [], []. rewrite app_nil_r. by split.
  - rewrite (bind_Ok _ _ _ _ _
      (Field_copy_eq (h ++ e) p f mv (lookup_app_l_Some _ _ _ _ Hp)
                     (lookup_app_l_Some _ _ _ _ Hd))).
    rewrite <- app_assoc.
    destruct (IH (e ++ [OMultiVector mv; OField (with_data (length (h ++ e)) f)]))
      as (ps & ext & Hrun & Hall).
    rewrite (bind_Ok _ _ _ _ _ Hrun). unfold ret.
    exists (S (length (h ++ e)) :: ps),
           ([OMultiVector mv; OField (with_data (length (h ++ e)) f)] ++ ext).
    rewrite <- app_assoc in Hrun, Hall. split; [by rewrite <- app_assoc|].
    constructor; [|done].
    exists f, mv, (length (h ++ e)). rewrite length_app.
    split_and!; [done|done|lia|lia| |].
    + rewrite app_assoc. rewrite lookup_app_r by (rewrite length_app; lia).
      rewrite length_app.
      by replace (S (length h + length e) - (length h + length e))%nat with 1%nat by lia.
    + rewrite app_assoc. rewrite lookup_app_r by (rewrite length_app; lia).
      rewrite length_app. by rewrite Nat.sub_diag.
Qed.

(** The heap right before the fields are copied. *)
Lemma State_copy_prelude (h : Heap) (s : loc) st d v g :
  h !! s = Some (OState st) →
  h !! density_ st = Some (ODouble d) →
  h !! viscosity_ st = Some (ODouble v) →
  h !! gravity_ st = Some (OVector g) →
  State_copy s h =
    (do fields <- forM (fields_ st) Field_copy;
     new (OState (mkState (mesh_maps_ st) [] (length h) (length h + 1) (length h + 2)
                          (field_name_map_ st) fields
                          (time_ st) (cycle_ st) (status_ st))))
      (h ++ [ODouble d; ODouble v; OVector g]).
Proof.
  intros Hs Hd Hv Hg. unfold State_copy.
  rewrite (bind_Ok _ _ _ _ _ (load_State_eq _ _ _ Hs)).
  unfold new at 1 2 3. unfold bind at 1 2 3.
  rewrite !length_app. simpl. rewrite <- !app_assoc. simpl.
  set (h1 := h ++ [ODouble indeterminate; ODouble indeterminate; OVector []]).
  assert (store_vector (length h + 1 + 1) (replicate 3 0%float) h1
          = (Ok (), h ++ [ODouble indeterminate; ODouble indeterminate;
                          OVector (replicate 3 0%float)])) as E1.
  { unfold store_vector, h1. rewrite lookup_app_r by lia.
    replace (length h + 1 + 1 - length h)%nat with 2%nat by lia. simpl.
    rewrite insert_app_r_alt by lia.
    by replace (length h + 1 + 1 - length h)%nat with 2%nat by lia. }
  rewrite (bind_Ok _ _ _ _ _ E1).
  rewrite (bind_Ok _ _ _ _ _ (load_double_eq _ _ _ (lookup_app_l_Some _ _ _ _ Hd))).
  assert (∀ x y z x', store_double (length h) x' (h ++ [ODouble x; y; z])
          = (Ok (), h ++ [ODouble x'; y; z])) as E2.
  { intros. unfold store_double. rewrite lookup_app_r by lia.
    rewrite Nat.sub_diag. simpl. rewrite insert_app_r_alt by lia.
    by rewrite Nat.sub_diag. }
  rewrite (bind_Ok _ _ _ _ _ (E2 _ _ _ _)).
  rewrite (bind_Ok _ _ _ _ _ (load_double_eq _ _ _ (lookup_app_l_Some _ _ _ _ Hv))).
  assert (∀ x y z y', store_double (length h + 1) y' (h ++ [x; ODouble y; z])
          = (Ok (), h ++ [x; ODouble y'; z])) as E3.
  { intros. unfold store_double. rewrite lookup_app_r by lia.
    replace (length h + 1 - length h)%nat with 1%nat by lia. simpl.
    rewrite insert_app_r_alt by lia.
    by replace (length h + 1 - length h)%nat with 1%nat by lia. }
  rewrite (bind_Ok _ _ _ _ _ (E3 _ _ _ _)).
  rewrite (bind_Ok _ _ _ _ _ (load_vector_eq _ _ _ (lookup_app_l_Some _ _ _ _ Hg))).
  assert (∀ x y z z', store_vector (length h + 1 + 1) z' (h ++ [x; y; OVector z])
          = (Ok (), h ++ [x; y; OVector z'])) as E4.
  { intros. unfold store_vector. rewrite lookup_app_r by lia.
    replace (length h + 1 + 1 - length h)%nat with 2%nat by lia. simpl.
    rewrite insert_app_r_alt by lia.
    by replace (length h + 1 + 1 - length h)%nat with 2%nat by lia. }
  rewrite (bind_Ok _ _ _ _ _ (E4 _ _ _ _)).
  by replace (length h + 1 + 1)%nat with (length h + 2)%nat by lia.
Qed.

Lemma State_copy_copied (h : Heap) (s : loc) :
  populated h s → ∃ B h1, State_copy s h = (Ok B, h1) ∧ copied h s B h1.
Proof.
  intros (st & Hs & [d Hd] & [v Hv] & [g Hg] & Hfs).
  rewrite (State_copy_prelude _ _ _ _ _ _ Hs Hd Hv Hg).
  destruct (forM_Field_copy_spec h (fields_ st) Hfs [ODouble d; ODouble v; OVector g])
    as (ps & ext & Hrun & Hall).
  rewrite (bind_Ok _ _ _ _ _ Hrun). unfold new.
  eexists _, _. split; [done|].
  set (Bst := mkState _ _ _ _ _ _ _ _ _ _).
  exists st, Bst, (([ODouble d; ODouble v; OVector g] ++ ext) ++ [OState Bst]).
  split_and!; try done.
  - by rewrite !app_assoc.
  - rewrite length_app. lia.
  - by rewrite lookup_app_r, Nat.sub_diag.
  - eapply Forall2_impl; [done|].
    intros p q (f & mv & dd & ? & ? & ? & ? & Hq & Hdd).
    exists f, mv, dd. split_and!; try done; by apply lookup_app_l_Some.
  - simpl. lia.
  - simpl. lia.
Qed.


(** The copy holds, under every name, the values of the source. *)
Lemma field_values_copied (h : Heap) (s B : loc) h1 name :
  copied h s B h1 → field_values h1 B name = field_values h s name.
Proof.
  intros (st & Bst & ext & Hs & -> & HB & HBst & HBmap & Hall & _).
  unfold field_values, field_record, state_at. rewrite HBst, Hs. simpl.
  rewrite HBmap. destruct (field_name_map_ st !! name) as [i|]; [|done]. simpl.
  destruct (fields_ st !! i) as [p|] eqn:Hp.
  - destruct (Forall2_lookup_l _ _ _ _ _ Hall Hp)
      as (q & Hq & f & mv & d & Hf & Hmv & _ & _ & Hqf & Hd).
    rewrite Hq. simpl. unfold field_at, buffer_at.
    rewrite Hqf, Hf. simpl. by rewrite Hd, Hmv.
  - destruct (fields_ Bst !! i) as [q|] eqn:Hq; [|done].
    destruct (Forall2_lookup_r _ _ _ _ _ Hall Hq) as (p & Hp' & _). congruence.
Qed.

(** After the copy, what the source may write lies in the old heap and what
    the copy may write lies past it. *)
Lemma footprint_source_low (h : Heap) (s B : loc) h1 a :
  populated h s → copied h s B h1 → footprint h1 s a → (a < length h)%nat.
Proof.
  intros (st' & Hs' & [d Hd] & [v Hv] & [g Hg] & Hfs)
         (st & Bst & ext & Hs & -> & _) (st1 & Hs1 & Ha).
  rewrite Hs in Hs'. injection Hs' as <-.
  rewrite (lookup_app_l_Some _ _ _ _ Hs) in Hs1. injection Hs1 as <-.
  destruct Ha as [->|[->|[->|(p & f & Hp & Hf & Ha)]]];
    try (by eapply lookup_lt_Some).
  rewrite Forall_forall in Hfs. destruct (Hfs p Hp) as (f' & mv & Hf' & Hmv).
  rewrite (lookup_app_l_Some _ _ _ _ Hf') in Hf. injection Hf as <-.
  destruct Ha as [->| ->]; by eapply lookup_lt_Some.
Qed.

Lemma footprint_copy_high (h : Heap) (s B : loc) h1 a :
  copied h s B h1 → footprint h1 B a → (length h ≤ a)%nat.
Proof.
  intros (st & Bst & ext & Hs & -> & HB & HBst & HBmap & Hall & ? & ? & ?)
         (st1 & HB1 & Ha).
  rewrite HBst in HB1. injection HB1 as <-.
  destruct Ha as [->|[->|[->|(q & g & Hq & Hg & Ha)]]]; try done.
  apply list_elem_of_lookup in Hq as [i Hq].
  destruct (Forall2_lookup_r _ _ _ _ _ Hall Hq)
    as (p & Hp & f & mv & d & _ & _ & ? & ? & Hqf & _).
  rewrite Hqf in Hg. injection Hg as <-.
  by destruct Ha as [->| ->].
Qed.

(** ** What the setters write *)

Lemma field_local_Field_modify g : field_local (λ r, Field_modify r g).
Proof.
  intros r h a Ha. unfold Field_modify, bind, load_Field, store_Field.
  destruct (h !! r) as [[| | |f|]|] eqn:Hf; simpl; try done.
  rewrite Hf. simpl. destruct (Ha f eq_refl). by rewrite list_lookup_insert_ne.
Qed.

Lemma field_local_Field_write upd : field_local (λ r, Field_write r upd).
Proof.
  intros r h a Ha. unfold Field_write.
  destruct (h !! r) as [[| | |f|]|] eqn:Hf;
    try (by unfold bind, load_Field; rewrite Hf).
  destruct (Ha f eq_refl) as [Hr Hd].
  rewrite (bind_Ok _ _ _ _ _ (load_Field_eq _ _ _ Hf)).
  destruct (h !! data_ f) as [[| |mv| |]|] eqn:Hmv;
    try (by unfold bind, load_multivector; rewrite Hmv).
  rewrite (bind_Ok _ _ _ _ _ (load_multivector_eq _ _ _ Hmv)).
  destruct (upd f mv) as [mv'|]; [|done].
  rewrite (bind_Ok _ _ _ _ _ (store_multivector_eq _ _ _ _ Hmv)).
  assert (data_ f ≠ r) as Hne by (intros E; rewrite E in Hmv; congruence).
  erewrite Field_modify_eq by (by rewrite list_lookup_insert_ne).
  simpl. by rewrite !list_lookup_insert_ne.
Qed.

Lemma via_record_writes (h : Heap) (this : loc) name body (a : loc) :
  field_local body →
  ¬ footprint h this a →
  (bind (get_field_record this name) body h).2 !! a = h !! a.
Proof.
  intros Hbody Ha. unfold bind.
  destruct (get_field_record_inv h this name) as [Hh Hr].
  destruct (get_field_record this name h) as [[r|e|] h']; simpl in *; subst h';
    [|done|done].
  destruct (Hr r eq_refl) as (st & Hthis & Hin).
  apply Hbody. intros f Hf.
  split; intros ->; apply Ha; exists st; (split; [done|]);
    right; right; right; eauto 10.
Qed.

Lemma scalar_store_writes (h : Heap) (this : loc) (a : loc)
    (sel : State → loc) (m : State → M unit) :
  (∀ st h', (m st h').2 = h' ∨ ∃ o, (m st h').2 = <[sel st := o]> h') →
  (∀ st, h !! this = Some (OState st) → a ≠ sel st) →
  (bind (load_State this) m h).2 !! a = h !! a.
Proof.
  intros Hm Ha. unfold bind, load_State.
  destruct (h !! this) as [[| | | |st]|] eqn:Hthis; simpl; try done.
  destruct (Hm st h) as [->|[o ->]]; [done|].
  rewrite list_lookup_insert_ne; [done|]. by apply not_eq_sym, Ha.
Qed.

(** A setter of a registry writes inside the registry's footprint. *)
Lemma run_setter_writes (h : Heap) (this : loc) s (a : loc) :
  ¬ footprint h this a → (run_setter this s h).2 !! a = h !! a.
Proof.
  intros Ha.
  destruct s; simpl;
    try (apply via_record_writes;
         [first [apply field_local_Field_modify | apply field_local_Field_write]
         |done]).
  - (* set_density *)
    apply (scalar_store_writes h this a density_).
    + intros st h'. unfold store_double. repeat case_match; simpl; eauto.
    + intros st Hst ->. apply Ha. exists st. eauto.
  - (* set_viscosity *)
    apply (scalar_store_writes h this a viscosity_).
    + intros st h'. unfold store_double. repeat case_match; simpl; eauto.
    + intros st Hst ->. apply Ha. exists st. eauto.
  - (* set_gravity, array *)
    apply (scalar_store_writes h this a gravity_).
    + intros st h'. unfold bind, load_vector, store_vector, undefined.
      repeat case_match; simplify_eq; simpl; eauto.
    + intros st Hst ->. apply Ha. exists st. eauto 10.
  - (* set_gravity, vector *)
    apply (scalar_store_writes h this a gravity_).
    + intros st h'. unfold store_vector. repeat case_match; simpl; eauto.
    + intros st Hst ->. apply Ha. exists st. eauto 10.
Qed.

(** The values under a name are read inside the footprint (and from the
    registry object itself). *)
Lemma field_values_agree (h h' : Heap) (this : loc) name :
  h' !! this = h !! this →
  (∀ st p, h !! this = Some (OState st) → p ∈ fields_ st →
           ∃ f, h !! p = Some (OField f)) →
  (∀ a, footprint h this a → h' !! a = h !! a) →
  field_values h' this name = field_values h this name.
Proof.
  intros Hthis Hlive Hagree. unfold field_values, field_record, state_at.
  rewrite Hthis. destruct (h !! this) as [[| | | |st]|] eqn:Hst; try done. simpl.
  destruct (field_name_map_ st !! name) as [i|]; [|done]. simpl.
  destruct (fields_ st !! i) as [p|] eqn:Hp; [|done]. simpl.
  assert (p ∈ fields_ st) as Hin by (by eapply list_elem_of_lookup_2).
  destruct (Hlive st p eq_refl Hin) as [f Hf].
  assert (footprint h this p) as Hfp.
  { exists st. split; [done|]. right; right; right. eauto 10. }
  unfold field_at. rewrite (Hagree p Hfp), Hf. simpl.
  unfold buffer_at. rewrite Hagree; [done|].
  exists st. split; [done|]. right; right; right. eauto 10.
Qed.

(** ** Value independence after copy *)

Lemma copied_source_kept (h : Heap) (s B : loc) h1 :
  populated h s → copied h s B h1 →
  (s < length h)%nat ∧
  (∀ a, (a < length h)%nat → h1 !! a = h !! a) ∧
  (∀ st p, h1 !! s = Some (OState st) → p ∈ fields_ st →
           ∃ f, h1 !! p = Some (OField f)).
Proof.
  intros (st' & Hs' & _ & _ & _ & Hfs) (st & Bst & ext & Hs & -> & _).
  rewrite Hs in Hs'. injection Hs' as <-.
  split_and!.
  - by eapply lookup_lt_Some.
  - intros a Ha. by apply lookup_app_l.
  - intros st1 p Hs1 Hp.
    rewrite (lookup_app_l_Some _ _ _ _ Hs) in Hs1. injection Hs1 as <-.
    rewrite Forall_forall in Hfs. destruct (Hfs p Hp) as (f & mv & Hf & _).
    exists f. by apply lookup_app_l_Some.
Qed.

Lemma copied_fields_live (h : Heap) (s B : loc) h1 :
  copied h s B h1 →
  ∀ st q, h1 !! B = Some (OState st) → q ∈ fields_ st → ∃ g, h1 !! q = Some (OField g).
Proof.
  intros (st & Bst & ext & Hs & -> & HB & HBst & HBmap & Hall & _) st1 q HB1 Hq.
  rewrite HBst in HB1. injection HB1 as <-.
  apply list_elem_of_lookup in Hq as [i Hq].
  destruct (Forall2_lookup_r _ _ _ _ _ Hall Hq)
    as (p & Hp & f & mv & d & _ & _ & _ & _ & Hqf & _).
  eauto.
Qed.

(** What a registry may write does not grow while names, maps, field
    vectors and pointers are kept. *)
Lemma footprint_kept (h h' : Heap) (this : loc) (a : loc) :
  fields_live h this → kept h h' → footprint h' this a → footprint h this a.
Proof.
  intros (st & Hthis & Hlive) Hk (st' & Hthis' & Ha).
  destruct (Hk this _ Hthis) as ([| | | |st''] & Hthis'' & Hst); try done.
  rewrite Hthis' in Hthis''. injection Hthis'' as <-.
  destruct Hst as (_ & Hf & Hd & Hv & Hg).
  exists st. split; [done|]. rewrite Hd, Hv, Hg in Ha.
  destruct Ha as [->|[->|[->|(p & f' & Hp & Hf' & Ha)]]]; auto.
  right; right; right. rewrite Hf in Hp.
  destruct (Hlive p Hp) as [f Hpf].
  destruct (Hk p _ Hpf) as ([| | |g|] & Hg' & Hfg); try done.
  rewrite Hf' in Hg'. injection Hg' as <-. destruct Hfg as [_ Hdata].
  exists p, f. rewrite <- Hdata. done.
Qed.

(** A sequence of value setters on a registry writes inside what the
    registry could write at the start. *)
Lemma run_setters_within (P : loc → Prop) (h : Heap) (this : loc) ss :
  fields_live h this →
  (∀ a, footprint h this a → P a) →
  Forall value_setter ss →
  ∀ hk : Heap,
    kept h hk → (∀ a, ¬ P a → hk !! a = h !! a) →
    kept h (run_setters this ss hk).2 ∧
    ∀ a, ¬ P a → (run_setters this ss hk).2 !! a = h !! a.
Proof.
  intros Hlive HP. induction 1 as [|s ss Hs _ IH]; intros hk Hk Hout; [done|].
  unfold run_setters. simpl. unfold bind.
  assert (kept h (run_setter this s hk).2 ∧
          ∀ a, ¬ P a → (run_setter this s hk).2 !! a = h !! a) as [Hk1 Hout1].
  { split.
    - eapply kept_trans; [done|]. by apply keeps_run_setter.
    - intros a Ha. rewrite run_setter_writes; [by apply Hout|].
      intros Hfp. apply Ha, HP. by eapply footprint_kept. }
  destruct (run_setter this s hk) as [[[]|e|] hk1]; simpl in *; [|done|done].
  by apply IH.
Qed.

Lemma populated_fields_live (h : Heap) (this : loc) :
  populated h this → fields_live h this.
Proof.
  intros (st & Hthis & _ & _ & _ & Hfs). exists st. split; [done|].
  intros p Hp. rewrite Forall_forall in Hfs.
  destruct (Hfs p Hp) as (f & _ & Hf & _). eauto.
Qed.

(** C7.  Copy-constructing [B] from a populated registry [A] succeeds and
    gives [B] the values of [A] under every name.  After that, no setter
    called on [A], nor any sequence of value setters called on [A], changes
    the values [B] holds under any name; and the same with [A] and [B]
    exchanged. *)
Theorem copy_value_independent (h : Heap) (A : loc) :
  populated h A →
  ∃ B h1,
    State_copy A h = (Ok B, h1) ∧
    (∀ name, field_values h1 B name = field_values h A name) ∧
    (∀ s name,
       field_values (run_setter A s h1).2 B name = field_values h1 B name) ∧
    (∀ s name,
       field_values (run_setter B s h1).2 A name = field_values h1 A name) ∧
    (∀ ss name, Forall value_setter ss →
       field_values (run_setters A ss h1).2 B name = field_values h1 B name) ∧
    (∀ ss name, Forall value_setter ss →
       field_values (run_setters B ss h1).2 A name = field_values h1 A name).
Proof.
  intros Hpop. destruct (State_copy_copied h A Hpop) as (B & h1 & Hrun & Hcp).
  exists B, h1. split; [done|].
  destruct (copied_source_kept h A B h1 Hpop Hcp) as (HA & Hlow & HliveA).
  pose proof (copied_fields_live h A B h1 Hcp) as HliveB.
  assert (length h ≤ B)%nat as HB by (by destruct Hcp as (? & ? & ? & ? & ? & ? & _)).
  assert (fields_live h1 A) as HlA.
  { destruct (populated_fields_live h A Hpop) as (st & Hst & Hl).
    pose proof Hcp as (? & ? & ext & _ & -> & _).
    exists st. split; [by apply lookup_app_l_Some|].
    intros p Hp. destruct (Hl p Hp) as [f Hf]. exists f. by apply lookup_app_l_Some. }
  assert (fields_live h1 B) as HlB.
  { pose proof Hcp as (? & Bst & ? & _ & _ & _ & HBst & _).
    exists Bst. split; [done|]. intros q Hq. by eapply HliveB. }
  split_and!.
  - intros name. by apply field_values_copied.
  - intros s name. apply field_values_agree; [|done|].
    + apply run_setter_writes. intros Hfp.
      pose proof (footprint_source_low h A B h1 B Hpop Hcp Hfp). lia.
    + intros a Ha. apply run_setter_writes. intros Hfp.
      pose proof (footprint_source_low h A B h1 a Hpop Hcp Hfp).
      pose proof (footprint_copy_high h A B h1 a Hcp Ha). lia.
  - intros s name. apply field_values_agree; [|done|].
    + apply run_setter_writes. intros Hfp.
      pose proof (footprint_copy_high h A B h1 A Hcp Hfp). lia.
    + intros a Ha. apply run_setter_writes. intros Hfp.
      pose proof (footprint_source_low h A B h1 a Hpop Hcp Ha).
      pose proof (footprint_copy_high h A B h1 a Hcp Hfp). lia.
  - intros ss name Hss.
    destruct (run_setters_within (λ a, a < length h)%nat h1 A ss HlA
                (λ a, footprint_source_low h A B h1 a Hpop Hcp) Hss h1
                (kept_refl h1) (λ _ _, eq_refl)) as [_ Hout].
    apply field_values_agree; [|done|].
    + apply Hout. lia.
    + intros a Ha. apply Hout.
      pose proof (footprint_copy_high h A B h1 a Hcp Ha). lia.
  - intros ss name Hss.
    destruct (run_setters_within (λ a, length h ≤ a)%nat h1 B ss HlB
                (λ a, footprint_copy_high h A B h1 a Hcp) Hss h1
                (kept_refl h1) (λ _ _, eq_refl)) as [_ Hout].
    apply field_values_agree; [|done|].
    + apply Hout. lia.
    + intros a Ha. apply Hout.
      pose proof (footprint_source_low h A B h1 a Hpop Hcp Ha). lia.
Qed.

(** ** Every operation and the invariant *)

Lemma consistentb_complete (h : Heap) (this : loc) :
  consistent h this → consistentb h this = true.
Proof.
  intros Hc. pose proof Hc as (st & Hthis & Hmap & Hvec).
  unfold consistentb, state_at. rewrite Hthis.
  apply andb_true_intro. split; apply forallb_forall.
  - intros [name i] Hin%list_elem_of_In%elem_of_map_to_list. simpl.
    destruct (Hmap name i Hin) as (p & f & -> & Hf & Hn).
    unfold field_at. rewrite Hf. by apply bool_decide_eq_true.
  - intros [i p] Hin%list_elem_of_In%elem_of_lookup_imap. simpl.
    destruct Hin as (i' & p' & [= <- <-] & Hp).
    destruct (consistent_field _ _ _ _ _ Hc Hthis Hp) as (f & Hf & Hn).
    unfold field_at. rewrite Hf. by apply bool_decide_eq_true.
Qed.








(** ** Constant-value initialization *)

Lemma read_constants_missing pl names n :
  n ∈ names → isParameter ("Constant " +:+ n) pl = false →
  ∀ u, read_constants pl names ≠ Ok (Some u).
Proof.
  induction names as [|m names IH]; intros Hin Hn u; [by apply elem_of_nil in Hin|].
  simpl. apply elem_of_cons in Hin as [<-|Hin].
  - by rewrite Hn.
  - destruct (isParameter ("Constant " +:+ m) pl); [|done].
    destruct (get_double ("Constant " +:+ m) pl); try done.
    specialize (IH Hin Hn).
    destruct (read_constants pl names) as [[u'|]|e|]; try done.
    by destruct (IH u').
Qed.

Lemma read_constants_found pl names u :
  Forall2 (λ n d, PL_find ("Constant " +:+ n) pl = Some (PDouble d)) names u →
  read_constants pl names = Ok (Some u).
Proof.
  induction 1 as [|n d names u Hn _ IH]; simpl; [done|].
  unfold isParameter, get_double. by rewrite Hn, IH.
Qed.

(** Writing a buffer and then setting the latch, as both passes do on a
    field whose values were all found. *)
Lemma write_and_latch (h : Heap) (q : loc) g mv mv' upd :
  h !! q = Some (OField g) →
  h !! data_ g = Some (OMultiVector mv) →
  upd g mv = Some mv' →
  (Field_write q upd ;; Field_set_initialized q) h =
    (Ok (), <[q := OField (with_initialized (with_dirty g))]>
              (<[data_ g := OMultiVector mv']> h)).
Proof.
  intros Hq Hmv Hupd.
  assert (data_ g ≠ q) as Hne by (intros E; rewrite E in Hmv; congruence).
  assert (Field_write q upd h =
            (Ok (), <[q := OField (with_dirty g)]> (<[data_ g := OMultiVector mv']> h)))
    as Hw.
  { unfold Field_write.
    rewrite (bind_Ok _ _ _ _ _ (load_Field_eq _ _ _ Hq)).
    rewrite (bind_Ok _ _ _ _ _ (load_multivector_eq _ _ _ Hmv)). rewrite Hupd.
    rewrite (bind_Ok _ _ _ _ _ (store_multivector_eq _ _ _ _ Hmv)).
    by erewrite Field_modify_eq by (by rewrite list_lookup_insert_ne). }
  rewrite (bind_Ok _ _ _ _ _ Hw).
  unfold Field_set_initialized.
  erewrite Field_modify_eq
    by (apply list_lookup_insert_eq; rewrite length_insert; by eapply lookup_lt_Some).
  by rewrite list_insert_insert_eq.
Qed.

Lemma write_and_latch_effect (h : Heap) (q : loc) upd :
  field_effect q h ((Field_write q upd ;; Field_set_initialized q) h).2.
Proof.
  destruct (h !! q) as [[| | |g|]|] eqn:Hq;
    try (left; by unfold Field_write, bind, load_Field; rewrite Hq).
  destruct (h !! data_ g) as [[| |mv| |]|] eqn:Hmv;
    try (left; unfold Field_write, bind at 1 2 3, load_Field; rewrite Hq;
         by unfold load_multivector; rewrite Hmv).
  destruct (upd g mv) as [mv'|] eqn:Hupd.
  - rewrite (write_and_latch _ _ _ _ _ _ Hq Hmv Hupd). right.
    by exists g, (with_initialized (with_dirty g)), mv, mv'.
  - left. unfold Field_write, bind at 1 2 3, load_Field. rewrite Hq.
    unfold load_multivector. by rewrite Hmv, Hupd.
Qed.

Lemma initialize_global_field_effect pl (q : loc) (h : Heap) :
  field_effect q h (initialize_global_field pl q h).2.
Proof.
  unfold initialize_global_field.
  destruct (h !! q) as [[| | |g|]|] eqn:Hq;
    try (left; by unfold Field_get_location, bind, load_Field; rewrite Hq).
  unfold Field_get_location, Field_get_subfield_names, Field_get_num_dofs,
    Field_get_owner.
  rewrite (bind_Ok _ _ h (location_ g) h)
    by (by rewrite (bind_Ok _ _ _ _ _ (load_Field_eq _ _ _ Hq))).
  case_decide; [|by left].
  rewrite (bind_Ok _ _ h (subfield_names_ g) h)
    by (by rewrite (bind_Ok _ _ _ _ _ (load_Field_eq _ _ _ Hq))).
  rewrite (bind_Ok _ _ h (num_dofs_ g) h)
    by (by rewrite (bind_Ok _ _ _ _ _ (load_Field_eq _ _ _ Hq))).
  case_decide; [|by left].
  unfold lift, bind at 1.
  destruct (read_constants pl (subfield_names_ g)) as [[u|]|e|]; try by left.
  rewrite (bind_Ok _ _ h (owner_ g) h)
    by (by rewrite (bind_Ok _ _ _ _ _ (load_Field_eq _ _ _ Hq))).
  apply write_and_latch_effect.
Qed.

Lemma initialize_block_field_effect sub id (q : loc) (h : Heap) :
  field_effect q h (initialize_block_field sub id q h).2.
Proof.
  unfold initialize_block_field.
  destruct (h !! q) as [[| | |g|]|] eqn:Hq;
    try (left; by unfold Field_get_location, bind, load_Field; rewrite Hq).
  unfold Field_get_location, Field_get_subfield_names, Field_get_num_dofs,
    Field_get_owner, Field_get_fieldname.
  rewrite (bind_Ok _ _ h (location_ g) h)
    by (by rewrite (bind_Ok _ _ _ _ _ (load_Field_eq _ _ _ Hq))).
  case_decide.
  - rewrite (bind_Ok _ _ h (subfield_names_ g) h)
      by (by rewrite (bind_Ok _ _ _ _ _ (load_Field_eq _ _ _ Hq))).
    rewrite (bind_Ok _ _ h (num_dofs_ g) h)
      by (by rewrite (bind_Ok _ _ _ _ _ (load_Field_eq _ _ _ Hq))).
    case_decide; [|by left].
    unfold lift, bind at 1.
    destruct (read_constants sub (subfield_names_ g)) as [[u|]|e|]; try by left.
    rewrite (bind_Ok _ _ h (owner_ g) h)
      by (by rewrite (bind_Ok _ _ _ _ _ (load_Field_eq _ _ _ Hq))).
    apply write_and_latch_effect.
  - case_decide; [|by left].
    rewrite (bind_Ok _ _ h (num_dofs_ g) h)
      by (by rewrite (bind_Ok _ _ _ _ _ (load_Field_eq _ _ _ Hq))).
    case_decide; [|by left].
    rewrite (bind_Ok _ _ h (fieldname_ g) h)
      by (by rewrite (bind_Ok _ _ _ _ _ (load_Field_eq _ _ _ Hq))).
    destruct (isParameter _ sub); [|by left].
    unfold lift. unfold bind at 1.
    destruct (get_double _ sub) as [u0|e|]; try by left.
    unfold bind at 1.
    destruct (get_double _ sub) as [u1|e|]; try by left.
    unfold bind at 1.
    destruct (get_double _ sub) as [u2|e|]; try by left.
    rewrite (bind_Ok _ _ h (owner_ g) h)
      by (by rewrite (bind_Ok _ _ _ _ _ (load_Field_eq _ _ _ Hq))).
    apply write_and_latch_effect.
Qed.

(** A field with a missing value is passed over: the step changes nothing. *)
Lemma initialize_global_field_missing pl (p : loc) f (h : Heap) :
  h !! p = Some (OField f) → value_missing pl f →
  (initialize_global_field pl p h).2 = h.
Proof.
  intros Hp (n & Hin & Hn). unfold initialize_global_field.
  unfold Field_get_location, Field_get_subfield_names, Field_get_num_dofs.
  rewrite (bind_Ok _ _ h (location_ f) h)
    by (by rewrite (bind_Ok _ _ _ _ _ (load_Field_eq _ _ _ Hp))).
  case_decide; [|done].
  rewrite (bind_Ok _ _ h (subfield_names_ f) h)
    by (by rewrite (bind_Ok _ _ _ _ _ (load_Field_eq _ _ _ Hp))).
  rewrite (bind_Ok _ _ h (num_dofs_ f) h)
    by (by rewrite (bind_Ok _ _ _ _ _ (load_Field_eq _ _ _ Hp))).
  case_decide; [|done].
  unfold lift, bind at 1.
  pose proof (read_constants_missing pl _ n Hin Hn) as Hno.
  destruct (read_constants pl (subfield_names_ f)) as [[u|]|e|]; try done.
  by destruct (Hno u).
Qed.

Lemma initialize_block_field_missing sub id (p : loc) f (h : Heap) :
  h !! p = Some (OField f) → location_ f = FIELD_LOCATION_CELL →
  value_missing sub f →
  (initialize_block_field sub id p h).2 = h.
Proof.
  intros Hp Hcell (n & Hin & Hn). unfold initialize_block_field.
  unfold Field_get_location, Field_get_subfield_names, Field_get_num_dofs.
  rewrite (bind_Ok _ _ h (location_ f) h)
    by (by rewrite (bind_Ok _ _ _ _ _ (load_Field_eq _ _ _ Hp))).
  rewrite decide_True by done.
  rewrite (bind_Ok _ _ h (subfield_names_ f) h)
    by (by rewrite (bind_Ok _ _ _ _ _ (load_Field_eq _ _ _ Hp))).
  rewrite (bind_Ok _ _ h (num_dofs_ f) h)
    by (by rewrite (bind_Ok _ _ _ _ _ (load_Field_eq _ _ _ Hp))).
  case_decide; [|done].
  unfold lift, bind at 1.
  pose proof (read_constants_missing sub _ n Hin Hn) as Hno.
  destruct (read_constants sub (subfield_names_ f)) as [[u|]|e|]; try done.
  by destruct (Hno u).
Qed.

(** A pass whose step for [p] changes nothing, and whose steps for the other
    fields stay on their own field and buffer, leaves [p] and its buffer as
    they are. *)
Lemma pass_leaves_field (body : loc → M unit) (p : loc) f mv fields :
  (∀ q h, field_effect q h (body q h).2) →
  (∀ h, h !! p = Some (OField f) → (body p h).2 = h) →
  ∀ h : Heap,
    h !! p = Some (OField f) →
    h !! data_ f = Some (OMultiVector mv) →
    private_buffer h fields p f →
    (forM_ fields body h).2 !! p = Some (OField f) ∧
    (forM_ fields body h).2 !! data_ f = Some (OMultiVector mv).
Proof.
  intros Heff Hid. induction fields as [|q fields IH]; intros h Hp Hmv Hpriv; [done|].
  simpl. unfold bind.
  assert ((body q h).2 !! p = Some (OField f) ∧
          (body q h).2 !! data_ f = Some (OMultiVector mv) ∧
          private_buffer (body q h).2 fields p f) as (Hp1 & Hmv1 & Hpriv1).
  { destruct (decide (q = p)) as [->|Hqp].
    - rewrite (Hid h Hp). split_and!; [done|done|].
      intros q' g Hq'. apply Hpriv. by right.
    - destruct (Heff q h) as [->|(g & g' & mvq & mvq' & Hq & Hmvq & Hdata & ->)].
      + split_and!; [done|done|]. intros q' g Hq'. apply Hpriv. by right.
      + assert (data_ g ≠ data_ f) as Hd by (apply (Hpriv q g); [by left|done|done]).
        assert (data_ g ≠ p) as Hgp by (intros E; rewrite E in Hmvq; congruence).
        assert (data_ f ≠ q) as Hfq by (intros E; rewrite E in Hmv; congruence).
        assert (data_ g ≠ q) as Hgq by (intros E; rewrite E in Hmvq; congruence).
        split_and!.
        * by rewrite !list_lookup_insert_ne.
        * by rewrite !list_lookup_insert_ne.
        * intros q' g'' Hq' Hq'p Hg''.
          destruct (decide (q' = q)) as [->|Hne].
          -- rewrite list_lookup_insert_eq in Hg''
               by (rewrite length_insert; by eapply lookup_lt_Some).
             injection Hg'' as <-. congruence.
          -- rewrite list_lookup_insert_ne in Hg'' by done.
             destruct (decide (q' = data_ g)) as [->|Hne'].
             ++ rewrite list_lookup_insert_eq in Hg'' by (by eapply lookup_lt_Some).
                done.
             ++ rewrite list_lookup_insert_ne in Hg'' by done.
                apply (Hpriv q' g''); [by right|done|done]. }
  destruct (body q h) as [[[]|e|] h1]; simpl in *; [|done|done].
  by apply IH.
Qed.

Lemma missing_or_all_present pl f :
  value_missing pl f ∨
  ∀ n, n ∈ subfield_names_ f → isParameter ("Constant " +:+ n) pl = true.
Proof.
  unfold value_missing.
  induction (subfield_names_ f) as [|m names IH].
  - right. intros n Hn. by apply elem_of_nil in Hn.
  - destruct (isParameter ("Constant " +:+ m) pl) eqn:Hm.
    + destruct IH as [(n & Hin & Hn)|Hall].
      * left. exists n. split; [by right|done].
      * right. intros n [->|Hin]%elem_of_cons; [done|by apply Hall].
    + left. exists m. split; [by left|done].
Qed.

(** The global pass and a block pass, for a named cell field whose buffer
    no other field of the list shares. *)
Lemma global_pass_missing pl fields (h : Heap) (p : loc) f mv :
  h !! p = Some (OField f) → h !! data_ f = Some (OMultiVector mv) →
  private_buffer h fields p f → value_missing pl f →
  (global_pass pl fields h).2 !! p = Some (OField f) ∧
  (global_pass pl fields h).2 !! data_ f = Some (OMultiVector mv).
Proof.
  intros Hp Hmv Hpriv Hmiss. unfold global_pass.
  apply pass_leaves_field; try done.
  - apply initialize_global_field_effect.
  - intros h' Hp'. by eapply initialize_global_field_missing.
Qed.

Lemma block_pass_missing sub id fields (h : Heap) (p : loc) f mv :
  h !! p = Some (OField f) → h !! data_ f = Some (OMultiVector mv) →
  location_ f = FIELD_LOCATION_CELL →
  private_buffer h fields p f → value_missing sub f →
  (block_pass sub id fields h).2 !! p = Some (OField f) ∧
  (block_pass sub id fields h).2 !! data_ f = Some (OMultiVector mv).
Proof.
  intros Hp Hmv Hcell Hpriv Hmiss. unfold block_pass.
  apply pass_leaves_field; try done.
  - apply initialize_block_field_effect.
  - intros h' Hp'. by eapply initialize_block_field_missing.
Qed.

(** With a value for every subfield name, the step assigns the buffer, one
    constant per dof, and sets the latch. *)
Lemma initialize_global_field_found pl (p : loc) f mv u (h : Heap) :
  h !! p = Some (OField f) → h !! data_ f = Some (OMultiVector mv) →
  named_cell_field f →
  Forall2 (λ n d, PL_find ("Constant " +:+ n) pl = Some (PDouble d))
          (subfield_names_ f) u →
  length mv = length u →
  initialize_global_field pl p h =
    (Ok (), <[p := OField (with_initialized (with_dirty f))]>
              (<[data_ f := OMultiVector
                              (zip_with (λ d v, replicate (length v) d) u mv)]> h)).
Proof.
  intros Hp Hmv [Hcell Hdofs] Hall Hlen. unfold initialize_global_field.
  unfold Field_get_location, Field_get_subfield_names, Field_get_num_dofs,
    Field_get_owner.
  rewrite (bind_Ok _ _ h (location_ f) h)
    by (by rewrite (bind_Ok _ _ _ _ _ (load_Field_eq _ _ _ Hp))).
  rewrite decide_True by done.
  rewrite (bind_Ok _ _ h (subfield_names_ f) h)
    by (by rewrite (bind_Ok _ _ _ _ _ (load_Field_eq _ _ _ Hp))).
  rewrite (bind_Ok _ _ h (num_dofs_ f) h)
    by (by rewrite (bind_Ok _ _ _ _ _ (load_Field_eq _ _ _ Hp))).
  rewrite decide_True by done.
  unfold lift, bind at 1. rewrite (read_constants_found _ _ _ Hall).
  rewrite (bind_Ok _ _ h (owner_ f) h)
    by (by rewrite (bind_Ok _ _ _ _ _ (load_Field_eq _ _ _ Hp))).
  unfold Field_set_data_array.
  apply (write_and_latch h p f mv); [done|done|].
  clear -Hlen. revert u Hlen. induction mv as [|v mv IH]; intros [|d u] Hlen; try done.
  simpl. rewrite IH by (simpl in Hlen; lia). done.
Qed.

(** C5.  Constant-value initialization is all-or-nothing per field.  Take a
    cell field [p] whose subfield names are as many as its dofs and whose
    buffer no other field of the pass shares.  In the global pass, and in a
    block pass alike: if the pass's parameter list lacks "Constant <name>"
    for some subfield name, the pass leaves the field object (so also its
    initialized latch) and every value of its buffer as they were; hence
    the field or its buffer is changed by the pass only if every subfield
    name has a value.  And when every name has a value, the step for the
    field assigns each dof its constant on every entity and sets the
    latch. *)
Theorem constant_initialization_all_or_nothing
    pl sub id fields (h : Heap) (p : loc) f mv :
  h !! p = Some (OField f) →
  h !! data_ f = Some (OMultiVector mv) →
  named_cell_field f →
  private_buffer h fields p f →
  (value_missing pl f →
     (global_pass pl fields h).2 !! p = Some (OField f) ∧
     (global_pass pl fields h).2 !! data_ f = Some (OMultiVector mv)) ∧
  ((global_pass pl fields h).2 !! p ≠ Some (OField f) ∨
   (global_pass pl fields h).2 !! data_ f ≠ Some (OMultiVector mv) →
     ∀ n, n ∈ subfield_names_ f → isParameter ("Constant " +:+ n) pl = true) ∧
  (value_missing sub f →
     (block_pass sub id fields h).2 !! p = Some (OField f) ∧
     (block_pass sub id fields h).2 !! data_ f = Some (OMultiVector mv)) ∧
  ((block_pass sub id fields h).2 !! p ≠ Some (OField f) ∨
   (block_pass sub id fields h).2 !! data_ f ≠ Some (OMultiVector mv) →
     ∀ n, n ∈ subfield_names_ f → isParameter ("Constant " +:+ n) sub = true) ∧
  (∀ u,
     Forall2 (λ n d, PL_find ("Constant " +:+ n) pl = Some (PDouble d))
             (subfield_names_ f) u →
     length mv = length u →
     initialize_global_field pl p h =
       (Ok (), <[p := OField (with_initialized (with_dirty f))]>
                 (<[data_ f := OMultiVector
                                 (zip_with (λ d v, replicate (length v) d) u mv)]> h))).
Proof.
  intros Hp Hmv Hnamed Hpriv. split_and!.
  - intros Hmiss. by apply global_pass_missing.
  - intros Hchanged. destruct (missing_or_all_present pl f) as [Hmiss|Hall]; [|done].
    destruct (global_pass_missing pl fields h p f mv Hp Hmv Hpriv Hmiss) as [H1 H2].
    by destruct Hchanged.
  - intros Hmiss. apply block_pass_missing; try done. apply Hnamed.
  - intros Hchanged. destruct (missing_or_all_present sub f) as [Hmiss|Hall]; [|done].
    destruct (block_pass_missing sub id fields h p f mv Hp Hmv (proj1 Hnamed) Hpriv Hmiss)
      as [H1 H2].
    by destruct Hchanged.
  - intros u Hall Hlen. by apply initialize_global_field_found.
Qed.

(** ** The theorems at concrete registries *)

Example heap0_fields :
  fields_ (the_state heap0 reg0) = [5; 7] ∧
  (fieldname_ (the_field heap0 5), initialized_ (the_field heap0 5)) = ("pressure", true) ∧
  (fieldname_ (the_field heap0 7), initialized_ (the_field heap0 7)) = ("temperature", false) ∧
  the_buffer heap0 4 = [[100000; 100000; 200000; 200000]%float] ∧
  the_buffer heap0 6 = [[0; 0; 0; 0]%float].
Proof. vm_compute. done. Qed.

Lemma require_field_arbitration_witness :
  (do this <- State_new_with [] mesh0; require_all this [by_state] ;; ret this) []
    = (Ok reg0, heapS) ∧
  arbitration (ownership heapS reg0 (r_name by_flow))
              (r_owner by_flow) (r_location by_flow) Transfer ∧
  follows Transfer heapS reg0 by_flow (require reg0 by_flow heapS) ∧
  ∀ n, n ≠ r_name by_flow →
       ownership (require reg0 by_flow heapS).2 reg0 n = ownership heapS reg0 n.
Proof.
  assert ((do this <- State_new_with [] mesh0; require_all this [by_state] ;; ret this) []
            = (Ok reg0, heapS)) as Hrun by (vm_compute; reflexivity).
  assert (arbitration (ownership heapS reg0 (r_name by_flow))
            (r_owner by_flow) (r_location by_flow) Transfer) as Hrow
    by (vm_compute; apply row_transfer; discriminate).
  split; [exact Hrun|]. split; [exact Hrow|].
  exact (require_field_arbitration [] mesh0 [] [by_state] reg0 heapS by_flow Transfer
           Hrun Hrow).
Defined.

Lemma WeakMPC_advance_spec_witness :
  (pk_advance kernel1 0%float 0%nat).1 = false ∧
  (pk_advance kernel2 0%float (pk_advance kernel1 0%float 0%nat).2).1 = true ∧
  (WeakMPC_advance [kernel1; kernel2; kernel3] 0%float (0%nat, [])).1 = true ∧
  (WeakMPC_advance [kernel1; kernel2; kernel3] 0%float (0%nat, [])).2.2
    = [kernel1; kernel2].
Proof.
  split; [reflexivity|]. split; [reflexivity|].
  exact (proj1 (proj2 (proj2
           (WeakMPC_advance_spec [kernel1; kernel2; kernel3] 0%float 0%nat)))
           kernel1 kernel2 kernel3 eq_refl eq_refl eq_refl).
Defined.

Lemma State_assign_incompatible_witness :
  heapABC !! regC = Some (OState (the_state heapABC regC)) ∧
  heapABC !! regA = Some (OState (the_state heapABC regA)) ∧
  length (fields_ (the_state heapABC regC)) ≠ length (fields_ (the_state heapABC regA)) ∧
  State_assign regC regA heapABC = (Throw NonCompatibleStates, heapABC).
Proof.
  assert (heapABC !! regC = Some (OState (the_state heapABC regC))) as H1
    by (vm_compute; reflexivity).
  assert (heapABC !! regA = Some (OState (the_state heapABC regA))) as H2
    by (vm_compute; reflexivity).
  assert (length (fields_ (the_state heapABC regC))
          ≠ length (fields_ (the_state heapABC regA))) as H3
    by (vm_compute; discriminate).
  split; [exact H1|]. split; [exact H2|]. split; [exact H3|].
  exact (State_assign_incompatible heapABC regC regA _ _ H1 H2 H3).
Defined.

Lemma State_assign_checks_count_witness :
  populated heapAB regB ∧ populated heapAB regA ∧
  heapAB !! regB = Some (OState (the_state heapAB regB)) ∧
  heapAB !! regA = Some (OState (the_state heapAB regA)) ∧
  same_shaped heapAB (fields_ (the_state heapAB regB))
                     (fields_ (the_state heapAB regA)) ∧
  (State_assign regB regA heapAB).1 = Ok ().
Proof.
  assert (populated heapAB regB) as H1
    by (apply populatedb_sound; vm_compute; reflexivity).
  assert (populated heapAB regA) as H2
    by (apply populatedb_sound; vm_compute; reflexivity).
  assert (heapAB !! regB = Some (OState (the_state heapAB regB))) as H3
    by (vm_compute; reflexivity).
  assert (heapAB !! regA = Some (OState (the_state heapAB regA))) as H4
    by (vm_compute; reflexivity).
  assert (same_shaped heapAB (fields_ (the_state heapAB regB))
                             (fields_ (the_state heapAB regA))) as H5.
  { change (fields_ (the_state heapAB regB)) with [11%nat].
    change (fields_ (the_state heapAB regA)) with [5%nat].
    constructor; [|constructor].
    exists (the_field heapAB 11), (the_field heapAB 5),
           (the_buffer heapAB 10), (the_buffer heapAB 4).
    split; [vm_compute; reflexivity|]. split; [vm_compute; reflexivity|].
    split; [vm_compute; reflexivity|]. split; [vm_compute; reflexivity|].
    split; [vm_compute; reflexivity|]. split; [vm_compute; reflexivity|].
    vm_compute. repeat constructor. }
  split; [exact H1|]. split; [exact H2|]. split; [exact H3|]. split; [exact H4|].
  split; [exact H5|].
  exact (proj2 (State_assign_checks_count heapAB regB regA _ _ H1 H2 H3 H4) H5).
Defined.

Lemma check_all_initialized_iff_witness :
  heap0 !! reg0 = Some (OState (the_state heap0 reg0)) ∧
  Forall (λ p, is_Some (field_at heap0 p)) (fields_ (the_state heap0 reg0)) ∧
  ∃ b, check_all_initialized reg0 heap0 = (Ok b, heap0) ∧
       (b = true ↔
          ∀ p f, p ∈ fields_ (the_state heap0 reg0) → field_at heap0 p = Some f →
                 initialized_ f = true) ∧
       (b = false ↔
          ∃ p f, p ∈ fields_ (the_state heap0 reg0) ∧ field_at heap0 p = Some f ∧
                 initialized_ f = false).
Proof.
  assert (heap0 !! reg0 = Some (OState (the_state heap0 reg0))) as H1
    by (vm_compute; reflexivity).
  assert (Forall (λ p, is_Some (field_at heap0 p)) (fields_ (the_state heap0 reg0)))
    as H2.
  { change (fields_ (the_state heap0 reg0)) with [5; 7]%nat.
    repeat constructor; vm_compute; eauto. }
  split; [exact H1|]. split; [exact H2|].
  exact (check_all_initialized_iff heap0 reg0 _ H1 H2).
Defined.

Lemma copy_value_independent_witness :
  populated heap0 reg0 ∧
  ∃ B h1,
    State_copy reg0 heap0 = (Ok B, h1) ∧
    (∀ name, field_values h1 B name = field_values heap0 reg0 name) ∧
    (∀ s name,
       field_values (run_setter reg0 s h1).2 B name = field_values h1 B name) ∧
    (∀ s name,
       field_values (run_setter B s h1).2 reg0 name = field_values h1 reg0 name) ∧
    (∀ ss name, Forall value_setter ss →
       field_values (run_setters reg0 ss h1).2 B name = field_values h1 B name) ∧
    (∀ ss name, Forall value_setter ss →
       field_values (run_setters B ss h1).2 reg0 name = field_values h1 reg0 name).
Proof.
  assert (populated heap0 reg0) as H1
    by (apply populatedb_sound; vm_compute; reflexivity).
  split; [exact H1|].
  exact (copy_value_independent heap0 reg0 H1).
Defined.


Lemma get_field_any_requester_witness :
  consistent heap0 reg0 ∧
  heap0 !! reg0 = Some (OState (the_state heap0 reg0)) ∧
  field_name_map_ (the_state heap0 reg0) !! "pressure" = Some 0%nat ∧
  ∃ f, field_record heap0 reg0 "pressure" = Some f ∧
       get_field reg0 "pressure" "not the owner" heap0 = (Ok (data_ f), heap0).
Proof.
  assert (consistent heap0 reg0) as H1
    by (apply consistentb_sound; vm_compute; reflexivity).
  assert (heap0 !! reg0 = Some (OState (the_state heap0 reg0))) as H2
    by (vm_compute; reflexivity).
  assert (field_name_map_ (the_state heap0 reg0) !! "pressure" = Some 0%nat) as H3
    by (vm_compute; reflexivity).
  split; [exact H1|]. split; [exact H2|]. split; [exact H3|].
  exact (get_field_any_requester heap0 reg0 _ "pressure" 0%nat "not the owner" H1 H2 H3).
Defined.

Lemma require_field_again_by_owner_witness :
  consistent heapAB regA ∧
  ownership heapAB regA "pressure" = Some ("flow", FIELD_LOCATION_CELL) ∧
  "flow" ≠ "state" ∧
  require_field regA "pressure" FIELD_LOCATION_FACE "flow" 1 heapAB
    = (Throw (DoubleOwnership "pressure" FIELD_LOCATION_CELL), heapAB).
Proof.
  assert (consistent heapAB regA) as H1
    by (apply consistentb_sound; vm_compute; reflexivity).
  assert (ownership heapAB regA "pressure" = Some ("flow", FIELD_LOCATION_CELL)) as H2
    by (vm_compute; reflexivity).
  assert ("flow" ≠ "state") as H3 by discriminate.
  split; [exact H1|]. split; [exact H2|]. split; [exact H3|].
  exact (require_field_again_by_owner heapAB regA "pressure" "flow"
           FIELD_LOCATION_CELL FIELD_LOCATION_FACE 1 H1 H2 H3).
Defined.

Lemma constant_initialization_all_or_nothing_witness :
  heap1 !! 7%nat = Some (OField (the_field heap1 7)) ∧
  heap1 !! data_ (the_field heap1 7) = Some (OMultiVector (the_buffer heap1 6)) ∧
  named_cell_field (the_field heap1 7) ∧
  private_buffer heap1 [5; 7]%nat 7%nat (the_field heap1 7) ∧
  value_missing plist0 (the_field heap1 7) ∧
  value_missing block1 (the_field heap1 7) ∧
  ((global_pass plist0 [5; 7]%nat heap1).2 !! 7%nat = Some (OField (the_field heap1 7)) ∧
   (global_pass plist0 [5; 7]%nat heap1).2 !! data_ (the_field heap1 7)
     = Some (OMultiVector (the_buffer heap1 6))) ∧
  ((block_pass block1 2 [5; 7]%nat heap1).2 !! 7%nat = Some (OField (the_field heap1 7)) ∧
   (block_pass block1 2 [5; 7]%nat heap1).2 !! data_ (the_field heap1 7)
     = Some (OMultiVector (the_buffer heap1 6))).
Proof.
  assert (heap1 !! 7%nat = Some (OField (the_field heap1 7))) as H1
    by (vm_compute; reflexivity).
  assert (heap1 !! data_ (the_field heap1 7) = Some (OMultiVector (the_buffer heap1 6)))
    as H2 by (vm_compute; reflexivity).
  assert (named_cell_field (the_field heap1 7)) as H3
    by (split; vm_compute; reflexivity).
  assert (private_buffer heap1 [5; 7]%nat 7%nat (the_field heap1 7)) as H4.
  { intros q g Hq Hne Hg.
    apply elem_of_cons in Hq as [->|Hq].
    - vm_compute in Hg. injection Hg as <-. vm_compute. discriminate.
    - apply elem_of_cons in Hq as [->|Hq]; [done|]. by apply elem_of_nil in Hq. }
  assert (value_missing plist0 (the_field heap1 7)) as H5.
  { exists "Temperature". split; [|vm_compute; reflexivity].
    change (subfield_names_ (the_field heap1 7)) with ["Temperature"]. by left. }
  assert (value_missing block1 (the_field heap1 7)) as H6.
  { exists "Temperature". split; [|vm_compute; reflexivity].
    change (subfield_names_ (the_field heap1 7)) with ["Temperature"]. by left. }
  split; [exact H1|]. split; [exact H2|]. split; [exact H3|]. split; [exact H4|].
  split; [exact H5|]. split; [exact H6|].
  pose proof (constant_initialization_all_or_nothing plist0 block1 2 [5; 7]%nat
                heap1 7%nat _ _ H1 H2 H3 H4) as (Hg & _ & Hb & _ & _).
  split; [exact (Hg H5)|exact (Hb H6)].
Defined.

(** ** The model run on small cases *)

(** The failing rows of the table: "pressure" is owned by "flow" on cells. *)
Example state_asks_on_faces :
  require_field regA "pressure" FIELD_LOCATION_FACE "state" 1 heapAB
  = (Throw (LocationConflict "pressure" FIELD_LOCATION_FACE FIELD_LOCATION_CELL), heapAB).
Proof. vm_compute. reflexivity. Qed.

Example second_claimant :
  require_field regA "pressure" FIELD_LOCATION_CELL "energy" 1 heapAB
  = (Throw (DoubleOwnership "pressure" FIELD_LOCATION_CELL), heapAB).
Proof. vm_compute. reflexivity. Qed.

Example state_yields :
  require_field regA "pressure" FIELD_LOCATION_CELL "state" 1 heapAB = (Ok (), heapAB).
Proof. vm_compute. reflexivity. Qed.

(** Copy, then write through the source: the copy keeps its values. *)
Example copy_then_set_field :
  match State_copy reg0 heap0 with
  | (Ok B, h1) =>
      let h2 := (set_field_scalar reg0 "pressure" "state" 7%float h1).2 in
      field_values h2 reg0 "pressure" = Some [[7; 7; 7; 7]%float] ∧
      field_values h2 B "pressure" = Some [[100000; 100000; 200000; 200000]%float]
  | _ => False
  end.
Proof. vm_compute. done. Qed.

(** Initialization of [heap1]: "pressure" gets its constants (the block
    value on the cells of block 2), "temperature" is left alone. *)
Example initialize_heap1 :
  (initialize reg0 heap1).1 = Ok () ∧
  field_values (initialize reg0 heap1).2 reg0 "pressure"
    = Some [[100000; 100000; 200000; 200000]%float] ∧
  (initialized_ <$> field_record (initialize reg0 heap1).2 reg0 "pressure") = Some true ∧
  field_record (initialize reg0 heap1).2 reg0 "temperature"
    = field_record heap1 reg0 "temperature" ∧
  (check_all_initialized reg0 (initialize reg0 heap1).2).1 = Ok false.
Proof. vm_compute. done. Qed.

(** * Further properties of the registry and the coordinator *)

(** ** A newly constructed registry *)

(** X1.  The constructors give a registry without fields and without names,
    with a gravity vector of three zeros; it is consistent and populated, and
    [check_all_initialized] holds of it, there being no field to ask. *)
Theorem State_new_with_empty pl mesh (h0 : Heap) :
  ∃ this h st,
    State_new_with pl mesh h0 = (Ok this, h) ∧
    h !! this = Some (OState st) ∧
    fields_ st = [] ∧ field_name_map_ st = ∅ ∧
    parameter_list_ st = pl ∧
    h !! gravity_ st = Some (OVector [0; 0; 0]%float) ∧
    consistent h this ∧ populated h this ∧
    check_all_initialized this h = (Ok true, h).
Proof.
  pose proof (consistent_State_new_with pl mesh h0) as Hc.
  rewrite State_new_with_eq in *. simpl in Hc.
  set (st := mkState mesh pl (length h0) (length h0 + 1) (length h0 + 2)
                     ∅ [] indeterminate 0 0) in *.
  set (h := h0 ++ _) in *.
  assert (∀ k o, [ODouble indeterminate; ODouble indeterminate;
                  OVector (replicate 3 0%float); OState st] !! k = Some o →
                 h !! (length h0 + k)%nat = Some o) as Hat.
  { intros k o Hk. unfold h. rewrite lookup_app_r by lia.
    by replace (length h0 + k - length h0)%nat with k by lia. }
  assert (h !! (length h0 + 3)%nat = Some (OState st)) as Hthis by (by apply Hat).
  exists (length h0 + 3)%nat, h, st.
  split; [done|]. split; [done|]. split; [done|]. split; [done|]. split; [done|].
  split; [by apply (Hat 2%nat)|]. split; [done|]. split.
  - exists st. split; [done|]. split_and!.
    + exists indeterminate. simpl. rewrite <- (Nat.add_0_r (length h0)). by apply Hat.
    + exists indeterminate. by apply (Hat 1%nat).
    + eexists. by apply (Hat 2%nat).
    + constructor.
  - unfold check_all_initialized.
    by rewrite (bind_Ok _ _ _ _ _ (load_State_eq _ _ _ Hthis)).
Qed.

(** ** Self-assignment *)

(** X2.  Assigning a registry to itself does nothing: the counts agree, the
    test [this != &s] fails, and the heap is left as it is. *)
Theorem State_assign_self (h : Heap) (this : loc) st :
  h !! this = Some (OState st) →
  State_assign this this h = (Ok (), h).
Proof.
  intros Hthis. unfold State_assign.
  rewrite (bind_Ok _ _ _ _ _ (load_State_eq _ _ _ Hthis)).
  rewrite (bind_Ok _ _ _ _ _ (load_State_eq _ _ _ Hthis)).
  rewrite decide_False by (intros Hne; by apply Hne).
  rewrite (bind_Ok _ _ h () h) by done.
  by rewrite decide_False by (intros Hne; by apply Hne).
Qed.

Lemma State_assign_self_witness :
  heap0 !! reg0 = Some (OState (the_state heap0 reg0)) ∧
  State_assign reg0 reg0 heap0 = (Ok (), heap0).
Proof.
  assert (heap0 !! reg0 = Some (OState (the_state heap0 reg0))) as H1
    by (vm_compute; reflexivity).
  split; [exact H1|].
  exact (State_assign_self heap0 reg0 _ H1).
Defined.

(** ** Repeated and mismatched requests *)

Lemma with_owner_same f : with_owner (owner_ f) f = f.
Proof. by destruct f. Qed.

(** X3.  Once a field exists, a request made in the name of "state" for the
    location the field is on changes nothing, whoever owns the field: the
    call returns normally with the heap as it was. *)
Theorem require_field_by_state_again (h : Heap) (this : loc) name Y l num_dofs :
  consistent h this →
  ownership h this name = Some (Y, l) →
  require_field this name l "state" num_dofs h = (Ok (), h).
Proof.
  intros Hc Hown. unfold ownership in Hown.
  destruct (field_record h this name) as [f|] eqn:Hrec; [|done].
  injection Hown as <- <-.
  destruct (field_record_inv _ _ _ _ Hrec) as (st & i & p & Hthis & Hname & Hp & Hf).
  rewrite (require_field_existing _ _ _ _ _ _ _ _ _ _ Hthis Hname Hp Hf).
  destruct (decide (owner_ f = "state")) as [Hst|Hst].
  - rewrite decide_True by done. rewrite <- Hst at 1.
    by rewrite with_owner_same, list_insert_id.
  - rewrite decide_True by done.
    by rewrite decide_False by (intros Hne; by apply Hne).
Qed.

Lemma require_field_by_state_again_witness :
  consistent heapAB regA ∧
  ownership heapAB regA "pressure" = Some ("flow", FIELD_LOCATION_CELL) ∧
  require_field regA "pressure" FIELD_LOCATION_CELL "state" 3 heapAB = (Ok (), heapAB).
Proof.
  assert (consistent heapAB regA) as H1
    by (apply consistentb_sound; vm_compute; reflexivity).
  assert (ownership heapAB regA "pressure" = Some ("flow", FIELD_LOCATION_CELL)) as H2
    by (vm_compute; reflexivity).
  split; [exact H1|]. split; [exact H2|].
  exact (require_field_by_state_again heapAB regA "pressure" "flow"
           FIELD_LOCATION_CELL 3 H1 H2).
Defined.

(** X4.  For a name the registry already has, the number of dofs asked for
    plays no part: the call has the same outcome for every [num_dofs], and the
    field keeps the number of dofs it was created with.  A request that
    disagrees with the existing field on the dofs is not noticed. *)
Theorem require_field_ignores_num_dofs (h : Heap) (this : loc) name f
    location owner num_dofs num_dofs' :
  consistent h this →
  field_record h this name = Some f →
  require_field this name location owner num_dofs h
    = require_field this name location owner num_dofs' h ∧
  num_dofs_ <$> field_record (require_field this name location owner num_dofs h).2
                             this name
    = Some (num_dofs_ f).
Proof.
  intros Hc Hrec.
  destruct (field_record_inv _ _ _ _ Hrec) as (st & i & p & Hthis & Hname & Hp & Hf).
  rewrite !(require_field_existing _ _ _ _ _ _ _ _ _ _ Hthis Hname Hp Hf).
  split; [done|].
  repeat case_decide; simpl; try (by rewrite Hrec).
  assert (<[p := OField (with_owner owner f)]> h !! this = Some (OState st)) as H1.
  { rewrite list_lookup_insert_ne; [done|]. by eapply consistent_this_not_field. }
  assert (<[p := OField (with_owner owner f)]> h !! p
          = Some (OField (with_owner owner f))) as H2.
  { apply list_lookup_insert_eq. by eapply lookup_lt_Some. }
  by rewrite (field_record_eq _ _ _ _ _ _ _ H1 Hname Hp H2).
Qed.

Lemma require_field_ignores_num_dofs_witness :
  consistent heapS reg0 ∧
  field_record heapS reg0 "pressure" = Some (the_field heapS 5) ∧
  require_field reg0 "pressure" FIELD_LOCATION_CELL "flow" 1 heapS
    = require_field reg0 "pressure" FIELD_LOCATION_CELL "flow" 3 heapS ∧
  num_dofs_ <$> field_record
                  (require_field reg0 "pressure" FIELD_LOCATION_CELL "flow" 1 heapS).2
                  reg0 "pressure"
    = Some (num_dofs_ (the_field heapS 5)).
Proof.
  assert (consistent heapS reg0) as H1
    by (apply consistentb_sound; vm_compute; reflexivity).
  assert (field_record heapS reg0 "pressure" = Some (the_field heapS 5)) as H2
    by (vm_compute; reflexivity).
  split; [exact H1|]. split; [exact H2|].
  exact (require_field_ignores_num_dofs heapS reg0 "pressure" _
           FIELD_LOCATION_CELL "flow" 1 3 H1 H2).
Defined.

(** ** Fields in the order of their first request *)

Lemma omap_fieldnames (h : Heap) (fs : list loc) ns :
  Forall2 (λ p n, ∃ f, h !! p = Some (OField f) ∧ fieldname_ f = n) fs ns →
  omap (λ p, fieldname_ <$> field_at h p) fs = ns.
Proof.
  induction 1 as [|p n fs ns (f & Hf & Hn) _ IH]; [done|].
  cbn [omap list_omap]. unfold field_at at 1. rewrite Hf. simpl.
  rewrite Hn. f_equal. exact IH.
Qed.

Lemma names_are_field_names (h : Heap) (this : loc) ns :
  names_are h this ns → field_names h this = ns.
Proof.
  intros (st & Hthis & Hall). unfold field_names, state_at. rewrite Hthis.
  by apply omap_fieldnames.
Qed.

Lemma names_are_kept (h h' : Heap) (this : loc) ns :
  names_are h this ns → kept h h' → names_are h' this ns.
Proof.
  intros (st & Hthis & Hall) Hk.
  destruct (Hk this _ Hthis) as ([| | | |st'] & Hthis' & Hst); try done.
  destruct Hst as (_ & Hfs & _). exists st'. split; [done|]. rewrite Hfs.
  eapply Forall2_impl; [done|]. intros p n (f & Hf & Hn).
  destruct (Hk p _ Hf) as ([| | |g|] & Hg & Hfg); try done.
  destruct Hfg as [Hfg _]. exists g. split; [done|congruence].
Qed.

(** In a consistent registry the names of the fields are the names of the
    map, each at its index. *)
Lemma names_are_map (h : Heap) (this : loc) st ns name i :
  consistent h this → h !! this = Some (OState st) → names_are h this ns →
  field_name_map_ st !! name = Some i ↔ ns !! i = Some name.
Proof.
  intros Hc Hthis (st' & Hst & Hall).
  rewrite Hthis in Hst. injection Hst as <-.
  pose proof Hc as (st' & Hst & Hmap & _).
  rewrite Hthis in Hst. injection Hst as <-.
  split.
  - intros Hi. destruct (Hmap name i Hi) as (p & f & Hp & Hf & Hn).
    destruct (Forall2_lookup_l _ _ _ _ _ Hall Hp) as (n & Hni & f' & Hf' & Hn').
    rewrite Hf in Hf'. injection Hf' as <-. congruence.
  - intros Hi.
    destruct (Forall2_lookup_r _ _ _ _ _ Hall Hi) as (p & Hp & f & Hf & Hn).
    destruct (consistent_field _ _ _ _ _ Hc Hthis Hp) as (f' & Hf' & Hname).
    rewrite Hf in Hf'. injection Hf' as <-. congruence.
Qed.

Lemma names_are_require (h : Heap) (this : loc) ns c h' :
  consistent h this → names_are h this ns →
  require this c h = (Ok (), h') →
  names_are h' this (if decide (r_name c ∈ ns) then ns else ns ++ [r_name c]).
Proof.
  intros Hc Hns Hrun. pose proof Hc as (st & Hthis & Hmap & Hvec).
  destruct c as [name location owner num_dofs]. unfold require in Hrun. simpl in *.
  destruct (field_name_map_ st !! name) as [i|] eqn:Hname.
  - rewrite decide_True
      by (eapply list_elem_of_lookup_2, (names_are_map h this st ns name i); eauto).
    destruct (Hmap name i Hname) as (p & f & Hp & Hf & Hfn).
    rewrite (require_field_existing _ _ _ _ _ _ _ _ _ _ Hthis Hname Hp Hf) in Hrun.
    eapply names_are_kept; [done|].
    repeat case_decide; simplify_eq; try apply kept_refl.
    by eapply kept_insert.
  - rewrite decide_False.
    2: { intros [i Hi]%list_elem_of_lookup.
         apply (names_are_map h this st ns name i Hc Hthis Hns) in Hi. congruence. }
    rewrite (require_field_fresh _ _ _ _ _ _ _ Hthis Hname) in Hrun.
    injection Hrun as <-.
    destruct Hns as (st' & Hst & Hall). rewrite Hthis in Hst. injection Hst as <-.
    assert (this < length h)%nat as Hlt by (by eapply lookup_lt_Some).
    unfold created_heap. eexists. split.
    { apply list_lookup_insert_eq. rewrite length_app. lia. }
    unfold with_fields, with_field_name_map. simpl.
    apply Forall2_app.
    + eapply Forall2_impl; [done|]. intros p n (f & Hf & Hn). exists f.
      split; [|done].
      rewrite list_lookup_insert_ne by (by eapply not_eq_sym, consistent_this_not_field).
      by apply lookup_app_l_Some.
    + constructor; [|constructor].
      exists (mkField name owner location num_dofs [] false false
                      (mesh_maps_ st) (length h)).
      split; [|done].
      rewrite list_lookup_insert_ne by lia.
      rewrite lookup_app_r by lia.
      by replace (S (length h) - length h)%nat with 1%nat by lia.
Qed.

Lemma names_are_require_all cs (h : Heap) (this : loc) ns h' :
  consistent h this → names_are h this ns →
  require_all this cs h = (Ok (), h') →
  names_are h' this (first_seen ns (r_name <$> cs)).
Proof.
  revert h ns. induction cs as [|c cs IH]; intros h ns Hc Hns Hrun.
  - injection Hrun as <-. done.
  - unfold require_all in Hrun. simpl in Hrun. unfold bind in Hrun.
    destruct (require this c h) as [[[]|e|] h1] eqn:Hstep; try done.
    simpl. eapply (IH h1); [| |done].
    + pose proof (consistent_require_field h this (r_name c) (r_location c)
                    (r_owner c) (r_num_dofs c) Hc) as Hc1.
      fold (require this c) in Hc1. by rewrite Hstep in Hc1.
    + by eapply names_are_require.
Qed.

Lemma first_seen_from (h1 : Heap) (t : loc) ns cs this h st :
  consistent h1 t → names_are h1 t ns →
  (require_all t cs ;; ret t) h1 = (Ok this, h) →
  h !! this = Some (OState st) →
  field_names h this = first_seen ns (r_name <$> cs) ∧
  length (fields_ st) = length (first_seen ns (r_name <$> cs)) ∧
  ∀ name i, field_name_map_ st !! name = Some i ↔
            first_seen ns (r_name <$> cs) !! i = Some name.
Proof.
  intros Hc Hns0 Hrun Hthis. unfold bind in Hrun.
  pose proof (consistent_require_all cs h1 t Hc) as Hall.
  pose proof (names_are_require_all cs h1 t ns) as Hns.
  destruct (require_all t cs h1) as [[[]|e|] h2] eqn:Hreq; try done.
  unfold ret in Hrun. injection Hrun as <- <-. simpl in Hall.
  specialize (Hns h2 Hc Hns0 eq_refl).
  split_and!.
  - by apply names_are_field_names.
  - destruct Hns as (st' & Hst & HF). rewrite Hthis in Hst. injection Hst as <-.
    by eapply Forall2_length.
  - intros name i. by eapply names_are_map.
Qed.

(** X5.  After any sequence of [require_field] calls that ran without a
    fatal error on a new registry, the registry has exactly one field per
    distinct name requested, the fields stand in the order in which their
    names were first requested, and the map sends each name to that
    position. *)
Theorem require_field_first_seen_order pl mesh (h0 : Heap) cs this h st :
  (do this <- State_new_with pl mesh; require_all this cs ;; ret this) h0
    = (Ok this, h) →
  h !! this = Some (OState st) →
  field_names h this = first_seen [] (r_name <$> cs) ∧
  length (fields_ st) = length (first_seen [] (r_name <$> cs)) ∧
  ∀ name i, field_name_map_ st !! name = Some i ↔
            first_seen [] (r_name <$> cs) !! i = Some name.
Proof.
  intros Hrun Hthis.
  unfold bind at 1 in Hrun.
  pose proof (consistent_State_new_with pl mesh h0) as Hnew.
  rewrite State_new_with_eq in Hrun, Hnew. cbn [snd] in Hnew.
  eapply first_seen_from; [exact Hnew| |exact Hrun|exact Hthis].
  eexists. split.
  { rewrite lookup_app_r by lia.
    by replace (length h0 + 3 - length h0)%nat with 3%nat by lia. }
  constructor.
Qed.

Lemma require_field_first_seen_order_witness :
  (do this <- State_new_with [] mesh0; require_all this [by_state; by_flow] ;; ret this) []
    = (Ok reg0, (require reg0 by_flow heapS).2) ∧
  (require reg0 by_flow heapS).2 !! reg0
    = Some (OState (the_state (require reg0 by_flow heapS).2 reg0)) ∧
  field_names (require reg0 by_flow heapS).2 reg0 = ["pressure"].
Proof.
  assert ((do this <- State_new_with [] mesh0;
           require_all this [by_state; by_flow] ;; ret this) []
          = (Ok reg0, (require reg0 by_flow heapS).2)) as H1
    by (vm_compute; reflexivity).
  assert ((require reg0 by_flow heapS).2 !! reg0
          = Some (OState (the_state (require reg0 by_flow heapS).2 reg0))) as H2
    by (vm_compute; reflexivity).
  split; [exact H1|]. split; [exact H2|].
  exact (proj1 (require_field_first_seen_order [] mesh0 [] [by_state; by_flow]
                  reg0 _ _ H1 H2)).
Defined.

(** ** Relations kept by computations: the general rules *)

Section kept_by.
Context (R : Obj → Obj → Prop) `{!PreOrder R}.
#[local] Set Default Proof Using "All".

Lemma kept_by_refl h : kept_by R h h.
Proof. intros p o Hp. exists o. split; [done|reflexivity]. Qed.

Lemma kept_by_trans h1 h2 h3 : kept_by R h1 h2 → kept_by R h2 h3 → kept_by R h1 h3.
Proof.
  intros H12 H23 p o Hp.
  destruct (H12 p o Hp) as (o' & Hp' & Ho').
  destruct (H23 p o' Hp') as (o'' & Hp'' & Ho'').
  exists o''. split; [done|]. by etrans.
Qed.

Lemma kept_by_insert (h : Heap) (p : loc) o o' :
  h !! p = Some o → R o o' → kept_by R h (<[p := o']> h).
Proof.
  intros Hp Ho q oq Hq. destruct (decide (q = p)) as [->|Hne].
  - exists o'. split; [apply list_lookup_insert_eq; by eapply lookup_lt_Some|].
    rewrite Hp in Hq. by injection Hq as <-.
  - exists oq. rewrite list_lookup_insert_ne by done. split; [done|reflexivity].
Qed.

Lemma keeps_by_ret {A} (a : A) : keeps_by R (ret a).
Proof. intros h. apply kept_by_refl. Qed.

Lemma keeps_by_throw {A} e : keeps_by R (@throw A e).
Proof. intros h. apply kept_by_refl. Qed.

Lemma keeps_by_undefined {A} : keeps_by R (@undefined A).
Proof. intros h. apply kept_by_refl. Qed.

Lemma keeps_by_lift {A} (r : Result A) : keeps_by R (lift r).
Proof. intros h. apply kept_by_refl. Qed.

Lemma keeps_by_bind {A B} (m : M A) (k : A → M B) :
  keeps_by R m → (∀ a, keeps_by R (k a)) → keeps_by R (bind m k).
Proof.
  intros Hm Hk h. unfold bind. specialize (Hm h).
  destruct (m h) as [[a|e|] h1]; simpl in *; [|done|done].
  eapply kept_by_trans; [done|]. apply Hk.
Qed.

Lemma keeps_by_forM_ {A} (l : list A) (body : A → M unit) :
  (∀ x, keeps_by R (body x)) → keeps_by R (forM_ l body).
Proof.
  intros Hb. induction l as [|x l IH]; simpl; [apply keeps_by_ret|].
  apply keeps_by_bind; [apply Hb|done].
Qed.

Lemma keeps_by_load_double p : keeps_by R (load_double p).
Proof. intros h. unfold load_double. repeat case_match; apply kept_by_refl. Qed.
Lemma keeps_by_load_vector p : keeps_by R (load_vector p).
Proof. intros h. unfold load_vector. repeat case_match; apply kept_by_refl. Qed.
Lemma keeps_by_load_multivector p : keeps_by R (load_multivector p).
Proof. intros h. unfold load_multivector. repeat case_match; apply kept_by_refl. Qed.
Lemma keeps_by_load_Field p : keeps_by R (load_Field p).
Proof. intros h. unfold load_Field. repeat case_match; apply kept_by_refl. Qed.
Lemma keeps_by_load_State p : keeps_by R (load_State p).
Proof. intros h. unfold load_State. repeat case_match; apply kept_by_refl. Qed.

Lemma keeps_by_store_double p d :
  (∀ x y, R (ODouble x) (ODouble y)) → keeps_by R (store_double p d).
Proof.
  intros HR h. unfold store_double.
  repeat case_match; simpl; try apply kept_by_refl. by eapply kept_by_insert.
Qed.

Lemma keeps_by_store_vector p v :
  (∀ x y, R (OVector x) (OVector y)) → keeps_by R (store_vector p v).
Proof.
  intros HR h. unfold store_vector.
  repeat case_match; simpl; try apply kept_by_refl. by eapply kept_by_insert.
Qed.

Lemma keeps_by_store_multivector p mv :
  (∀ x y, R (OMultiVector x) (OMultiVector y)) → keeps_by R (store_multivector p mv).
Proof.
  intros HR h. unfold store_multivector.
  repeat case_match; simpl; try apply kept_by_refl. by eapply kept_by_insert.
Qed.

Lemma keeps_by_Field_modify p g :
  (∀ f, R (OField f) (OField (g f))) → keeps_by R (Field_modify p g).
Proof.
  intros Hg h. unfold Field_modify, bind, load_Field, store_Field.
  repeat case_match; simplify_eq; simpl; try apply kept_by_refl.
  eapply kept_by_insert; [done|]. apply Hg.
Qed.

Lemma keeps_by_State_modify p g :
  (∀ st, R (OState st) (OState (g st))) → keeps_by R (State_modify p g).
Proof.
  intros Hg h. unfold State_modify, bind, load_State, store_State.
  repeat case_match; simplify_eq; simpl; try apply kept_by_refl.
  eapply kept_by_insert; [done|]. apply Hg.
Qed.
End kept_by.

(** Decompose a computation along its binds and branches; what is left are
    the stores [R] does not allow. *)
Ltac keeps_by_step :=
  match goal with
  | |- keeps_by _ (Field_modify _ _) =>
      apply keeps_by_Field_modify; [apply _|by intros []]
  | |- keeps_by _ (State_modify _ _) =>
      apply keeps_by_State_modify; [apply _|by intros []]
  | |- keeps_by _ (bind _ _) => apply keeps_by_bind; [apply _| |intros ?]
  | |- keeps_by _ (forM_ _ _) => apply keeps_by_forM_; [apply _|intros ?]
  | |- keeps_by _ (if ?b then _ else _) => destruct b
  | |- keeps_by _ (match ?x with _ => _ end) => destruct x
  | |- keeps_by _ (ret _) => apply keeps_by_ret; apply _
  | |- keeps_by _ (throw _) => apply keeps_by_throw; apply _
  | |- keeps_by _ undefined => apply keeps_by_undefined; apply _
  | |- keeps_by _ (lift _) => apply keeps_by_lift; apply _
  | |- keeps_by _ (load_double _) => apply keeps_by_load_double; apply _
  | |- keeps_by _ (load_vector _) => apply keeps_by_load_vector; apply _
  | |- keeps_by _ (load_multivector _) => apply keeps_by_load_multivector; apply _
  | |- keeps_by _ (load_Field _) => apply keeps_by_load_Field; apply _
  | |- keeps_by _ (load_State _) => apply keeps_by_load_State; apply _
  | |- keeps_by _ (store_double _ _) =>
      apply keeps_by_store_double; [apply _|done]
  | |- keeps_by _ (store_vector _ _) =>
      apply keeps_by_store_vector; [apply _|done]
  | |- keeps_by _ (store_multivector _ _) =>
      apply keeps_by_store_multivector; [apply _|done]
  end.

Global Instance obj_schema_preorder : PreOrder obj_schema.
Proof.
  split.
  - intros []; simpl; done.
  - intros [] [] []; simpl; try done.
    + intros (-> & -> & -> & -> & H1) (-> & -> & -> & -> & H2). split_and!; auto.
    + intros (-> & -> & -> & -> & -> & -> & -> & ->)
             (-> & -> & -> & -> & -> & -> & -> & ->). done.
Qed.

Global Instance obj_vectors_preorder : PreOrder obj_vectors.
Proof.
  split.
  - intros []; simpl; done.
  - intros [] [] []; simpl; try done; congruence.
Qed.

(** ** What initialization and the setters never change *)

Lemma keeps_schema_get_field_record this name :
  keeps_by obj_schema (get_field_record this name).
Proof. unfold get_field_record. repeat keeps_by_step. Qed.

Lemma keeps_schema_Field_write p upd : keeps_by obj_schema (Field_write p upd).
Proof. unfold Field_write. repeat keeps_by_step. Qed.

Lemma keeps_schema_run_setter this s : keeps_by obj_schema (run_setter this s).
Proof.
  destruct s; simpl;
    unfold set_field_pointer, set_field_multivector, set_field_epetra_vector,
      set_field_array, set_field_scalar, set_field_array_block,
      set_field_scalar_block, set_vector_field, set_subfield_names,
      set_density, set_viscosity, set_gravity_array, set_gravity_vector,
      Field_set_data_pointer, Field_set_data_multivector,
      Field_set_data_epetra_vector, Field_set_data_array, Field_set_data_scalar,
      Field_set_data_array_block, Field_set_data_scalar_block,
      Field_set_vector_data, Field_set_subfield_names;
    repeat first [apply keeps_schema_get_field_record
                 |apply keeps_schema_Field_write
                 |keeps_by_step].
Qed.

Lemma keeps_schema_initialize this : keeps_by obj_schema (initialize this).
Proof.
  unfold initialize, initialize_from_parameter_list, initialize_block,
    initialize_global_field, initialize_block_field,
    set_gravity_array, set_density, set_viscosity,
    Field_get_location, Field_get_subfield_names,
    Field_get_num_dofs, Field_get_owner, Field_get_fieldname,
    Field_set_data_array, Field_set_data_array_block, Field_set_vector_data,
    Field_set_initialized.
  repeat first [apply keeps_schema_Field_write | keeps_by_step].
Qed.

Lemma ownership_kept_by_schema (h h' : Heap) (this : loc) name :
  consistent h this → kept_by obj_schema h h' →
  ownership h' this name = ownership h this name.
Proof.
  intros (st & Hthis & Hmap & _) Hk.
  destruct (Hk this _ Hthis) as ([| | | |st'] & Hthis' & Hst); try done.
  destruct Hst as (Hm & Hf & _).
  unfold ownership, field_record, state_at. rewrite Hthis, Hthis'. simpl.
  rewrite Hm, Hf.
  destruct (field_name_map_ st !! name) as [i|] eqn:Hname; [|done]. simpl.
  destruct (Hmap name i Hname) as (p & f & Hp & Hpf & _).
  rewrite Hp. simpl.
  destruct (Hk p _ Hpf) as ([| | |g|] & Hg & Hfg); try done.
  destruct Hfg as (_ & Ho & Hl & _).
  unfold field_at. rewrite Hpf, Hg. simpl. by rewrite Ho, Hl.
Qed.

(** X6.  Initialization and the setters, whoever calls them and whatever
    their outcome, leave the schema alone: every field keeps its name, its
    owner, its location and its number of dofs, a latch that is set stays
    set, and the registry keeps its name map, its field vector and its clock.
    So the owner and location recorded under a name change through
    [require_field] only. *)
Theorem schema_kept (h : Heap) (this : loc) op :
  (op = Op_initialize ∨ ∃ s, op = Op_setter s) →
  kept_by obj_schema h (run_operation this op h).2 ∧
  (consistent h this →
   ∀ name, ownership (run_operation this op h).2 this name = ownership h this name).
Proof.
  intros Hop.
  assert (kept_by obj_schema h (run_operation this op h).2) as Hk.
  { destruct Hop as [->|[s ->]]; simpl.
    - apply keeps_schema_initialize.
    - apply keeps_schema_run_setter. }
  split; [done|]. intros Hc name. by apply ownership_kept_by_schema.
Qed.

Lemma schema_kept_witness :
  (Op_setter (Set_field_scalar "pressure" "not the owner" 1%float) = Op_initialize ∨
   ∃ s, Op_setter (Set_field_scalar "pressure" "not the owner" 1%float) = Op_setter s) ∧
  consistent heapAB regA ∧
  ownership
    (run_operation regA
       (Op_setter (Set_field_scalar "pressure" "not the owner" 1%float)) heapAB).2
    regA "pressure"
  = ownership heapAB regA "pressure".
Proof.
  assert (Op_setter (Set_field_scalar "pressure" "not the owner" 1%float) = Op_initialize ∨
          ∃ s, Op_setter (Set_field_scalar "pressure" "not the owner" 1%float)
               = Op_setter s) as H1 by (right; eexists; reflexivity).
  assert (consistent heapAB regA) as H2
    by (apply consistentb_sound; vm_compute; reflexivity).
  split; [exact H1|]. split; [exact H2|].
  exact (proj2 (schema_kept heapAB regA _ H1) H2 "pressure").
Defined.

(** ** Initialization: gravity and the number of blocks *)

Lemma bind_Ok_inv {A B} (m : M A) (k : A → M B) h b :
  (bind m k h).1 = Ok b → ∃ a h1, m h = (Ok a, h1) ∧ (k a h1).1 = Ok b.
Proof.
  unfold bind. destruct (m h) as [[a|e|] h1]; simpl; try done. eauto.
Qed.

Lemma set_gravity_array_eq (h : Heap) (this : loc) st v g0 g1 g2 :
  h !! this = Some (OState st) →
  h !! gravity_ st = Some (OVector v) →
  (3 ≤ length v)%nat →
  set_gravity_array this g0 g1 g2 h =
    (Ok (), <[gravity_ st := OVector (<[2%nat := g2]> (<[1%nat := g1]> (<[0%nat := g0]> v)))]> h).
Proof.
  intros Hthis Hv Hlen. unfold set_gravity_array.
  rewrite (bind_Ok _ _ _ _ _ (load_State_eq _ _ _ Hthis)).
  rewrite (bind_Ok _ _ _ _ _ (load_vector_eq _ _ _ Hv)).
  rewrite decide_True by done. by eapply store_vector_eq.
Qed.

Lemma initialize_gravity_known (h : Heap) (this : loc) st gx gy gz :
  h !! this = Some (OState st) →
  get_double "Gravity x" (parameter_list_ st) = Ok gx →
  get_double "Gravity y" (parameter_list_ st) = Ok gy →
  get_double "Gravity z" (parameter_list_ st) = Ok gz →
  initialize this h =
    (set_gravity_array this gx gy gz ;; initialize_after_gravity this st) h.
Proof.
  intros Hthis Hx Hy Hz. unfold initialize, initialize_from_parameter_list.
  rewrite (bind_Ok _ _ _ _ _ (load_State_eq _ _ _ Hthis)).
  unfold lift at 1 2 3. unfold bind at 1. rewrite Hx.
  unfold bind at 1. rewrite Hy. unfold bind at 1. rewrite Hz. done.
Qed.

Lemma keeps_vectors_Field_write p upd : keeps_by obj_vectors (Field_write p upd).
Proof. unfold Field_write. repeat keeps_by_step. Qed.

Lemma keeps_vectors_after_gravity this st :
  keeps_by obj_vectors (initialize_after_gravity this st).
Proof.
  unfold initialize_after_gravity, initialize_block,
    initialize_global_field, initialize_block_field,
    set_density, set_viscosity,
    Field_get_location, Field_get_subfield_names,
    Field_get_num_dofs, Field_get_owner, Field_get_fieldname,
    Field_set_data_array, Field_set_data_array_block, Field_set_vector_data,
    Field_set_initialized.
  repeat first [apply keeps_vectors_Field_write | keeps_by_step].
Qed.

(** X7.  [initialize] writes gravity before anything else, and nothing it
    does afterwards touches it: on a registry whose gravity vector has its
    three components, once the three "Gravity" entries are there the vector
    holds them when [initialize] is over, also when [initialize] ends in a
    fatal error later on. *)
Theorem initialize_sets_gravity (h : Heap) (this : loc) st gx gy gz v :
  h !! this = Some (OState st) →
  get_double "Gravity x" (parameter_list_ st) = Ok gx →
  get_double "Gravity y" (parameter_list_ st) = Ok gy →
  get_double "Gravity z" (parameter_list_ st) = Ok gz →
  h !! gravity_ st = Some (OVector v) →
  length v = 3%nat →
  ∃ st', (initialize this h).2 !! this = Some (OState st') ∧
         gravity_ st' = gravity_ st ∧
         (initialize this h).2 !! gravity_ st = Some (OVector [gx; gy; gz]).
Proof.
  intros Hthis Hx Hy Hz Hv Hlen.
  rewrite (initialize_gravity_known _ _ _ _ _ _ Hthis Hx Hy Hz).
  rewrite (bind_Ok _ _ _ _ _
             (set_gravity_array_eq _ _ _ _ gx gy gz Hthis Hv ltac:(lia))).
  destruct v as [|a [|b [|c [|]]]]; try done. simpl.
  set (h1 := <[gravity_ st := OVector [gx; gy; gz]]> h).
  assert (gravity_ st ≠ this) as Hne by (intros E; rewrite E in Hv; congruence).
  assert (h1 !! this = Some (OState st)) as Hthis1
    by (unfold h1; by rewrite list_lookup_insert_ne).
  assert (h1 !! gravity_ st = Some (OVector [gx; gy; gz])) as Hv1
    by (unfold h1; apply list_lookup_insert_eq; by eapply lookup_lt_Some).
  pose proof (keeps_vectors_after_gravity this st h1) as Hk.
  destruct (Hk _ _ Hthis1) as ([| | | |st'] & Hst' & Hg); try done.
  destruct (Hk _ _ Hv1) as ([|v'| | |] & Hv' & Hgv); try done.
  simpl in Hg, Hgv. subst v'. eauto.
Qed.

(** X8.  The three gravity entries are mandatory: when one of them is
    missing, or is not a double, [initialize] throws before it has written
    anything. *)
Theorem initialize_needs_gravity (h : Heap) (this : loc) st name :
  h !! this = Some (OState st) →
  name ∈ ["Gravity x"; "Gravity y"; "Gravity z"] →
  (∀ d, get_double name (parameter_list_ st) ≠ Ok d) →
  ∃ e, initialize this h = (Throw e, h).
Proof.
  intros Hthis Hin Hno. unfold initialize, initialize_from_parameter_list.
  rewrite (bind_Ok _ _ _ _ _ (load_State_eq _ _ _ Hthis)).
  assert (∀ n, (∃ d, get_double n (parameter_list_ st) = Ok d) ∨
               ∃ e, get_double n (parameter_list_ st) = Throw e) as Hcase.
  { intros n. unfold get_double. repeat case_match; eauto. }
  unfold lift.
  destruct (Hcase "Gravity x") as [[gx Hx]|[e Hx]];
    unfold bind at 1; rewrite Hx; [|eauto].
  destruct (Hcase "Gravity y") as [[gy Hy]|[e Hy]];
    unfold bind at 1; rewrite Hy; [|eauto].
  destruct (Hcase "Gravity z") as [[gz Hz]|[e Hz]];
    unfold bind at 1; rewrite Hz; [|eauto].
  exfalso.
  repeat (apply elem_of_cons in Hin as [->|Hin]; [by eapply Hno|]).
  by apply elem_of_nil in Hin.
Qed.

(** X9.  "Number of mesh blocks" is mandatory too: without it (or with an
    entry that is not an int) [initialize] never returns normally, whatever
    else the parameter list holds. *)
Theorem initialize_needs_number_of_blocks (h : Heap) (this : loc) st :
  h !! this = Some (OState st) →
  (∀ n, get_int "Number of mesh blocks" (parameter_list_ st) ≠ Ok n) →
  (initialize this h).1 ≠ Ok ().
Proof.
  intros Hthis Hno Hok. unfold initialize, initialize_from_parameter_list in Hok.
  apply bind_Ok_inv in Hok as (st0 & h1 & Hload & Hok).
  rewrite (load_State_eq _ _ _ Hthis) in Hload. injection Hload as <- <-.
  do 7 (apply bind_Ok_inv in Hok as (? & ? & _ & Hok)).
  apply bind_Ok_inv in Hok as (n & h2 & Hget & _).
  unfold lift in Hget. injection Hget as Hget _. by eapply Hno.
Qed.

(** ** Fields the passes skip, and entries that stop them *)

Lemma initialize_global_field_skipped pl (p : loc) f (h : Heap) :
  h !! p = Some (OField f) → skipped_by_global_pass f →
  initialize_global_field pl p h = (Ok (), h).
Proof.
  intros Hp Hskip. unfold initialize_global_field.
  unfold Field_get_location, Field_get_subfield_names, Field_get_num_dofs.
  rewrite (bind_Ok _ _ h (location_ f) h)
    by (by rewrite (bind_Ok _ _ _ _ _ (load_Field_eq _ _ _ Hp))).
  case_decide; [|done].
  rewrite (bind_Ok _ _ h (subfield_names_ f) h)
    by (by rewrite (bind_Ok _ _ _ _ _ (load_Field_eq _ _ _ Hp))).
  rewrite (bind_Ok _ _ h (num_dofs_ f) h)
    by (by rewrite (bind_Ok _ _ _ _ _ (load_Field_eq _ _ _ Hp))).
  case_decide; [|done]. by destruct Hskip.
Qed.

Lemma initialize_block_field_skipped sub id (p : loc) f (h : Heap) :
  h !! p = Some (OField f) → skipped_by_block_pass sub f →
  initialize_block_field sub id p h = (Ok (), h).
Proof.
  intros Hp Hskip. unfold initialize_block_field.
  unfold Field_get_location, Field_get_subfield_names, Field_get_num_dofs,
    Field_get_fieldname.
  rewrite (bind_Ok _ _ h (location_ f) h)
    by (by rewrite (bind_Ok _ _ _ _ _ (load_Field_eq _ _ _ Hp))).
  case_decide as Hcell.
  - rewrite (bind_Ok _ _ h (subfield_names_ f) h)
      by (by rewrite (bind_Ok _ _ _ _ _ (load_Field_eq _ _ _ Hp))).
    rewrite (bind_Ok _ _ h (num_dofs_ f) h)
      by (by rewrite (bind_Ok _ _ _ _ _ (load_Field_eq _ _ _ Hp))).
    case_decide; [|done].
    destruct Hskip as [[_ ?]|[[Hface _]|[? _]]]; try done.
    rewrite Hcell in Hface. done.
  - case_decide as Hface; [|done].
    rewrite (bind_Ok _ _ h (num_dofs_ f) h)
      by (by rewrite (bind_Ok _ _ _ _ _ (load_Field_eq _ _ _ Hp))).
    case_decide as Hone; [|done].
    rewrite (bind_Ok _ _ h (fieldname_ f) h)
      by (by rewrite (bind_Ok _ _ _ _ _ (load_Field_eq _ _ _ Hp))).
    destruct Hskip as [[? _]|[[_ [Hd|Hx]]|[_ ?]]]; try done.
    by rewrite Hx.
Qed.

(** X10.  The passes consider few fields.  The global pass leaves alone every
    field that is not on cells, and every cell field whose subfield names are
    not as many as its dofs (so a field that was given no subfield names);
    a block pass leaves alone cell fields of the second kind, face fields
    with more than one dof or without a "Constant <fieldname> x" in the
    block, and fields on other entities.  Such a field, and its buffer when
    no other field of the pass shares it, are after the pass what they were
    before. *)
Theorem passes_skip_fields pl sub id fields (h : Heap) (p : loc) f mv :
  h !! p = Some (OField f) →
  h !! data_ f = Some (OMultiVector mv) →
  private_buffer h fields p f →
  (skipped_by_global_pass f →
     (global_pass pl fields h).2 !! p = Some (OField f) ∧
     (global_pass pl fields h).2 !! data_ f = Some (OMultiVector mv)) ∧
  (skipped_by_block_pass sub f →
     (block_pass sub id fields h).2 !! p = Some (OField f) ∧
     (block_pass sub id fields h).2 !! data_ f = Some (OMultiVector mv)).
Proof.
  intros Hp Hmv Hpriv. split; intros Hskip.
  - unfold global_pass. apply pass_leaves_field; try done.
    + apply initialize_global_field_effect.
    + intros h' Hp'. by rewrite (initialize_global_field_skipped _ _ _ _ Hp' Hskip).
  - unfold block_pass. apply pass_leaves_field; try done.
    + apply initialize_block_field_effect.
    + intros h' Hp'. by rewrite (initialize_block_field_skipped _ _ _ _ _ Hp' Hskip).
Qed.

(** X11.  For a face field of one dof the three components are not
    all-or-nothing: once the block has "Constant <fieldname> x", a component
    that is missing (or is not a double) makes the step throw, with nothing
    written. *)
Theorem face_field_needs_three_components sub id (p : loc) f (h : Heap) c :
  h !! p = Some (OField f) →
  location_ f = FIELD_LOCATION_FACE →
  num_dofs_ f = 1%Z →
  isParameter ("Constant " +:+ fieldname_ f +:+ " x") sub = true →
  c ∈ [" x"; " y"; " z"] →
  (∀ d, get_double ("Constant " +:+ fieldname_ f +:+ c) sub ≠ Ok d) →
  ∃ e, initialize_block_field sub id p h = (Throw e, h).
Proof.
  intros Hp Hface Hone Hx Hc Hno. unfold initialize_block_field.
  unfold Field_get_location, Field_get_num_dofs, Field_get_fieldname.
  rewrite (bind_Ok _ _ h (location_ f) h)
    by (by rewrite (bind_Ok _ _ _ _ _ (load_Field_eq _ _ _ Hp))).
  rewrite decide_False by (by rewrite Hface).
  rewrite decide_True by done.
  rewrite (bind_Ok _ _ h (num_dofs_ f) h)
    by (by rewrite (bind_Ok _ _ _ _ _ (load_Field_eq _ _ _ Hp))).
  rewrite decide_True by done.
  rewrite (bind_Ok _ _ h (fieldname_ f) h)
    by (by rewrite (bind_Ok _ _ _ _ _ (load_Field_eq _ _ _ Hp))).
  rewrite Hx.
  assert (∀ n, (∃ d, get_double n sub = Ok d) ∨ ∃ e, get_double n sub = Throw e)
    as Hcase.
  { intros n. unfold get_double. repeat case_match; eauto. }
  unfold lift.
  destruct (Hcase ("Constant " +:+ fieldname_ f +:+ " x")) as [[u0 H0]|[e H0]];
    unfold bind at 1; rewrite H0; [|eauto].
  destruct (Hcase ("Constant " +:+ fieldname_ f +:+ " y")) as [[u1 H1]|[e H1]];
    unfold bind at 1; rewrite H1; [|eauto].
  destruct (Hcase ("Constant " +:+ fieldname_ f +:+ " z")) as [[u2 H2]|[e H2]];
    unfold bind at 1; rewrite H2; [|eauto].
  exfalso.
  repeat (apply elem_of_cons in Hc as [->|Hc]; [by eapply Hno|]).
  by apply elem_of_nil in Hc.
Qed.

Lemma read_constants_wrong_type pl names :
  (∀ n, n ∈ names → isParameter ("Constant " +:+ n) pl = true) →
  (∃ n, n ∈ names ∧ ∀ d, get_double ("Constant " +:+ n) pl ≠ Ok d) →
  ∃ e, read_constants pl names = Throw e.
Proof.
  induction names as [|m names IH]; intros Hall (n & Hin & Hn).
  { by apply elem_of_nil in Hin. }
  simpl. rewrite (Hall m) by (by left).
  assert ((∃ d, get_double ("Constant " +:+ m) pl = Ok d) ∨
          ∃ e, get_double ("Constant " +:+ m) pl = Throw e) as [[d Hd]|[e He]].
  { unfold get_double. repeat case_match; eauto. }
  - rewrite Hd. apply elem_of_cons in Hin as [->|Hin]; [by destruct (Hn d)|].
    destruct IH as [e He]; [intros; apply Hall; by right|eauto|].
    rewrite He. eauto.
  - rewrite He. eauto.
Qed.

(** X12.  A missing value makes a pass skip a cell field; a value of the
    wrong type does not: when every subfield name has an entry but one of
    them is not a double, the step for the field throws, with nothing
    written. *)
Theorem constant_of_wrong_type_is_fatal pl (p : loc) f (h : Heap) :
  h !! p = Some (OField f) →
  named_cell_field f →
  (∀ n, n ∈ subfield_names_ f → isParameter ("Constant " +:+ n) pl = true) →
  (∃ n, n ∈ subfield_names_ f ∧ ∀ d, get_double ("Constant " +:+ n) pl ≠ Ok d) →
  ∃ e, initialize_global_field pl p h = (Throw e, h).
Proof.
  intros Hp [Hcell Hdofs] Hall Hbad. unfold initialize_global_field.
  unfold Field_get_location, Field_get_subfield_names, Field_get_num_dofs.
  rewrite (bind_Ok _ _ h (location_ f) h)
    by (by rewrite (bind_Ok _ _ _ _ _ (load_Field_eq _ _ _ Hp))).
  rewrite decide_True by done.
  rewrite (bind_Ok _ _ h (subfield_names_ f) h)
    by (by rewrite (bind_Ok _ _ _ _ _ (load_Field_eq _ _ _ Hp))).
  rewrite (bind_Ok _ _ h (num_dofs_ f) h)
    by (by rewrite (bind_Ok _ _ _ _ _ (load_Field_eq _ _ _ Hp))).
  rewrite decide_True by done.
  destruct (read_constants_wrong_type pl _ Hall Hbad) as [e He].
  unfold lift, bind. rewrite He. eauto.
Qed.

(** ** Copy construction: the members of the copy *)

Lemma State_copy_members (h : Heap) (s : loc) st :
  populated h s → h !! s = Some (OState st) →
  ∃ B h1 Bst,
    State_copy s h = (Ok B, h1) ∧ copied h s B h1 ∧
    h1 !! B = Some (OState Bst) ∧
    parameter_list_ Bst = [] ∧ mesh_maps_ Bst = mesh_maps_ st ∧
    field_name_map_ Bst = field_name_map_ st ∧
    time_ Bst = time_ st ∧ cycle_ Bst = cycle_ st ∧ status_ Bst = status_ st ∧
    scalars_of h1 B = scalars_of h s ∧
    ∃ d v g, h !! density_ st = Some (ODouble d) ∧
             h !! viscosity_ st = Some (ODouble v) ∧
             h !! gravity_ st = Some (OVector g) ∧
             h1 !! density_ Bst = Some (ODouble d) ∧
             h1 !! viscosity_ Bst = Some (ODouble v) ∧
             h1 !! gravity_ Bst = Some (OVector g).
Proof.
  intros (st' & Hs' & [d Hd] & [v Hv] & [g Hg] & Hfs) Hs.
  rewrite Hs in Hs'. injection Hs' as <-.
  rewrite (State_copy_prelude _ _ _ _ _ _ Hs Hd Hv Hg).
  destruct (forM_Field_copy_spec h (fields_ st) Hfs [ODouble d; ODouble v; OVector g])
    as (ps & ext & Hrun & Hall).
  rewrite (bind_Ok _ _ _ _ _ Hrun). unfold new.
  set (Bst := mkState _ _ _ _ _ _ _ _ _ _).
  set (h1 := (h ++ [ODouble d; ODouble v; OVector g] ++ ext) ++ [OState Bst]).
  assert (h1 !! length (h ++ [ODouble d; ODouble v; OVector g] ++ ext)
          = Some (OState Bst)) as HB.
  { unfold h1. by rewrite lookup_app_r, Nat.sub_diag. }
  assert (∀ k o, [ODouble d; ODouble v; OVector g] !! k = Some o →
                 h1 !! (length h + k)%nat = Some o) as Hat.
  { intros k o Hk. unfold h1. rewrite <- !app_assoc.
    rewrite lookup_app_r by lia.
    replace (length h + k - length h)%nat with k by lia.
    by apply lookup_app_l_Some. }
  exists (length (h ++ [ODouble d; ODouble v; OVector g] ++ ext)), h1, Bst.
  split; [done|]. split.
  { exists st, Bst, (([ODouble d; ODouble v; OVector g] ++ ext) ++ [OState Bst]).
    split_and!; try done.
    - unfold h1. by rewrite !app_assoc.
    - rewrite length_app. lia.
    - eapply Forall2_impl; [done|].
      intros p q (f & mv & dd & ? & ? & ? & ? & Hq & Hdd).
      exists f, mv, dd. split_and!; try done; by apply lookup_app_l_Some.
    - simpl. lia.
    - simpl. lia. }
  split; [done|]. do 6 (split; [done|]).
  pose proof (Hat 0%nat (ODouble d) eq_refl) as Hd1.
  pose proof (Hat 1%nat (ODouble v) eq_refl) as Hv1.
  pose proof (Hat 2%nat (OVector g) eq_refl) as Hg1.
  rewrite Nat.add_0_r in Hd1. split.
  - unfold scalars_of, state_at. rewrite HB, Hs. simpl.
    unfold double_at, vector_at.
    change (density_ Bst) with (length h).
    change (viscosity_ Bst) with (length h + 1)%nat.
    change (gravity_ Bst) with (length h + 2)%nat.
    by rewrite Hd1, Hv1, Hg1, Hd, Hv, Hg.
  - by exists d, v, g.
Qed.

Lemma scalars_agree (h h' : Heap) (this : loc) :
  h' !! this = h !! this →
  (∀ a, footprint h this a → h' !! a = h !! a) →
  scalars_of h' this = scalars_of h this.
Proof.
  intros Hthis Hagree. unfold scalars_of, state_at. rewrite Hthis.
  destruct (h !! this) as [[| | | |st]|] eqn:Hst; try done. simpl.
  unfold double_at, vector_at.
  rewrite !Hagree; [done|..]; exists st; (split; [done|]); auto.
Qed.

(** X13.  The copy constructor gives the copy scalars of its own: the copy
    has the density, viscosity and gravity of the source, and its time,
    cycle and status; afterwards no setter called on the source (and no
    sequence of value setters) changes the scalars of the copy, and the
    other way round. *)
Theorem copy_scalars_independent (h : Heap) (A : loc) :
  populated h A →
  ∃ B h1,
    State_copy A h = (Ok B, h1) ∧
    scalars_of h1 B = scalars_of h A ∧
    clock_of h1 B = clock_of h A ∧
    (∀ s, scalars_of (run_setter A s h1).2 B = scalars_of h1 B) ∧
    (∀ s, scalars_of (run_setter B s h1).2 A = scalars_of h1 A) ∧
    (∀ ss, Forall value_setter ss →
       scalars_of (run_setters A ss h1).2 B = scalars_of h1 B) ∧
    (∀ ss, Forall value_setter ss →
       scalars_of (run_setters B ss h1).2 A = scalars_of h1 A).
Proof.
  intros Hpop. pose proof Hpop as (st & Hst & _).
  destruct (State_copy_members h A st Hpop Hst)
    as (B & h1 & Bst & Hrun & Hcp & HB & _ & _ & _ & Ht & Hc & Hs & Hsc & _).
  exists B, h1. split; [done|]. split; [done|].
  destruct (copied_source_kept h A B h1 Hpop Hcp) as (HA & Hlow & HliveA).
  pose proof (copied_fields_live h A B h1 Hcp) as HliveB.
  assert (length h ≤ B)%nat as HBn by (by destruct Hcp as (? & ? & ? & ? & ? & ? & _)).
  assert (fields_live h1 A) as HlA.
  { destruct (populated_fields_live h A Hpop) as (st0 & Hst0 & Hl).
    pose proof Hcp as (? & ? & ext & _ & -> & _).
    exists st0. split; [by apply lookup_app_l_Some|].
    intros p Hp. destruct (Hl p Hp) as [f Hf]. exists f. by apply lookup_app_l_Some. }
  assert (fields_live h1 B) as HlB.
  { exists Bst. split; [done|]. intros q Hq. by eapply HliveB. }
  split_and!.
  - unfold clock_of, state_at. rewrite HB, Hst. simpl. by rewrite Ht, Hc, Hs.
  - intros s. apply scalars_agree.
    + apply run_setter_writes. intros Hfp.
      pose proof (footprint_source_low h A B h1 B Hpop Hcp Hfp). lia.
    + intros a Ha. apply run_setter_writes. intros Hfp.
      pose proof (footprint_source_low h A B h1 a Hpop Hcp Hfp).
      pose proof (footprint_copy_high h A B h1 a Hcp Ha). lia.
  - intros s. apply scalars_agree.
    + apply run_setter_writes. intros Hfp.
      pose proof (footprint_copy_high h A B h1 A Hcp Hfp). lia.
    + intros a Ha. apply run_setter_writes. intros Hfp.
      pose proof (footprint_source_low h A B h1 a Hpop Hcp Ha).
      pose proof (footprint_copy_high h A B h1 a Hcp Hfp). lia.
  - intros ss Hss.
    destruct (run_setters_within (λ a, a < length h)%nat h1 A ss HlA
                (λ a, footprint_source_low h A B h1 a Hpop Hcp) Hss h1
                (kept_refl h1) (λ _ _, eq_refl)) as [_ Hout].
    apply scalars_agree.
    + apply Hout. lia.
    + intros a Ha. apply Hout.
      pose proof (footprint_copy_high h A B h1 a Hcp Ha). lia.
  - intros ss Hss.
    destruct (run_setters_within (λ a, length h ≤ a)%nat h1 B ss HlB
                (λ a, footprint_copy_high h A B h1 a Hcp) Hss h1
                (kept_refl h1) (λ _ _, eq_refl)) as [_ Hout].
    apply scalars_agree.
    + apply Hout. lia.
    + intros a Ha. apply Hout.
      pose proof (footprint_source_low h A B h1 a Hpop Hcp Ha). lia.
Qed.

(** X14.  The copy constructor does not copy the parameter list: the copy
    has an empty one, so [initialize] called on a copy throws at the first
    entry it asks for, "Gravity x", and writes nothing. *)
Theorem initialize_of_a_copy_throws (h : Heap) (A : loc) :
  populated h A →
  ∃ B h1 Bst,
    State_copy A h = (Ok B, h1) ∧
    h1 !! B = Some (OState Bst) ∧ parameter_list_ Bst = [] ∧
    initialize B h1 = (Throw (Teuchos_InvalidParameterName "Gravity x"), h1).
Proof.
  intros Hpop. pose proof Hpop as (st & Hst & _).
  destruct (State_copy_members h A st Hpop Hst)
    as (B & h1 & Bst & Hrun & _ & HB & Hpl & _).
  exists B, h1, Bst. split; [done|]. split; [done|]. split; [done|].
  unfold initialize, initialize_from_parameter_list.
  rewrite (bind_Ok _ _ _ _ _ (load_State_eq _ _ _ HB)). by rewrite Hpl.
Qed.

(** ** A copy as a snapshot *)

Global Instance obj_registry_preorder : PreOrder obj_registry.
Proof.
  split.
  - by intros [].
  - intros [] o' o''; simpl; try done. by intros -> ->.
Qed.

Lemma keeps_registry_get_field_record this name :
  keeps_by obj_registry (get_field_record this name).
Proof. unfold get_field_record. repeat keeps_by_step. Qed.

Lemma keeps_registry_Field_write p upd : keeps_by obj_registry (Field_write p upd).
Proof. unfold Field_write. repeat keeps_by_step. Qed.

(** No setter writes a registry object. *)
Lemma keeps_registry_run_setter this s : keeps_by obj_registry (run_setter this s).
Proof.
  destruct s; simpl;
    unfold set_field_pointer, set_field_multivector, set_field_epetra_vector,
      set_field_array, set_field_scalar, set_field_array_block,
      set_field_scalar_block, set_vector_field, set_subfield_names,
      set_density, set_viscosity, set_gravity_array, set_gravity_vector,
      Field_set_data_pointer, Field_set_data_multivector,
      Field_set_data_epetra_vector, Field_set_data_array, Field_set_data_scalar,
      Field_set_data_array_block, Field_set_data_scalar_block,
      Field_set_vector_data, Field_set_subfield_names;
    repeat first [apply keeps_registry_get_field_record
                 |apply keeps_registry_Field_write
                 |keeps_by_step].
Qed.

Lemma keeps_registry_run_setters this ss : keeps_by obj_registry (run_setters this ss).
Proof.
  unfold run_setters. apply keeps_by_forM_; [apply _|].
  intros s. apply keeps_registry_run_setter.
Qed.

Lemma restoring_store (h h1 : Heap) (A : loc) D cur hk (a : loc) o :
  restoring h h1 A D cur hk → a ≠ A → h !! a = Some o →
  restoring h h1 A (λ x, D x ∨ x = a) cur (<[a := o]> hk).
Proof.
  intros (HA & Hhigh & Hk & HD) Hne Ha.
  destruct (Hk a o Hne Ha) as (o' & Ha' & _).
  pose proof (lookup_lt_Some _ _ _ Ha) as Hlt.
  pose proof (lookup_lt_Some _ _ _ Ha') as Hlt'.
  split_and!.
  - by rewrite list_lookup_insert_ne.
  - intros b Hb. rewrite list_lookup_insert_ne by lia. by apply Hhigh.
  - intros b ob Hb Hob. destruct (decide (b = a)) as [->|Hba].
    + exists o. rewrite list_lookup_insert_eq by done.
      rewrite Ha in Hob. injection Hob as <-. split; [done|apply obj_kept_refl].
    + rewrite list_lookup_insert_ne by done. by apply Hk.
  - intros b [Hb| ->] HbA.
    + destruct (decide (b = a)) as [->|Hba].
      * by rewrite list_lookup_insert_eq.
      * rewrite list_lookup_insert_ne by done. by apply HD.
    + by rewrite list_lookup_insert_eq.
Qed.

Lemma restoring_modify (h h1 : Heap) (A : loc) D cur hk g :
  (A < length h)%nat → restoring h h1 A D cur hk →
  State_modify A g hk = (Ok (), <[A := OState (g cur)]> hk) ∧
  restoring h h1 A D (g cur) (<[A := OState (g cur)]> hk).
Proof.
  intros HAlt (HA & Hhigh & Hk & HD).
  split; [by apply State_modify_eq|].
  pose proof (lookup_lt_Some _ _ _ HA) as Hlt.
  split_and!.
  - by rewrite list_lookup_insert_eq.
  - intros b Hb. rewrite list_lookup_insert_ne by lia. by apply Hhigh.
  - intros b ob Hb Hob. rewrite list_lookup_insert_ne by done. by apply Hk.
  - intros b Hb HbA. rewrite list_lookup_insert_ne by done. by apply HD.
Qed.

Lemma restoring_weaken (h h1 : Heap) (A : loc) (D D' : loc → Prop) cur hk :
  (∀ a, D' a → D a) → restoring h h1 A D cur hk → restoring h h1 A D' cur hk.
Proof.
  intros HDD (HA & Hhigh & Hk & HD). split_and!; try done.
  intros a Ha. apply HD. by apply HDD.
Qed.

(** The loop of [operator=] over the fields, run with a copy as the source:
    every buffer of the target gets back the values it had when the copy
    was made. *)
Lemma restoring_fields (h h1 : Heap) (A : loc) st l1 l2 :
  h !! A = Some (OState st) →
  Forall2 (copy_of h h1) l1 l2 →
  ∀ D cur hk, restoring h h1 A D cur hk →
    ∃ hk', forM_ (zip l1 l2) (λ '(pt, ps), Field_assign pt ps) hk = (Ok (), hk') ∧
           restoring h h1 A
             (λ a, D a ∨ ∃ p f, p ∈ l1 ∧ h !! p = Some (OField f) ∧ a = data_ f)
             cur hk'.
Proof.
  intros HAst. induction 1 as [|pt ps l1 l2 Hcp _ IH]; intros D cur hk Hres.
  - exists hk. split; [done|]. eapply restoring_weaken; [|done].
    intros a [Ha|(p & f & Hp & _)]; [done|]. by apply elem_of_nil in Hp.
  - destruct Hcp as (f & mv & dd & Hpt & Hbuf & Hps & Hdd & Hps1 & Hdd1).
    pose proof Hres as (HA & Hhigh & Hk & HD).
    assert (pt ≠ A) as HptA by (intros ->; congruence).
    assert (data_ f ≠ A) as HbufA by (intros Heq; rewrite Heq in Hbuf; congruence).
    destruct (Hk pt _ HptA Hpt) as ([| | |f'|] & Hpt' & Hf'); try done.
    destruct Hf' as [_ Hdata].
    destruct (Hk (data_ f) _ HbufA Hbuf) as ([| |mv'| |] & Hbuf' & Hkb); try done.
    pose proof (restoring_store h h1 A D cur hk (data_ f) _ Hres HbufA Hbuf) as Hres1.
    destruct (IH _ _ _ Hres1) as (hk' & Hrun & Hres').
    exists hk'. split.
    + cbn [zip zip_with forM_]. unfold Field_assign at 1.
      rewrite <- (Hhigh ps Hps) in Hps1. rewrite <- (Hhigh dd Hdd) in Hdd1.
      rewrite (bind_Ok _ _ hk () (<[data_ f := OMultiVector mv]> hk)); [done|].
      rewrite (bind_Ok _ _ _ _ _ (load_Field_eq _ _ _ Hps1)).
      cbn [data_ with_data].
      rewrite (bind_Ok _ _ _ _ _ (load_multivector_eq _ _ _ Hdd1)).
      rewrite (bind_Ok _ _ _ _ _ (load_Field_eq _ _ _ Hpt')).
      rewrite Hdata. by eapply store_multivector_eq.
    + eapply restoring_weaken; [|done].
      intros a [Ha|(p & g & Hp & Hg & ->)]; [by left; left|].
      apply elem_of_cons in Hp as [->|Hp].
      * left; right. rewrite Hpt in Hg. by injection Hg as <-.
      * right. eauto.
Qed.

(** X15.  A copy serves as a snapshot.  Copy a populated registry [A] to
    [B], then call value setters on [A], as many as one likes and whether
    they succeed or throw: assigning [B] back to [A] runs to its end and
    gives [A] its registry object (mesh, name map, clock), its density,
    viscosity and gravity, and the values under every name, as they were
    when the copy was made.  The copy is not written on the way. *)
Theorem copy_then_assign_restores (h : Heap) (A : loc) ss :
  populated h A → Forall value_setter ss →
  ∃ B h1, State_copy A h = (Ok B, h1) ∧
    ((run_setters A ss h1).1 ≠ Undefined →
     ∃ h3, State_assign A B (run_setters A ss h1).2 = (Ok (), h3) ∧
       h3 !! A = h !! A ∧
       scalars_of h3 A = scalars_of h A ∧
       (∀ name, field_values h3 A name = field_values h A name) ∧
       (∀ a, (length h ≤ a)%nat → h3 !! a = h1 !! a)).
Proof.
  intros Hpop Hss. pose proof Hpop as (st & Hst & _ & _ & _ & Hfs).
  destruct (State_copy_members h A st Hpop Hst)
    as (B & h1 & Bst & Hrun & Hcp & HB & _ & Hmesh & Hmap & Ht & Hc & Hs & _ &
        d & v & g & Hd & Hv & Hg & Hd1 & Hv1 & Hg1).
  exists B, h1. split; [done|]. intros _.
  pose proof Hcp as (st0 & Bst0 & ext & Hst0 & Hh1 & HBn & HB0 & _ & Hall & _).
  rewrite Hst in Hst0. injection Hst0 as <-.
  rewrite HB in HB0. injection HB0 as <-.
  pose proof (lookup_lt_Some _ _ _ Hst) as HAlt.
  assert (∀ a o, h !! a = Some o → h1 !! a = Some o) as Hpre.
  { intros a o Ha. rewrite Hh1. by apply lookup_app_l_Some. }
  assert (fields_live h1 A) as HlA.
  { destruct (populated_fields_live h A Hpop) as (st0 & Hst0 & Hl).
    exists st0. split; [by apply Hpre|].
    intros p Hp. destruct (Hl p Hp) as [f Hf]. exists f. by apply Hpre. }
  destruct (run_setters_within (λ a, a < length h)%nat h1 A ss HlA
              (λ a, footprint_source_low h A B h1 a Hpop Hcp) Hss h1
              (kept_refl h1) (λ _ _, eq_refl)) as [Hk2 Hout2].
  set (h2 := (run_setters A ss h1).2) in *.
  assert (h2 !! A = Some (OState st)) as HA2.
  { destruct (keeps_registry_run_setters A ss h1 A _ (Hpre _ _ Hst))
      as (o' & Ho' & Hsame). simpl in Hsame. by subst o'. }
  assert (restoring h h1 A (λ _, False) st h2) as Hres0.
  { split_and!; try done.
    - intros a Ha. apply Hout2. lia.
    - intros a o _ Ha. apply Hk2. by apply Hpre. }
  assert (h2 !! B = Some (OState Bst)) as HB2 by (rewrite Hout2 by lia; done).
  unfold State_assign.
  rewrite (bind_Ok _ _ _ _ _ (load_State_eq _ _ _ HA2)).
  rewrite (bind_Ok _ _ _ _ _ (load_State_eq _ _ _ HB2)).
  rewrite decide_False
    by (intros Hne; apply Hne; by apply Forall2_length in Hall).
  rewrite (bind_Ok _ _ h2 () h2) by done.
  rewrite decide_True by lia.
  (* the registry object, then the scalars *)
  destruct (restoring_modify h h1 A _ _ _ (with_mesh_maps (mesh_maps_ Bst)) HAlt Hres0)
    as [Hrun1 Hres1].
  rewrite (bind_Ok _ _ _ _ _ Hrun1). clear Hrun1.
  set (k1 := <[A := _]> h2) in *.
  assert (density_ st ≠ A) as HdA by (intros Heq; rewrite Heq in Hd; congruence).
  assert (viscosity_ st ≠ A) as HvA by (intros Heq; rewrite Heq in Hv; congruence).
  assert (gravity_ st ≠ A) as HgA by (intros Heq; rewrite Heq in Hg; congruence).
  assert (∀ D cur hk (a : loc), restoring h h1 A D cur hk → (length h ≤ a)%nat →
            hk !! a = h1 !! a) as Hhi
    by (intros D cur hk a (_ & Hhigh & _) Ha; by apply Hhigh).
  assert (∀ D cur hk a o, restoring h h1 A D cur hk → a ≠ A → h !! a = Some o →
            ∃ o', hk !! a = Some o' ∧ obj_kept o o') as Hkk
    by (intros D cur hk a o (_ & _ & Hk & _) Ha Ho; by apply Hk).
  pose proof Hcp as (_ & Bst0 & _ & _ & _ & _ & HB0 & _ & _ & HdB & HvB & HgB).
  rewrite HB in HB0. injection HB0 as <-.
  (* density *)
  rewrite <- (Hhi _ _ _ _ Hres1 HdB) in Hd1.
  rewrite (bind_Ok _ _ _ _ _ (load_double_eq _ _ _ Hd1)).
  destruct (Hkk _ _ _ _ _ Hres1 HdA Hd) as ([x| | | |] & Hx & Hkx); try done; clear Hkx.
  rewrite (bind_Ok _ _ _ _ _ (store_double_eq _ _ _ d Hx)).
  pose proof (restoring_store _ _ _ _ _ _ _ _ Hres1 HdA Hd) as Hres2.
  set (k2 := <[density_ st := _]> k1) in *. clear Hx x.
  (* viscosity *)
  rewrite <- (Hhi _ _ _ _ Hres2 HvB) in Hv1.
  rewrite (bind_Ok _ _ _ _ _ (load_double_eq _ _ _ Hv1)).
  destruct (Hkk _ _ _ _ _ Hres2 HvA Hv) as ([x| | | |] & Hx & Hkx); try done; clear Hkx.
  rewrite (bind_Ok _ _ _ _ _ (store_double_eq _ _ _ v Hx)).
  pose proof (restoring_store _ _ _ _ _ _ _ _ Hres2 HvA Hv) as Hres3.
  set (k3 := <[viscosity_ st := _]> k2) in *. clear Hx x.
  (* gravity *)
  rewrite <- (Hhi _ _ _ _ Hres3 HgB) in Hg1.
  rewrite (bind_Ok _ _ _ _ _ (load_vector_eq _ _ _ Hg1)).
  destruct (Hkk _ _ _ _ _ Hres3 HgA Hg) as ([|x| | |] & Hx & Hkx); try done; clear Hkx.
  rewrite (bind_Ok _ _ _ _ _ (store_vector_eq _ _ _ g Hx)).
  pose proof (restoring_store _ _ _ _ _ _ _ _ Hres3 HgA Hg) as Hres4.
  set (k4 := <[gravity_ st := _]> k3) in *. clear Hx x.
  (* the name map, the fields, the clock *)
  destruct (restoring_modify h h1 A _ _ _ (with_field_name_map (field_name_map_ Bst))
              HAlt Hres4) as [Hrun5 Hres5].
  rewrite (bind_Ok _ _ _ _ _ Hrun5). clear Hrun5.
  set (k5 := <[A := _]> k4) in *.
  destruct (restoring_fields h h1 A st _ _ Hst Hall _ _ _ Hres5)
    as (k6 & Hrun6 & Hres6).
  rewrite (bind_Ok _ _ _ _ _ Hrun6). clear Hrun6.
  destruct (restoring_modify h h1 A _ _ _
              (with_clock (time_ Bst) (cycle_ Bst) (status_ Bst)) HAlt Hres6)
    as [Hrun7 Hres7].
  rewrite Hrun7. clear Hrun7.
  set (h3 := <[A := _]> k6) in *.
  assert (with_clock (time_ Bst) (cycle_ Bst) (status_ Bst)
            (with_field_name_map (field_name_map_ Bst)
               (with_mesh_maps (mesh_maps_ Bst) st)) = st) as Hback.
  { rewrite Hmesh, Hmap, Ht, Hc, Hs. by destruct st. }
  rewrite Hback in Hres7. destruct Hres7 as (HA3 & Hhigh3 & Hk3 & HD3).
  exists h3. split; [done|]. split_and!.
  - by rewrite HA3.
  - unfold scalars_of, state_at. rewrite HA3, Hst. simpl.
    unfold double_at, vector_at.
    rewrite (HD3 (density_ st)), (HD3 (viscosity_ st)), (HD3 (gravity_ st));
      tauto.
  - intros name. unfold field_values, field_record, state_at.
    rewrite HA3, Hst. simpl.
    destruct (field_name_map_ st !! name) as [i|]; [|done]. simpl.
    destruct (fields_ st !! i) as [p|] eqn:Hp; [|done]. simpl.
    assert (p ∈ fields_ st) as Hin by (by eapply list_elem_of_lookup_2).
    rewrite Forall_forall in Hfs. destruct (Hfs p Hin) as (f & mv & Hf & Hmv).
    assert (p ≠ A) as HpA by (intros ->; congruence).
    destruct (Hk3 p _ HpA Hf) as ([| | |f'|] & Hf' & Hff); try done.
    destruct Hff as [_ Hdata].
    unfold field_at. rewrite Hf', Hf. simpl. rewrite Hdata.
    unfold buffer_at. rewrite (HD3 (data_ f)); [done| |].
    + right. eauto.
    + intros Heq. rewrite Heq in Hmv. congruence.
  - done.
Qed.

(** ** The coordinator over a list made of two *)

Lemma WeakMPC_advance_loop_app {W} (l1 l2 : list (PK W)) dt s :
  WeakMPC_advance_loop (l1 ++ l2) dt false s =
    if (WeakMPC_advance_loop l1 dt false s).1
    then WeakMPC_advance_loop l1 dt false s
    else WeakMPC_advance_loop l2 dt false (WeakMPC_advance_loop l1 dt false s).2.
Proof.
  revert s. induction l1 as [|pk l1 IH]; intros s; [done|].
  cbn [app WeakMPC_advance_loop].
  destruct (invoke pk dt s) as [[] s'] eqn:Hinv; [done|]. apply IH.
Qed.

Lemma WeakMPC_advance_loop_flag {W} (pks : list (PK W)) dt w log :
  (WeakMPC_advance_loop pks dt false (w, log)).1 = negb (all_succeed pks dt w).
Proof.
  revert w log. induction pks as [|pk pks IH]; intros w log; [done|].
  cbn [WeakMPC_advance_loop all_succeed]. unfold invoke. cbn [fst snd].
  destruct (pk_advance pk dt w) as [[] w']; [done|]. apply IH.
Qed.

(** X16.  Advancing the kernels of [l1 ++ l2] is advancing those of [l1] and
    then, if none of them failed, those of [l2] from where [l1] left the
    world; a failure in [l1] is the result, and [l2] is not entered.  The
    value returned is failure exactly when some kernel reached in turn
    reports failure, so a coordinator without kernels reports success. *)
Theorem WeakMPC_advance_app {W} (l1 l2 : list (PK W)) dt w log :
  WeakMPC_advance (l1 ++ l2) dt (w, log) =
    (if (WeakMPC_advance l1 dt (w, log)).1
     then WeakMPC_advance l1 dt (w, log)
     else WeakMPC_advance l2 dt (WeakMPC_advance l1 dt (w, log)).2) ∧
  (WeakMPC_advance (l1 ++ l2) dt (w, log)).1
    = negb (all_succeed l1 dt w) || negb (all_succeed l2 dt (world_after l1 dt w)).
Proof.
  unfold WeakMPC_advance. split; [apply WeakMPC_advance_loop_app|].
  rewrite WeakMPC_advance_loop_app.
  destruct (all_succeed l1 dt w) eqn:Hall.
  - rewrite (WeakMPC_advance_loop_all l1 dt false w log Hall).
    assert (match l1 with [] => false | _ => false end = false) as ->
      by (by destruct l1).
    cbn [fst snd negb orb]. apply WeakMPC_advance_loop_flag.
  - pose proof (WeakMPC_advance_loop_flag l1 dt w log) as Hflag.
    rewrite Hall in Hflag. cbn [negb] in Hflag. rewrite Hflag. by rewrite Hflag.
Qed.

(** ** Instances *)

Lemma initialize_sets_gravity_witness :
  heap1 !! reg0 = Some (OState (the_state heap1 reg0)) ∧
  get_double "Gravity x" (parameter_list_ (the_state heap1 reg0)) = Ok 0%float ∧
  get_double "Gravity y" (parameter_list_ (the_state heap1 reg0)) = Ok 0%float ∧
  get_double "Gravity z" (parameter_list_ (the_state heap1 reg0)) = Ok (-10)%float ∧
  heap1 !! gravity_ (the_state heap1 reg0) = Some (OVector [0; 0; 0]%float) ∧
  ∃ st', (initialize reg0 heap1).2 !! reg0 = Some (OState st') ∧
         gravity_ st' = gravity_ (the_state heap1 reg0) ∧
         (initialize reg0 heap1).2 !! gravity_ (the_state heap1 reg0)
           = Some (OVector [0; 0; -10]%float).
Proof.
  assert (heap1 !! reg0 = Some (OState (the_state heap1 reg0))) as H1
    by (vm_compute; reflexivity).
  assert (get_double "Gravity x" (parameter_list_ (the_state heap1 reg0)) = Ok 0%float)
    as H2 by (vm_compute; reflexivity).
  assert (get_double "Gravity y" (parameter_list_ (the_state heap1 reg0)) = Ok 0%float)
    as H3 by (vm_compute; reflexivity).
  assert (get_double "Gravity z" (parameter_list_ (the_state heap1 reg0))
          = Ok (-10)%float) as H4 by (vm_compute; reflexivity).
  assert (heap1 !! gravity_ (the_state heap1 reg0) = Some (OVector [0; 0; 0]%float))
    as H5 by (vm_compute; reflexivity).
  split; [exact H1|]. split; [exact H2|]. split; [exact H3|]. split; [exact H4|].
  split; [exact H5|].
  exact (initialize_sets_gravity heap1 reg0 _ _ _ _ _ H1 H2 H3 H4 H5 eq_refl).
Defined.

Lemma initialize_needs_gravity_witness :
  heapAB !! regA = Some (OState (the_state heapAB regA)) ∧
  (∀ d, get_double "Gravity x" (parameter_list_ (the_state heapAB regA)) ≠ Ok d) ∧
  ∃ e, initialize regA heapAB = (Throw e, heapAB).
Proof.
  assert (heapAB !! regA = Some (OState (the_state heapAB regA))) as H1
    by (vm_compute; reflexivity).
  assert (∀ d, get_double "Gravity x" (parameter_list_ (the_state heapAB regA)) ≠ Ok d)
    as H2 by (intros d; vm_compute; discriminate).
  split; [exact H1|]. split; [exact H2|].
  exact (initialize_needs_gravity heapAB regA _ "Gravity x" H1
           (list_elem_of_here _ _) H2).
Defined.

Lemma initialize_needs_number_of_blocks_witness :
  heapG !! reg0 = Some (OState (the_state heapG reg0)) ∧
  (∀ n, get_int "Number of mesh blocks" (parameter_list_ (the_state heapG reg0))
        ≠ Ok n) ∧
  (initialize reg0 heapG).1 ≠ Ok ().
Proof.
  assert (heapG !! reg0 = Some (OState (the_state heapG reg0))) as H1
    by (vm_compute; reflexivity).
  assert (∀ n, get_int "Number of mesh blocks"
                 (parameter_list_ (the_state heapG reg0)) ≠ Ok n)
    as H2 by (intros n; vm_compute; discriminate).
  split; [exact H1|]. split; [exact H2|].
  exact (initialize_needs_number_of_blocks heapG reg0 _ H1 H2).
Defined.

Lemma passes_skip_fields_witness :
  heapAB !! 5%nat = Some (OField (the_field heapAB 5)) ∧
  heapAB !! data_ (the_field heapAB 5) = Some (OMultiVector (the_buffer heapAB 4)) ∧
  private_buffer heapAB [5]%nat 5%nat (the_field heapAB 5) ∧
  skipped_by_global_pass (the_field heapAB 5) ∧
  skipped_by_block_pass block1 (the_field heapAB 5) ∧
  ((global_pass plist0 [5]%nat heapAB).2 !! 5%nat = Some (OField (the_field heapAB 5)) ∧
   (global_pass plist0 [5]%nat heapAB).2 !! data_ (the_field heapAB 5)
     = Some (OMultiVector (the_buffer heapAB 4))) ∧
  ((block_pass block1 2 [5]%nat heapAB).2 !! 5%nat = Some (OField (the_field heapAB 5)) ∧
   (block_pass block1 2 [5]%nat heapAB).2 !! data_ (the_field heapAB 5)
     = Some (OMultiVector (the_buffer heapAB 4))).
Proof.
  assert (heapAB !! 5%nat = Some (OField (the_field heapAB 5))) as H1
    by (vm_compute; reflexivity).
  assert (heapAB !! data_ (the_field heapAB 5)
          = Some (OMultiVector (the_buffer heapAB 4))) as H2
    by (vm_compute; reflexivity).
  assert (private_buffer heapAB [5]%nat 5%nat (the_field heapAB 5)) as H3.
  { intros q g Hq Hne Hg.
    apply elem_of_cons in Hq as [->|Hq]; [done|]. by apply elem_of_nil in Hq. }
  assert (skipped_by_global_pass (the_field heapAB 5)) as H4
    by (right; vm_compute; discriminate).
  assert (skipped_by_block_pass block1 (the_field heapAB 5)) as H5
    by (left; split; vm_compute; [reflexivity|discriminate]).
  split; [exact H1|]. split; [exact H2|]. split; [exact H3|].
  split; [exact H4|]. split; [exact H5|].
  pose proof (passes_skip_fields plist0 block1 2 [5]%nat heapAB 5%nat _ _ H1 H2 H3)
    as [Hg Hb].
  split; [exact (Hg H4)|exact (Hb H5)].
Defined.

Lemma face_field_needs_three_components_witness :
  heapF !! 5%nat = Some (OField (the_field heapF 5)) ∧
  location_ (the_field heapF 5) = FIELD_LOCATION_FACE ∧
  num_dofs_ (the_field heapF 5) = 1%Z ∧
  isParameter ("Constant " +:+ fieldname_ (the_field heapF 5) +:+ " x") blockF = true ∧
  (∀ d, get_double ("Constant " +:+ fieldname_ (the_field heapF 5) +:+ " y") blockF
        ≠ Ok d) ∧
  ∃ e, initialize_block_field blockF 2 5%nat heapF = (Throw e, heapF).
Proof.
  assert (heapF !! 5%nat = Some (OField (the_field heapF 5))) as H1
    by (vm_compute; reflexivity).
  assert (location_ (the_field heapF 5) = FIELD_LOCATION_FACE) as H2
    by (vm_compute; reflexivity).
  assert (num_dofs_ (the_field heapF 5) = 1%Z) as H3 by (vm_compute; reflexivity).
  assert (isParameter ("Constant " +:+ fieldname_ (the_field heapF 5) +:+ " x") blockF
          = true) as H4 by (vm_compute; reflexivity).
  assert (∀ d, get_double ("Constant " +:+ fieldname_ (the_field heapF 5) +:+ " y")
                 blockF ≠ Ok d) as H5 by (intros d; vm_compute; discriminate).
  split; [exact H1|]. split; [exact H2|]. split; [exact H3|]. split; [exact H4|].
  split; [exact H5|].
  exact (face_field_needs_three_components blockF 2 5%nat _ heapF " y" H1 H2 H3 H4
           (list_elem_of_further _ _ _ (list_elem_of_here _ _)) H5).
Defined.

Lemma constant_of_wrong_type_is_fatal_witness :
  heap1 !! 5%nat = Some (OField (the_field heap1 5)) ∧
  named_cell_field (the_field heap1 5) ∧
  (∀ n, n ∈ subfield_names_ (the_field heap1 5) →
        isParameter ("Constant " +:+ n) plist_int = true) ∧
  (∃ n, n ∈ subfield_names_ (the_field heap1 5) ∧
        ∀ d, get_double ("Constant " +:+ n) plist_int ≠ Ok d) ∧
  ∃ e, initialize_global_field plist_int 5%nat heap1 = (Throw e, heap1).
Proof.
  assert (heap1 !! 5%nat = Some (OField (the_field heap1 5))) as H1
    by (vm_compute; reflexivity).
  assert (named_cell_field (the_field heap1 5)) as H2
    by (split; vm_compute; reflexivity).
  assert (∀ n, n ∈ subfield_names_ (the_field heap1 5) →
               isParameter ("Constant " +:+ n) plist_int = true) as H3.
  { intros n Hn. change (subfield_names_ (the_field heap1 5)) with ["Pressure"] in Hn.
    apply list_elem_of_singleton in Hn as ->. vm_compute. reflexivity. }
  assert (∃ n, n ∈ subfield_names_ (the_field heap1 5) ∧
               ∀ d, get_double ("Constant " +:+ n) plist_int ≠ Ok d) as H4.
  { exists "Pressure". split; [|intros d; vm_compute; discriminate].
    change (subfield_names_ (the_field heap1 5)) with ["Pressure"]. by left. }
  split; [exact H1|]. split; [exact H2|]. split; [exact H3|]. split; [exact H4|].
  exact (constant_of_wrong_type_is_fatal plist_int 5%nat _ heap1 H1 H2 H3 H4).
Defined.

Lemma copy_scalars_independent_witness :
  populated heap1 reg0 ∧
  ∃ B h1,
    State_copy reg0 heap1 = (Ok B, h1) ∧
    scalars_of h1 B = scalars_of heap1 reg0 ∧
    clock_of h1 B = clock_of heap1 reg0 ∧
    (∀ s, scalars_of (run_setter reg0 s h1).2 B = scalars_of h1 B) ∧
    (∀ s, scalars_of (run_setter B s h1).2 reg0 = scalars_of h1 reg0) ∧
    (∀ ss, Forall value_setter ss →
       scalars_of (run_setters reg0 ss h1).2 B = scalars_of h1 B) ∧
    (∀ ss, Forall value_setter ss →
       scalars_of (run_setters B ss h1).2 reg0 = scalars_of h1 reg0).
Proof.
  assert (populated heap1 reg0) as H1
    by (apply populatedb_sound; vm_compute; reflexivity).
  split; [exact H1|]. exact (copy_scalars_independent heap1 reg0 H1).
Defined.

Lemma initialize_of_a_copy_throws_witness :
  populated heap0 reg0 ∧
  ∃ B h1 Bst,
    State_copy reg0 heap0 = (Ok B, h1) ∧
    h1 !! B = Some (OState Bst) ∧ parameter_list_ Bst = [] ∧
    initialize B h1 = (Throw (Teuchos_InvalidParameterName "Gravity x"), h1).
Proof.
  assert (populated heap0 reg0) as H1
    by (apply populatedb_sound; vm_compute; reflexivity).
  split; [exact H1|]. exact (initialize_of_a_copy_throws heap0 reg0 H1).
Defined.

Lemma copy_then_assign_restores_witness :
  populated heap1 reg0 ∧ Forall value_setter edits0 ∧
  ∃ B h1, State_copy reg0 heap1 = (Ok B, h1) ∧
    ((run_setters reg0 edits0 h1).1 ≠ Undefined →
     ∃ h3, State_assign reg0 B (run_setters reg0 edits0 h1).2 = (Ok (), h3) ∧
       h3 !! reg0 = heap1 !! reg0 ∧
       scalars_of h3 reg0 = scalars_of heap1 reg0 ∧
       (∀ name, field_values h3 reg0 name = field_values heap1 reg0 name) ∧
       (∀ a, (length heap1 ≤ a)%nat → h3 !! a = h1 !! a)).
Proof.
  assert (populated heap1 reg0) as H1
    by (apply populatedb_sound; vm_compute; reflexivity).
  assert (Forall value_setter edits0) as H2 by (repeat constructor).
  split; [exact H1|]. split; [exact H2|].
  exact (copy_then_assign_restores heap1 reg0 edits0 H1 H2).
Defined.

(** ** The two overloads of set_gravity *)

(** X17.  [set_gravity(std::vector)] replaces the gravity vector, whatever
    its length; [set_gravity(double[3])] writes the first three slots of
    the vector that is there.  So after a vector of at least three
    components the array overload succeeds and keeps what follows the
    third, after a vector of exactly three it gives what the vector
    overload gives, and after a shorter vector it is out of bounds. *)
Theorem set_gravity_overloads (h : Heap) (this : loc) st v0 g a b c :
  h !! this = Some (OState st) →
  h !! gravity_ st = Some (OVector v0) →
  ((3 ≤ length g)%nat →
     (set_gravity_vector this g ;; set_gravity_array this a b c) h
       = set_gravity_vector this ([a; b; c] ++ drop 3 g) h) ∧
  (length g = 3%nat →
     (set_gravity_vector this g ;; set_gravity_array this a b c) h
       = set_gravity_vector this [a; b; c] h) ∧
  ((length g < 3)%nat →
     ((set_gravity_vector this g ;; set_gravity_array this a b c) h).1 = Undefined) ∧
  (∀ g', (set_gravity_vector this g' h).1 = Ok () ∧
         vector_at (set_gravity_vector this g' h).2 (gravity_ st) = Some g').
Proof.
  intros Hthis Hv.
  assert (gravity_ st ≠ this) as Hne by (intros Heq; rewrite Heq in Hv; congruence).
  pose proof (lookup_lt_Some _ _ _ Hv) as Hlt.
  assert (∀ g', set_gravity_vector this g' h
                = (Ok (), <[gravity_ st := OVector g']> h)) as Hvec.
  { intros g'. unfold set_gravity_vector.
    rewrite (bind_Ok _ _ _ _ _ (load_State_eq _ _ _ Hthis)).
    by eapply store_vector_eq. }
  assert (<[gravity_ st := OVector g]> h !! this = Some (OState st)) as Hthis'
    by (by rewrite list_lookup_insert_ne).
  assert (<[gravity_ st := OVector g]> h !! gravity_ st = Some (OVector g)) as Hv'
    by (by rewrite list_lookup_insert_eq).
  assert ((3 ≤ length g)%nat →
          (set_gravity_vector this g ;; set_gravity_array this a b c) h
          = set_gravity_vector this ([a; b; c] ++ drop 3 g) h) as Hlong.
  { intros Hlen. rewrite (bind_Ok _ _ _ _ _ (Hvec g)), Hvec.
    rewrite (set_gravity_array_eq _ _ _ _ _ _ _ Hthis' Hv' Hlen).
    rewrite list_insert_insert_eq.
    destruct g as [|x [|y [|z g']]]; simpl in Hlen; try lia. done. }
  split_and!.
  - done.
  - intros Hlen. rewrite Hlong by lia.
    destruct g as [|x [|y [|z [|]]]]; simpl in Hlen; try lia. done.
  - intros Hlen. rewrite (bind_Ok _ _ _ _ _ (Hvec g)).
    unfold set_gravity_array.
    rewrite (bind_Ok _ _ _ _ _ (load_State_eq _ _ _ Hthis')).
    rewrite (bind_Ok _ _ _ _ _ (load_vector_eq _ _ _ Hv')).
    by rewrite decide_False by lia.
  - intros g'. rewrite Hvec. unfold vector_at. cbn [fst snd].
    by rewrite list_lookup_insert_eq.
Qed.

Lemma set_gravity_overloads_witness :
  heap1 !! reg0 = Some (OState (the_state heap1 reg0)) ∧
  heap1 !! gravity_ (the_state heap1 reg0) = Some (OVector [0; 0; 0]%float) ∧
  (3 ≤ length [1; 2; 3; 4]%float)%nat ∧
  (set_gravity_vector reg0 [1; 2; 3; 4]%float ;;
   set_gravity_array reg0 7%float 8%float 9%float) heap1
    = set_gravity_vector reg0 ([7; 8; 9]%float ++ drop 3 [1; 2; 3; 4]%float) heap1.
Proof.
  assert (heap1 !! reg0 = Some (OState (the_state heap1 reg0))) as H1
    by (vm_compute; reflexivity).
  assert (heap1 !! gravity_ (the_state heap1 reg0) = Some (OVector [0; 0; 0]%float))
    as H2 by (vm_compute; reflexivity).
  assert (3 ≤ length [1; 2; 3; 4]%float)%nat as H3 by (simpl; lia).
  split; [exact H1|]. split; [exact H2|]. split; [exact H3|].
  exact (proj1 (set_gravity_overloads heap1 reg0 _ _ [1; 2; 3; 4]%float
                  7%float 8%float 9%float H1 H2) H3).
Defined.
